(** * openapi-merger: the reference/include resolution engine

    A shallow embedding of [src/merger.js] (class [Merger]) and [src/http.js]
    ([download] and its module-level [cache]), with the JavaScript values the
    engine walks over, the lodash [merge] it calls, and an explicit state for
    the component manager, the fetch cache and the log; and of the command
    around them, [merger] of [src/index.js] with [readYAML] and [writeYAML]
    of [src/yaml.js]. *)

From Stdlib Require Import List String Ascii ZArith NArith Bool Lia.
From Stdlib Require Import DecimalString.
From Stdlib Require DecimalN.
Import ListNotations.
Local Open Scope string_scope.
Local Open Scope list_scope.
Set Warnings "-register-all".

(* ===================================================================== *)
(** ** Document nodes *)
(* ===================================================================== *)

(** A value as js-yaml's [load] and [JSON.parse] produce it, plus
    [undefined].  A mapping is a JavaScript object: its property list is
    kept in the order [Object.entries] enumerates it.  A sequence is a
    JavaScript array: [included] tells an [IncludedArray] (the subclass of
    [Array] imported from util) from a plain array; [aprops] are the
    properties that are not array indices, which [ret[key] = ...] can put on
    an array once [ret] has been turned into one.  A hole of an array is
    represented as [Undef]. *)
Inductive Node : Type :=
| Undef : Node
| Null : Node
| Bool (b : bool) : Node
| Num (z : Z) : Node
| Str (s : string) : Node
| Arr (included : bool) (elems : list Node) (aprops : list (string * Node)) : Node
| Obj (props : list (string * Node)) : Node.

Definition Props := list (string * Node).

Definition emptyObj : Node := Obj [].
Definition emptyArr : Node := Arr false [] [].

(** lodash [isObject] on document values, and [isArray]. *)
Definition isObject (n : Node) : bool :=
  match n with Arr _ _ _ | Obj _ => true | _ => false end.

Definition isArray (n : Node) : bool :=
  match n with Arr _ _ _ => true | _ => false end.

(** [x instanceof IncludedArray]. *)
Definition isIncludedArray (n : Node) : bool :=
  match n with Arr true _ _ => true | _ => false end.

(** JavaScript truthiness, as used by [if (cache[url])] and [if (!clazz)]. *)
Definition truthy (n : Node) : bool :=
  match n with
  | Undef | Null => false
  | Bool b => b
  | Num z => negb (Z.eqb z 0)
  | Str s => negb (String.eqb s "")
  | Arr _ _ _ | Obj _ => true
  end.

(* --------------------------------------------------------------------- *)
(** *** Property keys *)

Definition string_of_N (n : N) : string := NilEmpty.string_of_uint (N.to_uint n).

(** An array index: a canonical decimal numeral below 2^32 - 1. *)
Definition parse_index (k : string) : option N :=
  match NilEmpty.uint_of_string k with
  | Some u =>
      let n := N.of_uint u in
      if (String.eqb (string_of_N n) k && N.ltb n 4294967295)%bool
      then Some n else None
  | None => None
  end.

Fixpoint lookup (k : string) (l : Props) : option Node :=
  match l with
  | [] => None
  | (k', v) :: r => if String.eqb k k' then Some v else lookup k r
  end.

Definition hasKey (k : string) (l : Props) : bool :=
  match lookup k l with Some _ => true | None => false end.

Fixpoint replace_prop (k : string) (v : Node) (l : Props) : Props :=
  match l with
  | [] => []
  | (k', v') :: r =>
      if String.eqb k k' then (k', v) :: r else (k', v') :: replace_prop k v r
  end.

(** Where a new integer-like key goes: objects enumerate their array-index
    keys first, in ascending order, then the other keys in creation order. *)
Fixpoint insert_index (i : N) (k : string) (v : Node) (l : Props) : Props :=
  match l with
  | [] => [(k, v)]
  | (k', v') :: r =>
      match parse_index k' with
      | Some j => if N.ltb i j then (k, v) :: l else (k', v') :: insert_index i k v r
      | None => (k, v) :: l
      end
  end.

(** [o[k] = v] on the property list of a plain object. *)
Definition props_set (k : string) (v : Node) (l : Props) : Props :=
  if hasKey k l then replace_prop k v l
  else match parse_index k with
       | Some i => insert_index i k v l
       | None => l ++ [(k, v)]
       end.

Fixpoint props_remove (k : string) (l : Props) : Props :=
  match l with
  | [] => []
  | (k', v') :: r =>
      if String.eqb k k' then props_remove k r else (k', v') :: props_remove k r
  end.

(** [a[i] = v] on the elements of an array: writing past the end extends the
    array, the gap being holes. *)
Fixpoint elems_set (i : nat) (v : Node) (l : list Node) : list Node :=
  match i, l with
  | O, [] => [v]
  | O, _ :: r => v :: r
  | S i', [] => Undef :: elems_set i' v []
  | S i', x :: r => x :: elems_set i' v r
  end.

(** [obj[key]]. *)
Definition get_prop (o : Node) (k : string) : Node :=
  match o with
  | Obj l => match lookup k l with Some v => v | None => Undef end
  | Arr _ es ps =>
      match parse_index k with
      | Some i => nth (N.to_nat i) es Undef
      | None =>
          if String.eqb k "length" then Num (Z.of_nat (List.length es))
          else match lookup k ps with Some v => v | None => Undef end
      end
  | Str s =>
      match parse_index k with
      | Some i =>
          match get (N.to_nat i) s with
          | Some c => Str (String c EmptyString)
          | None => Undef
          end
      | None =>
          if String.eqb k "length" then Num (Z.of_nat (String.length s)) else Undef
      end
  | _ => Undef
  end.

(** [obj[key] = v] on an object or an array (a primitive has no properties
    to set).  Keys are taken not to be names of members of
    [Object.prototype] or [Array.prototype], [length] apart, which is read
    but not written. *)
Definition set_prop (o : Node) (k : string) (v : Node) : Node :=
  match o with
  | Obj l => Obj (props_set k v l)
  | Arr inc es ps =>
      match parse_index k with
      | Some i => Arr inc (elems_set (N.to_nat i) v es) ps
      | None => Arr inc es (props_set k v ps)
      end
  | _ => o
  end.

(** [delete obj[key]]: on an array an index becomes a hole. *)
Definition delete_prop (o : Node) (k : string) : Node :=
  match o with
  | Obj l => Obj (props_remove k l)
  | Arr inc es ps =>
      match parse_index k with
      | Some i =>
          if Nat.ltb (N.to_nat i) (List.length es)
          then Arr inc (elems_set (N.to_nat i) Undef es) ps
          else o
      | None => Arr inc es (props_remove k ps)
      end
  | _ => o
  end.

Fixpoint index_from (i : N) (l : list Node) : Props :=
  match l with
  | [] => []
  | x :: r => (string_of_N i, x) :: index_from (N.succ i) r
  end.

(** [Object.entries(obj)] for an object or an array. *)
Definition entries (o : Node) : Props :=
  match o with
  | Obj l => l
  | Arr _ es ps => index_from 0 es ++ ps
  | _ => []
  end.

(** [Object.keys(obj)]. *)
Definition keys (o : Node) : list string := map fst (entries o).




(* ===================================================================== *)
(** ** lodash [merge] *)
(* ===================================================================== *)

(** [key in object]. *)
Definition key_in (o : Node) (k : string) : bool :=
  match o with
  | Obj l => hasKey k l
  | Arr _ es ps =>
      match parse_index k with
      | Some i => Nat.ltb (N.to_nat i) (List.length es)
      | None => (String.eqb k "length" || hasKey k ps)%bool
      end
  | _ => false
  end.

(** lodash [assignMergeValue]: [undefined] is assigned only to define a key
    that is absent. *)
Definition assignMergeValue (o : Node) (k : string) (v : Node) : Node :=
  match v with
  | Undef => if key_in o k then o else set_prop o k v
  | _ => set_prop o k v
  end.

(** lodash [isArrayLikeObject] on a plain object: it has a [length] that is
    a valid length. *)
Definition arrayLikeLength (o : Node) : option nat :=
  match o with
  | Obj l =>
      match lookup "length" l with
      | Some (Num z) =>
          if (Z.leb 0 z && Z.leb z 9007199254740991)%bool
          then Some (Z.to_nat z) else None
      | _ => None
      end
  | _ => None
  end.

(** lodash [copyArray] of an array-like object. *)
Definition copyArray (o : Node) (len : nat) : list Node :=
  map (fun i => get_prop o (string_of_N (N.of_nat i))) (seq 0 len).

(** The value [baseMergeDeep] starts from when the source value is an
    array. *)
Definition arrayBase (objValue : Node) : Node :=
  if isArray objValue then objValue
  else match arrayLikeLength objValue with
       | Some len => Arr false (copyArray objValue len) []
       | None => emptyArr
       end.

(** The value [baseMergeDeep] starts from when the source value is a plain
    object. *)
Definition objectBase (objValue : Node) : Node :=
  if isObject objValue then objValue else emptyObj.

(** [mergedValue objValue srcValue] is the value [baseMerge] stores under a
    key whose value is [objValue] in the destination and [srcValue] in the
    source: [srcValue] itself when it is not an object, and otherwise the
    result of merging [srcValue], property by property, into [objValue] (or
    into a fresh array or object when [objValue] cannot receive it). *)
Fixpoint mergedValue (objValue srcValue : Node) {struct srcValue} : Node :=
  let mergeProps :=
    fix mergeProps (l : Props) (acc : Node) {struct l} : Node :=
      match l with
      | [] => acc
      | (k, x) :: r =>
          mergeProps r (assignMergeValue acc k (mergedValue (get_prop acc k) x))
      end in
  match srcValue with
  | Arr _ es ps =>
      let mergeElems :=
        fix mergeElems (i : N) (l : list Node) (acc : Node) {struct l} : Node :=
          match l with
          | [] => acc
          | x :: r =>
              let k := string_of_N i in
              mergeElems (N.succ i) r
                (assignMergeValue acc k (mergedValue (get_prop acc k) x))
          end in
      mergeProps ps (mergeElems 0%N es (arrayBase objValue))
  | Obj ps => mergeProps ps (objectBase objValue)
  | _ => srcValue
  end.

(** One step of [baseMerge]'s loop over the keys of the source. *)
Definition mergeStep (acc : Node) (kx : string * Node) : Node :=
  assignMergeValue acc (fst kx) (mergedValue (get_prop acc (fst kx)) (snd kx)).

(** [baseMerge(object, source)] given the enumerated properties of the
    source. *)
Definition baseMerge (object : Node) (srcEntries : Props) : Node :=
  fold_left mergeStep srcEntries object.

Fixpoint chars_from (i : N) (s : string) : Props :=
  match s with
  | EmptyString => []
  | String c r => (string_of_N i, Str (String c EmptyString)) :: chars_from (N.succ i) r
  end.

(** The properties [keysIn] enumerates on a source: a string is boxed and
    shows its characters. *)
Definition entriesIn (src : Node) : Props :=
  match src with
  | Str s => chars_from 0 s
  | _ => entries src
  end.

(** [_.merge(object, source)]: the destination is boxed with [Object(...)]
    ([undefined] and [null] give a fresh object; the model takes a fresh
    object for the other primitives as well), a falsy source is skipped. *)
Definition lodash_merge (object source : Node) : Node :=
  let o := objectBase object in
  if truthy source then baseMerge o (entriesIn source) else o.

(* ===================================================================== *)
(** ** State, exceptions and the sequencing of effects *)
(* ===================================================================== *)

(** The [loglevel] calls the code makes. *)
Inductive Level : Type := LDebug | LInfo | LWarn | LError.

Definition LogEntry : Type := (Level * string)%type.

(** What can be thrown: by the file system and the parsers, by a response
    whose body cannot be read, by a [TypeError] of the runtime (a property
    read on [undefined], a path function applied to a value that is not a
    string, a helper that rejects its argument), and by [handleInclude]
    itself. *)
Inductive Exn : Type :=
| FsError (path : string)
| ParseError (what : string)
| BodyError (url : string)
| TypeError (what : string)
| MergeError (message : string).

(** Modelled from the spec: a Component of the registry (components.js is
    missing), with the attributes the specification gives it and the
    engine reads: class, absolute target, content, and the name assigned
    by the naming pass. *)
Record Component : Type := mkComponent {
  ctype : string;
  curl : string;
  content : Node;
  cname : option string
}.

(** Modelled from the spec: the ComponentManager (components.js is
    missing): its components in registration order, and the
    ComponentNameResolver it was built with (none on the first pass), given
    by the list of components the resolver was built from. *)
Record Manager : Type := mkManager {
  components : list Component;
  nameResolver : option (list Component)
}.

(** The mutable state of a run: [this.manager] of the Merger, the
    module-level [cache] of http.js, and what was logged (latest entry
    first). *)
Record State : Type := mkState {
  manager : Manager;
  cache : Props;
  logged : list LogEntry
}.

Inductive Res (A : Type) : Type :=
| Ok (a : A) (s : State)
| Throw (e : Exn) (s : State)
| OutOfFuel.
Arguments Ok {A} a s.
Arguments Throw {A} e s.
Arguments OutOfFuel {A}.

(** An effectful computation: [await]ed calls run one after the other, so a
    computation is a function of the state. *)
Definition M (A : Type) : Type := State -> Res A.

Definition ret {A} (a : A) : M A := fun s => Ok a s.

Definition bind {A B} (m : M A) (f : A -> M B) : M B :=
  fun s => match m s with
           | Ok a s' => f a s'
           | Throw e s' => Throw e s'
           | OutOfFuel => OutOfFuel
           end.

Definition throw {A} (e : Exn) : M A := fun s => Throw e s.

Definition outOfFuel {A} : M A := fun _ => OutOfFuel.

Declare Scope m_scope.
Delimit Scope m_scope with M.
Notation "x <- m ;; k" := (bind m (fun x => k))
  (at level 61, m at next level, right associativity) : m_scope.
Notation "m ;;; k" := (bind m (fun _ => k))
  (at level 61, right associativity) : m_scope.
Local Open Scope m_scope.

Definition getState : M State := fun s => Ok s s.

Definition logMsg (lv : Level) (msg : string) : M unit :=
  fun s => Ok tt (mkState (manager s) (cache s) ((lv, msg) :: logged s)).

Definition getManager : M Manager := fun s => Ok (manager s) s.

Definition setManager (m : Manager) : M unit :=
  fun s => Ok tt (mkState m (cache s) (logged s)).

Definition getCache : M Props := fun s => Ok (cache s) s.

Definition setCache (c : Props) : M unit :=
  fun s => Ok tt (mkState (manager s) c (logged s)).

(** A helper that throws on some arguments. *)
Definition orThrow {A} (o : option A) (e : Exn) : M A :=
  match o with Some a => ret a | None => throw e end.

(** [s.endsWith(suffix)], also what [s.match(/suffix$/)] tests for a
    literal suffix. *)
Definition endsWith (s suffix : string) : bool :=
  let n := String.length s in
  let k := String.length suffix in
  (Nat.leb k n && String.eqb (substring (n - k) k s) suffix)%bool.

(* ===================================================================== *)
(** ** http.js *)
(* ===================================================================== *)

(** What [fetch(url)] gives: it rejects, or resolves to a response, whose
    [text()] may reject in turn. *)
Record Response : Type := mkResponse {
  ok : bool;
  status : N;
  text : option string
}.

Inductive FetchResult : Type :=
| FetchRejects
| FetchResponse (r : Response).

Section Http.

(** The network, and the two parsers ([None]: the parser throws). *)
Variable fetch : string -> FetchResult.
Variable loadYAML : string -> option Node.
Variable parseJSON : string -> option Node.

(** lodash [cloneDeep]: on values, a copy is the value. *)
Definition cloneDeep (n : Node) : Node := n.

Definition cacheGet (c : Props) (url : string) : Node := get_prop (Obj c) url.

(** [download(url)]. *)
Definition download (url : string) : M Node :=
  c <- getCache ;;
  if truthy (cacheGet c url) then ret (cloneDeep (cacheGet c url))
  else
    logMsg LWarn ("fetching: " ++ url) ;;;
    match fetch url with
    | FetchRejects =>
        logMsg LError ("Failed to fetch: " ++ url) ;;;
        ret emptyObj
    | FetchResponse res =>
        if negb (ok res) then
          logMsg LError (string_of_N (status res) ++ " returned: " ++ url) ;;;
          ret emptyObj
        else
          body <- orThrow (text res) (BodyError url) ;;
          doc <- (if (endsWith url ".yml" || endsWith url ".yaml")%bool then
                    orThrow (loadYAML body) (ParseError url)
                  else if endsWith url ".json" then
                    orThrow (parseJSON body) (ParseError url)
                  else
                    logMsg LWarn ("Cannot determine the file type: " ++ url) ;;;
                    orThrow (loadYAML body) (ParseError url)) ;;
          c' <- getCache ;;
          setCache (props_set url doc c') ;;;
          ret (cloneDeep doc)
    end.

End Http.

(* ===================================================================== *)
(** ** The component registry *)
(* ===================================================================== *)

(** Modelled from the spec: how the content of a new Component is
    obtained (components.js is missing).  The specification says both that
    a Component is registered with its content unset, and that the
    fetch/load collaborator returns the content of a target; the engine
    reads [cmp.content] right after [getOrCreate].  Both readings are
    kept. *)
Inductive ContentPolicy : Type := ContentUnset | ContentLoaded.

(** What [parseUrl] (util) returns, with the fields the engine reads. *)
Record ParsedUrl : Type := mkParsedUrl {
  isHttp : bool;
  isLocal : bool;
  href : string;
  hrefWoHash : string;
  hash : string;
  path : string
}.

Definition sameKey (type url : string) (c : Component) : bool :=
  (String.eqb (ctype c) type && String.eqb (curl c) url)%bool.

(** Modelled from the spec: [exists(key)] of the Component Registry
    (components.js is missing), true if a Component for this target was
    already created in the current pass.  The engine passes the target
    alone. *)
Definition mgr_exists (m : Manager) (url : string) : bool :=
  existsb (fun c => String.eqb (curl c) url) (components m).

(** Modelled from the spec: [get(key)] of the Component Registry
    (components.js is missing), the Component registered for this
    target. *)
Definition mgr_get (m : Manager) (url : string) : option Component :=
  find (fun c => String.eqb (curl c) url) (components m).

(** Modelled from the spec: the look-up [getOrCreate] starts with
    (components.js is missing): the registry is keyed by (class, absolute
    target). *)
Definition mgr_find (m : Manager) (type url : string) : option Component :=
  find (sameKey type url) (components m).

(** Modelled from the spec: the canonical local pointer of a Component,
    [getLocalRef] (components.js is missing): the class and the name under
    the shared components section; the name is present only on the second
    pass. *)
Definition getLocalRef (c : Component) : string :=
  "#/components/" ++ ctype c ++ "/" ++
  match cname c with Some n => n | None => "" end.

(** [cmp.content = v] of merger.js, for the Component registered under a
    key. *)
Definition setContentIn (type url : string) (v : Node) (l : list Component)
  : list Component :=
  map (fun c => if sameKey type url c
                then mkComponent (ctype c) (curl c) v (cname c) else c) l.

Definition mgr_setContent (m : Manager) (type url : string) (v : Node) : Manager :=
  mkManager (setContentIn type url v (components m)) (nameResolver m).

(** Modelled from the spec: [buildOutputSection] / [getComponentsSection]
    (components.js is missing): a mapping of class to (name to content), in
    registration order. *)
Definition getComponentsSection (m : Manager) : Node :=
  fold_left
    (fun sec c =>
       let name := match cname c with Some n => n | None => "" end in
       set_prop sec (ctype c)
         (set_prop (objectBase (get_prop sec (ctype c))) name (content c)))
    (components m) emptyObj.

(** Modelled from the spec: [new ComponentManager(nameResolver)]
    (components.js is missing), a registry without Components. *)
Definition newManager (r : option (list Component)) : Manager :=
  mkManager [] r.

(* ===================================================================== *)
(** ** merger.js: directive detection *)
(* ===================================================================== *)

(** The class [\w] of a regular expression. *)
Definition isWordChar (c : ascii) : bool :=
  let n := nat_of_ascii c in
  ((Nat.leb 48 n && Nat.leb n 57) || (Nat.leb 65 n && Nat.leb n 90)
   || (Nat.leb 97 n && Nat.leb n 122) || Nat.eqb n 95)%bool.

(** The longest prefix of word characters, and the rest. *)
Fixpoint spanWord (s : string) : string * string :=
  match s with
  | EmptyString => (EmptyString, EmptyString)
  | String c r =>
      if isWordChar c
      then let (w, rest) := spanWord r in (String c w, rest)
      else (EmptyString, s)
  end.

(** An optional group [(<mark>\w+?)?] at the head of [s]: the text it
    captures, if it takes part in the match, and what follows it. *)
Definition optGroup (mark : ascii) (s : string) : option (option string * string) :=
  match s with
  | String c r =>
      if Ascii.eqb c mark then
        match spanWord r with
        | (EmptyString, _) => None
        | (w, rest) => Some (Some (String c w), rest)
        end
      else Some (None, s)
  | EmptyString => Some (None, s)
  end.

(** [key.match(Merger.INCLUDE_PATTERN)] with
    [INCLUDE_PATTERN = /^\$include(#\w+?)?(\.\w+?)?$/]: the two groups of a
    match. *)
Definition matchInclude (key : string) : option (option string * option string) :=
  if prefix "$include" key then
    let rest := substring 8 (String.length key - 8) key in
    match optGroup "#"%char rest with
    | Some (g1, rest1) =>
        match optGroup "."%char rest1 with
        | Some (g2, EmptyString) => Some (g1, g2)
        | _ => None
        end
    | None => None
    end
  else None.

(** [isInclude(key)], as a truth value. *)
Definition isInclude (key : string) : bool :=
  match matchInclude key with Some _ => true | None => false end.

(** [isRef(key, jsonPath)]. *)
Definition isRef (key jsonPath : string) : bool :=
  (String.eqb key "$ref" || endsWith jsonPath "discriminator.mapping")%bool.

(** [getIncludeClass(key)]: [null] is [None]. *)
Definition getIncludeClass (key : string) : option string :=
  match matchInclude key with
  | Some (_, Some pattern) =>
      if String.eqb pattern "" then None
      else Some (substring 1 (String.length pattern - 1) pattern)
  | _ => None
  end.







(* ===================================================================== *)
(** ** merger.js: the engine *)
(* ===================================================================== *)

(** What the engine is given: the network, the file system and the
    parsers; Node's [path] and [url] modules ([resolve(process.cwd(), p)],
    [dirname], [relative], [posix.join], [posix.dirname], [basename(p, ext)],
    [extname], [url.resolve]); the helpers of util.js and ref.js, which are
    not among the sources ([None] is a helper that throws); from
    components.js, how a new Component gets its content and the names a
    ComponentNameResolver built from the first pass's components assigns to
    a (class, target); and [this.config] of the Merger. *)
Record Env : Type := mkEnv {
  env_fetch : string -> FetchResult;
  env_loadYAML : string -> option Node;
  env_parseJSON : string -> option Node;
  env_readFileSync : string -> option string;
  env_globSync : string -> list string;
  env_resolveCwd : string -> string;
  env_dirname : string -> string;
  env_relative : string -> string -> string;
  env_posixJoin : string -> string -> string;
  env_posixDirname : string -> string;
  env_basename : string -> string -> string;
  env_extname : string -> string;
  env_urlResolve : string -> string -> string;
  env_parseUrl : Node -> option ParsedUrl;
  env_sliceObject : Node -> string -> option Node;
  env_mergeOrOverwrite : Node -> Node -> Node;
  env_filterObject : Node -> Node -> Node;
  env_appendObjectKeys : Node -> Node -> Node;
  env_prependObjectKeys : Node -> Node -> Node;
  env_getRefType : string -> string;
  env_shouldInclude : string -> bool;
  env_policy : ContentPolicy;
  env_assignName : list Component -> string -> string -> string;
  env_config : Node
}.

Section Engine.

Variable E : Env.

Local Abbreviation fetch := (env_fetch E).
Local Abbreviation loadYAML := (env_loadYAML E).
Local Abbreviation parseJSON := (env_parseJSON E).
Local Abbreviation readFileSync := (env_readFileSync E).
Local Abbreviation globSync := (env_globSync E).
Local Abbreviation resolveCwd := (env_resolveCwd E).
Local Abbreviation dirname := (env_dirname E).
Local Abbreviation relative := (env_relative E).
Local Abbreviation posixJoin := (env_posixJoin E).
Local Abbreviation posixDirname := (env_posixDirname E).
Local Abbreviation basename := (env_basename E).
Local Abbreviation extname := (env_extname E).
Local Abbreviation urlResolve := (env_urlResolve E).
Local Abbreviation parseUrl := (env_parseUrl E).
Local Abbreviation sliceObject := (env_sliceObject E).
Local Abbreviation mergeOrOverwrite := (env_mergeOrOverwrite E).
Local Abbreviation filterObject := (env_filterObject E).
Local Abbreviation appendObjectKeys := (env_appendObjectKeys E).
Local Abbreviation prependObjectKeys := (env_prependObjectKeys E).
Local Abbreviation getRefType := (env_getRefType E).
Local Abbreviation shouldInclude := (env_shouldInclude E).
Local Abbreviation policy := (env_policy E).
Local Abbreviation assignName := (env_assignName E).
Local Abbreviation config := (env_config E).

(** [download] of http.js, on the network of the environment. *)
Definition fetchDoc : string -> M Node := download fetch loadYAML parseJSON.

(** [readYAML(filePath)] of yaml.js. *)
Definition readYAML (filePath : string) : M Node :=
  str <- orThrow (readFileSync filePath) (FsError filePath) ;;
  orThrow (loadYAML str) (ParseError filePath).

Definition parseUrlM (v : Node) : M ParsedUrl :=
  orThrow (parseUrl v) (TypeError "parseUrl").

Definition sliceObjectM (c : Node) (h : string) : M Node :=
  orThrow (sliceObject c h) (TypeError "sliceObject").

(** A path function applied to the value of a directive: it throws
    unless the value is a string. *)
Definition asPath (val : Node) : M string :=
  match val with
  | Str v => ret v
  | _ => throw (TypeError "path")
  end.

(** [o.k] where [o] may be [undefined] or [null]. *)
Definition readField (o : Node) (k : string) : M Node :=
  match o with
  | Undef | Null => throw (TypeError k)
  | _ => ret (get_prop o k)
  end.

(** Modelled from the spec: the content a new Component starts with
    (components.js is missing). *)
Definition initialContent (url : string) : M Node :=
  match policy with
  | ContentUnset => ret Undef
  | ContentLoaded =>
      p <- parseUrlM (Str url) ;;
      raw <- (if isHttp p then fetchDoc (hrefWoHash p)
              else readYAML (hrefWoHash p)) ;;
      sliceObjectM raw (hash p)
  end.

(** Modelled from the spec: [getOrCreate(class, key)] of the Component
    Registry (components.js is missing): returns the existing Component
    or creates and registers a new one. *)
Definition getOrCreate (type url : string) : M Component :=
  m <- getManager ;;
  match mgr_find m type url with
  | Some c => ret c
  | None =>
      c0 <- initialContent url ;;
      let c := mkComponent type url c0
                 (option_map (fun snapshot => assignName snapshot type url)
                         (nameResolver m)) in
      setManager (mkManager (components m ++ [c]) (nameResolver m)) ;;;
      ret c
  end.

(** [this.manager.exists(val)] on the value of a directive. *)
Definition existsVal (m : Manager) (val : Node) : bool :=
  match val with Str v => mgr_exists m v | _ => false end.

(** [this.manager.get(val)], as a truth value. *)
Definition getVal (m : Manager) (val : Node) : bool :=
  match val with
  | Str v => match mgr_get m v with Some _ => true | None => false end
  | _ => false
  end.

(** [processInclude(key, obj, config)]. *)
Definition processInclude (key : string) (obj : Node) : M Node :=
  match getIncludeClass key with
  | None => ret obj
  | Some clazz =>
      inc <- readField config "include" ;;
      clazzConfig <- readField inc clazz ;;
      if negb (truthy clazzConfig) then
        logMsg LWarn ("$include classname '" ++ clazz
                      ++ " specified, but no configuration found.") ;;;
        ret obj
      else
        let obj1 := filterObject obj (get_prop clazzConfig "filter") in
        let obj2 := appendObjectKeys obj1 (get_prop clazzConfig "prefix") in
        let obj3 := prependObjectKeys obj2 (get_prop clazzConfig "suffix") in
        ret obj3
  end.

(** [a.concat(b)] for two arrays: a new array of the class of [a] with the
    elements of both. *)
Definition concat (a b : Node) : Node :=
  match a, b with
  | Arr inc es _, Arr _ es' _ => Arr inc (es ++ es') []
  | _, _ => a
  end.

(** [IncludedArray.from(a)]. *)
Definition includedArrayFrom (a : Node) : Node :=
  match a with
  | Arr _ es _ => Arr true es []
  | _ => Arr true [] []
  end.

(** [s.includes("*")]. *)
Fixpoint includesStar (s : string) : bool :=
  match s with
  | EmptyString => false
  | String c r => (Ascii.eqb c "*" || includesStar r)%bool
  end.

(** The target of a directive that is neither a URL nor local to the
    document, resolved against the file that holds it. *)
Definition remoteTarget (pFile : ParsedUrl) (val : Node) : M string :=
  v <- asPath val ;;
  if isHttp pFile
  then ret (urlResolve (dirname (hrefWoHash pFile) ++ "/") v)
  else ret (posixJoin (posixDirname (hrefWoHash pFile)) v).

Section Bodies.

(** [this.baseDir], set by [merge]. *)
Variable baseDir : string.

(** The calls back into the engine. *)
Variable mergeRefsRec : Node -> string -> string -> M Node.
Variable handleIncludeRec : Node -> string -> Node -> string -> string -> M (Node * Node).

(** The end of [handleInclude]: what becomes of [obj] when the content
    has been resolved to [merged].  The first component is [obj] as the
    caller's reference sees it afterwards, the second is the value
    returned. *)
Definition includeInto (obj : Node) (key : string) (val : Node)
           (jsonPath : string) (merged : Node) : M (Node * Node) :=
  if isArray merged then
    if isArray obj then
      ret (obj, concat obj merged)
    else if Nat.eqb (List.length (keys obj)) 1 then
      ret (obj, includedArrayFrom merged)
    else
      throw (MergeError
               ("cannot merge array content object. $include: "
                ++ (match val with Str v => v | _ => "" end)
                ++ " at jsonPath=" ++ jsonPath))
  else
    processed <- processInclude key merged ;;
    let obj' := delete_prop (lodash_merge obj processed) key in
    ret (obj', obj').

(** The files of a glob pattern, one include each, keyed by base
    name. *)
Fixpoint includeFiles (key file jsonPath : string) (mfs : list string)
         (content : Node) : M Node :=
  match mfs with
  | [] => ret content
  | mf :: rest =>
      let bn := basename mf (extname mf) in
      r <- handleIncludeRec (Obj [(key, Str mf)]) key (Str mf) file
             (jsonPath ++ "." ++ bn) ;;
      includeFiles key file jsonPath rest (set_prop content bn (snd r))
  end.

(** The first half of [handleInclude], after the two [parseUrl]:
    the content the directive names and the file it comes from, or
    [None] where the method returns [obj] at once. *)
Definition includeContent (pRef pFile : ParsedUrl) (key : string) (val : Node)
           (file jsonPath : string) : M (option (Node * string)) :=
  if isHttp pRef then
    content <- fetchDoc (hrefWoHash pRef) ;;
    ret (Some (content, hrefWoHash pRef))
  else if isLocal pRef then
    m <- getManager ;;
    if getVal m val then ret None
    else
      content <- readYAML file ;;
      ret (Some (content, hrefWoHash pFile))
  else
    target <- remoteTarget pFile val ;;
    parsedTarget <- parseUrlM (Str target) ;;
    content <- (if isHttp parsedTarget then fetchDoc (hrefWoHash parsedTarget)
                else if includesStar (hrefWoHash parsedTarget) then
                  let matchedFiles :=
                    map (fun p => relative (dirname (hrefWoHash pFile)) p)
                        (globSync (hrefWoHash parsedTarget)) in
                  includeFiles key file jsonPath matchedFiles emptyObj
                else readYAML (hrefWoHash parsedTarget)) ;;
    ret (Some (content, hrefWoHash parsedTarget)).

(** [handleInclude(obj, key, val, file, jsonPath)]. *)
Definition handleIncludeBody (obj0 : Node) (key : string) (val : Node)
           (file jsonPath : string) : M (Node * Node) :=
  logMsg LDebug ("include: " ++ jsonPath ++ " file=" ++ relative baseDir file) ;;;
  let obj := set_prop obj0 key (mergeOrOverwrite (get_prop obj0 key) val) in
  pRef <- parseUrlM val ;;
  pFile <- parseUrlM (Str file) ;;
  cn <- includeContent pRef pFile key val file jsonPath ;;
  match cn with
  | None => ret (obj, obj)
  | Some (content, nextFile) =>
      sliced <- sliceObjectM content (hash pRef) ;;
      merged <- mergeRefsRec sliced nextFile jsonPath ;;
      includeInto obj key val jsonPath merged
  end.

(** [cmp.content = v], for the Component [cmp] of the manager. *)
Definition setContent (cmp : Component) (v : Node) : M unit :=
  m <- getManager ;;
  setManager (mgr_setContent m (ctype cmp) (curl cmp) v).

(** The part of [handleRef] after the Component has been obtained:
    the directive is rewritten, and the content of a Component that
    did not exist is resolved and stored. *)
Definition rewriteRef (obj : Node) (key : string) (jsonPath : string)
           (cmpExists : bool) (cmp : Component) (nextFile : string) : M Node :=
  let obj' := set_prop obj key (Str (getLocalRef cmp)) in
  if negb cmpExists then
    c <- mergeRefsRec (content cmp) nextFile (jsonPath ++ "." ++ key) ;;
    setContent cmp c ;;;
    ret obj'
  else ret obj'.

(** The target of a reference directive, as the three branches of
    [handleRef] compute it, with the file its content is resolved in:
    [pRef.href] for a URL; the current file and the pointer for a
    reference local to the document, unless a Component is registered
    under the value of the directive itself ([None]: the method returns);
    the resolved path or URL otherwise. *)
Definition refTarget (pRef pFile : ParsedUrl) (val : Node)
  : M (option (string * string)) :=
  if isHttp pRef then
    ret (Some (href pRef, hrefWoHash pRef))
  else if isLocal pRef then
    m <- getManager ;;
    if existsVal m val then ret None
    else
      let target := (hrefWoHash pFile
                     ++ (if String.eqb (hash pRef) "#/" then "" else hash pRef))%string in
      ret (Some (target, hrefWoHash pFile))
  else
    target <- remoteTarget pFile val ;;
    parsedTarget <- parseUrlM (Str target) ;;
    ret (Some (target, hrefWoHash parsedTarget)).

(** [handleRef(obj, key, val, file, jsonPath)]: the result is [obj] as
    the caller's reference sees it afterwards.  Each branch of the source
    asks [exists] for its target, then [getOrCreate]; the three are
    written once here, after [refTarget]. *)
Definition handleRefBody (obj0 : Node) (key : string) (val : Node)
           (file jsonPath : string) : M Node :=
  logMsg LDebug ("ref    : " ++ jsonPath ++ " file=" ++ relative baseDir file) ;;;
  let obj := set_prop obj0 key (mergeOrOverwrite (get_prop obj0 key) val) in
  pRef <- parseUrlM val ;;
  pFile <- parseUrlM (Str file) ;;
  let refType := getRefType jsonPath in
  if shouldInclude refType then
    r <- handleIncludeRec obj key val file jsonPath ;;
    ret (fst r)
  else
    t <- refTarget pRef pFile val ;;
    match t with
    | None => ret obj
    | Some (target, nextFile) =>
        m <- getManager ;;
        let cmpExists := mgr_exists m target in
        cmp <- getOrCreate refType target ;;
        rewriteRef obj key jsonPath cmpExists cmp nextFile
    end.

Variable handleRefRec : Node -> string -> Node -> string -> string -> M Node.

(** One turn of the loop of [mergeRefs] over [Object.entries(obj)]. *)
Definition mergeEntry (file jsonPath : string) (ret0 : Node)
           (kv : string * Node) : M Node :=
  let (key, val) := kv in
  if isRef key jsonPath then
    handleRefRec ret0 key val file jsonPath
  else if isInclude key then
    r <- handleIncludeRec ret0 key val file jsonPath ;;
    ret (snd r)
  else
    merged <- mergeRefsRec val file (jsonPath ++ "." ++ key) ;;
    if (isIncludedArray merged && isArray ret0)%bool then
      ret (mergeOrOverwrite ret0 merged)
    else
      ret (set_prop ret0 key (mergeOrOverwrite (get_prop ret0 key) merged)).

Fixpoint mergeEntries (file jsonPath : string) (es : Props) (ret0 : Node)
  : M Node :=
  match es with
  | [] => ret ret0
  | kv :: rest =>
      r <- mergeEntry file jsonPath ret0 kv ;;
      mergeEntries file jsonPath rest r
  end.

(** [mergeRefs(obj, file, jsonPath)]. *)
Definition mergeRefsBody (obj : Node) (file jsonPath : string) : M Node :=
  if negb (isObject obj) then ret obj
  else mergeEntries file jsonPath (entries obj)
         (if isArray obj then emptyArr else emptyObj).

End Bodies.

(** The three methods call one another; [fuel] bounds the depth of the
    calls. *)
Fixpoint mergeRefs (fuel : nat) (baseDir : string) (obj : Node)
         (file jsonPath : string) {struct fuel} : M Node :=
  match fuel with
  | O => outOfFuel
  | S n =>
      mergeRefsBody (mergeRefs n baseDir) (handleInclude n baseDir)
        (handleRef n baseDir) obj file jsonPath
  end
with handleRef (fuel : nat) (baseDir : string) (obj : Node) (key : string)
         (val : Node) (file jsonPath : string) {struct fuel} : M Node :=
  match fuel with
  | O => outOfFuel
  | S n =>
      handleRefBody baseDir (mergeRefs n baseDir) (handleInclude n baseDir)
        obj key val file jsonPath
  end
with handleInclude (fuel : nat) (baseDir : string) (obj : Node) (key : string)
         (val : Node) (file jsonPath : string) {struct fuel} : M (Node * Node) :=
  match fuel with
  | O => outOfFuel
  | S n =>
      handleIncludeBody baseDir (mergeRefs n baseDir) (handleInclude n baseDir)
        obj key val file jsonPath
  end.

(** [doc.components = v]: a document that is not an object cannot take
    the property. *)
Definition setComponents (doc : Node) (v : Node) : M Node :=
  if isObject doc then ret (set_prop doc "components" v)
  else throw (TypeError "components").

(** [merge(doc, docPath)]. *)
Definition merge (fuel : nat) (doc : Node) (docPath0 : string) : M Node :=
  let docPath1 := resolveCwd docPath0 in
  let baseDir := dirname docPath1 in
  p <- parseUrlM (Str docPath1) ;;
  let docPath := path p in
  setManager (newManager None) ;;;
  mergeRefs fuel baseDir doc docPath "$" ;;;
  m1 <- getManager ;;
  let nameResolver := components m1 in
  setManager (newManager (Some nameResolver)) ;;;
  doc' <- mergeRefs fuel baseDir doc docPath "$" ;;
  m2 <- getManager ;;
  setComponents doc'
    (lodash_merge (get_prop doc' "components") (getComponentsSection m2)).

End Engine.

(* ===================================================================== *)
(** ** A concrete environment *)
(* ===================================================================== *)

(** Simple stand-ins for the collaborators, to run the engine on concrete
    documents.  The text of a file or of a response body is a token that
    the parser maps to the tree it stands for. *)
Module Sample.

Fixpoint splitAt (c : ascii) (s : string) : string * string :=
  match s with
  | EmptyString => (EmptyString, EmptyString)
  | String a r =>
      if Ascii.eqb a c then (EmptyString, s)
      else let (x, y) := splitAt c r in (String a x, y)
  end.

(** The text before the last [c] and the text after it, if [c] occurs. *)
Fixpoint splitLast (c : ascii) (s : string) : option (string * string) :=
  match s with
  | EmptyString => None
  | String a r =>
      match splitLast c r with
      | Some (x, y) => Some (String a x, y)
      | None => if Ascii.eqb a c then Some (EmptyString, r) else None
      end
  end.

Definition parseUrl (v : Node) : option ParsedUrl :=
  match v with
  | Str s =>
      let (before, h) := splitAt "#" s in
      Some (mkParsedUrl (prefix "http" s) (prefix "#" s) s before h before)
  | _ => None
  end.

Definition dirname (p : string) : string :=
  match splitLast "/" p with Some (d, _) => d | None => "." end.

Definition lastSegment (p : string) : string :=
  match splitLast "/" p with Some (_, b) => b | None => p end.

Definition stripDotSlash (v : string) : string :=
  if prefix "./" v then substring 2 (String.length v - 2) v else v.

Definition posixJoin (d v : string) : string := (d ++ "/" ++ stripDotSlash v)%string.

Definition urlResolve (base v : string) : string := (base ++ stripDotSlash v)%string.

Definition relative (from p : string) : string :=
  if prefix (from ++ "/") p
  then substring (String.length from + 1) (String.length p - String.length from - 1) p
  else p.

Definition extname (p : string) : string :=
  match splitLast "." (lastSegment p) with
  | Some (_, e) => String "." e
  | None => EmptyString
  end.

Definition basename (p ext : string) : string :=
  let b := lastSegment p in
  if (negb (String.eqb ext "") && endsWith b ext)%bool
  then substring 0 (String.length b - String.length ext) b else b.

(** The segments of a pointer [/a/b]. *)
Fixpoint segments (fuel : nat) (s : string) : list string :=
  match fuel with
  | O => []
  | S n =>
      match s with
      | EmptyString => []
      | String _ r => let (seg, rest) := splitAt "/" r in seg :: segments n rest
      end
  end.

Definition sliceObject (c : Node) (h : string) : option Node :=
  if (String.eqb h "" || String.eqb h "#" || String.eqb h "#/")%bool then Some c
  else Some (fold_left get_prop
               (segments (String.length h) (substring 1 (String.length h - 1) h)) c).

Definition mergeOrOverwrite (a b : Node) : Node :=
  if (isArray a && isArray b)%bool then concat a b
  else if (isObject a && isObject b)%bool then mergedValue a b
  else b.

Definition renameKeys (f : string -> string) (o : Node) : Node :=
  match o with
  | Obj ps => Obj (map (fun kv => (f (fst kv), snd kv)) ps)
  | _ => o
  end.

Definition filterObject (o f : Node) : Node :=
  match o, f with
  | Obj ps, Str pat => Obj (filter (fun kv => prefix pat (fst kv)) ps)
  | _, _ => o
  end.

Definition appendObjectKeys (o p : Node) : Node :=
  match p with
  | Str x => renameKeys (fun k => (x ++ k)%string) o
  | _ => o
  end.

Definition prependObjectKeys (o p : Node) : Node :=
  match p with
  | Str x => renameKeys (fun k => (k ++ x)%string) o
  | _ => o
  end.

Fixpoint positionOf (type url : string) (i : N) (l : list Component) : N :=
  match l with
  | [] => i
  | c :: r => if sameKey type url c then i else positionOf type url (N.succ i) r
  end.

Definition assignName (snapshot : list Component) (type url : string) : string :=
  ("c" ++ string_of_N (positionOf type url 0 snapshot))%string.

Definition assoc {A} (k : string) (l : list (string * A)) : option A :=
  match find (fun kv => String.eqb (fst kv) k) l with
  | Some kv => Some (snd kv)
  | None => None
  end.

(** An environment made of the files [files] and the resources [net] (each
    a path or a URL with the tree its text parses to), the expansions
    [globs] of the patterns, and the configuration [cfg]. *)
Definition env (files net : list (string * Node))
           (globs : list (string * list string)) (cfg : Node) : Env :=
  mkEnv
    (fun url => match assoc url net with
                | Some _ => FetchResponse (mkResponse true 200 (Some url))
                | None => FetchResponse (mkResponse false 404 None)
                end)
    (fun text => match assoc text files with
                 | Some d => Some d
                 | None => assoc text net
                 end)
    (fun text => assoc text net)
    (fun p => match assoc p files with Some _ => Some p | None => None end)
    (fun pat => match assoc pat globs with Some l => l | None => [] end)
    (fun p => p) dirname relative posixJoin dirname basename extname urlResolve
    parseUrl sliceObject mergeOrOverwrite filterObject appendObjectKeys
    prependObjectKeys
    (fun _ => "schemas") (fun _ => false)
    ContentLoaded assignName cfg.

Definition state0 : State := mkState (newManager None) [] [].

(** The end-to-end example of the specification: a root document that
    refers to [./ops.yaml#/get]. *)
Definition rootDoc : Node :=
  Obj [("paths", Obj [("/x", Obj [("$ref", Str "./ops.yaml#/get")])])].

Definition opsDoc : Node := Obj [("get", Obj [("summary", Str "s")])].

Definition env1 : Env :=
  env [("/w/root.yaml", rootDoc); ("/w/ops.yaml", opsDoc)] [] [] emptyObj.

(** An include that resolves to a sequence. *)
Definition tagsDoc : Node := Arr false [Str "a"; Str "b"] [].

Definition envTags : Env :=
  env [("/w/root.yaml", Obj [("tags", Obj [("$include", Str "./tags.yaml")])]);
       ("/w/tags.yaml", tagsDoc)] [] [] emptyObj.

(** An include that brings a key its destination already has. *)
Definition siblingDoc : Node :=
  Obj [("a", Num 1); ("$include", Str "./x.yaml")].

Definition envSibling : Env :=
  env [("/w/root.yaml", siblingDoc); ("/w/x.yaml", Obj [("a", Num 2); ("b", Num 3)])]
      [] [] emptyObj.

(** A file that includes itself. *)
Definition loopDoc : Node := Obj [("$include", Str "./a.yaml")].

Definition envLoop : Env := env [("/w/a.yaml", loopDoc)] [] [] emptyObj.

(** A schema that refers to itself. *)
Definition cycleRoot : Node := Obj [("a", Obj [("$ref", Str "./s.yaml#/Node")])].

Definition cycleDoc : Node :=
  Obj [("Node", Obj [("next", Obj [("$ref", Str "#/Node")])])].

Definition envCycle : Env :=
  env [("/w/root.yaml", cycleRoot); ("/w/s.yaml", cycleDoc)] [] [] emptyObj.

(** A document that includes a resource of the network, and two states of
    the network. *)
Definition netRoot : Node := Obj [("info", Obj [("$include", Str "http://h/info.yaml")])].

Definition envOld : Env :=
  env [("/w/root.yaml", netRoot)]
      [("http://h/info.yaml", Obj [("title", Str "old")])] [] emptyObj.

Definition envNew : Env :=
  env [("/w/root.yaml", netRoot)]
      [("http://h/info.yaml", Obj [("title", Str "new")])] [] emptyObj.

(** The same document when the resource cannot be fetched. *)
Definition envDown : Env := env [("/w/root.yaml", netRoot)] [] [] emptyObj.

(** An include of a glob pattern. *)
Definition globRoot : Node := Obj [("schemas", Obj [("$include", Str "./s/*.yaml")])].

Definition envGlob : Env :=
  env [("/w/root.yaml", globRoot);
       ("/w/s/a.yaml", Obj [("type", Str "string")]);
       ("/w/s/b.yaml", Obj [("type", Str "number")])]
      []
      [("/w/s/*.yaml", ["/w/s/a.yaml"; "/w/s/b.yaml"])]
      emptyObj.

End Sample.

(* ===================================================================== *)
(** ** http.js again, with the objects in a heap *)
(* ===================================================================== *)

(** [download] hands out [cloneDeep(doc)], not [doc].  On values a copy
    and its original are the same; to tell them apart, documents are here
    laid out in a heap of cells, an object or an array being a reference to
    a cell, and [download] is written a second time over that heap. *)
Module Heap.

Definition loc : Type := nat.

(** A value: a primitive, or a reference to an object or an array. *)
Inductive HVal : Type :=
| HPrim (p : Node)
| HRef (l : loc).

Inductive Cell : Type :=
| CArr (included : bool) (elems : list HVal) (aprops : list (string * HVal))
| CObj (props : list (string * HVal)).

Definition heap : Type := list Cell.

(** Builds a tree in the heap, each object and array in a cell of its own,
    as a parser that returns a fresh document does. *)
Fixpoint store (n : Node) (h : heap) {struct n} : heap * HVal :=
  let storeProps :=
    fix storeProps (l : Props) (h : heap) {struct l} : heap * list (string * HVal) :=
      match l with
      | [] => (h, [])
      | (k, x) :: r =>
          let (h1, v) := store x h in
          let (h2, vs) := storeProps r h1 in
          (h2, (k, v) :: vs)
      end in
  match n with
  | Arr inc es ps =>
      let storeElems :=
        fix storeElems (l : list Node) (h : heap) {struct l} : heap * list HVal :=
          match l with
          | [] => (h, [])
          | x :: r =>
              let (h1, v) := store x h in
              let (h2, vs) := storeElems r h1 in
              (h2, v :: vs)
          end in
      let (h1, es') := storeElems es h in
      let (h2, ps') := storeProps ps h1 in
      (h2 ++ [CArr inc es' ps'], HRef (List.length h2))
  | Obj ps =>
      let (h1, ps') := storeProps ps h in
      (h1 ++ [CObj ps'], HRef (List.length h1))
  | p => (h, HPrim p)
  end.

(** [store] on the elements of an array and on the properties of an
    object, one after the other. *)
Fixpoint storeElems (l : list Node) (h : heap) {struct l} : heap * list HVal :=
  match l with
  | [] => (h, [])
  | x :: r =>
      let (h1, v) := store x h in
      let (h2, vs) := storeElems r h1 in
      (h2, v :: vs)
  end.

Fixpoint storeProps (l : Props) (h : heap) {struct l} : heap * list (string * HVal) :=
  match l with
  | [] => (h, [])
  | (k, x) :: r =>
      let (h1, v) := store x h in
      let (h2, vs) := storeProps r h1 in
      (h2, (k, v) :: vs)
  end.

Fixpoint mapM {A B} (f : A -> option B) (l : list A) : option (list B) :=
  match l with
  | [] => Some []
  | x :: r =>
      match f x, mapM f r with
      | Some y, Some ys => Some (y :: ys)
      | _, _ => None
      end
  end.

Definition onSnd {A B} (f : A -> option B) (kv : string * A) : option (string * B) :=
  match f (snd kv) with Some y => Some (fst kv, y) | None => None end.

(** Reads the tree a value stands for; [fuel] bounds the depth. *)
Fixpoint load (fuel : nat) (h : heap) (v : HVal) {struct fuel} : option Node :=
  match v with
  | HPrim p => Some p
  | HRef l =>
      match fuel with
      | O => None
      | S n =>
          match nth_error h l with
          | Some (CObj ps) =>
              match mapM (onSnd (load n h)) ps with
              | Some ps' => Some (Obj ps')
              | None => None
              end
          | Some (CArr inc es ps) =>
              match mapM (load n h) es, mapM (onSnd (load n h)) ps with
              | Some es', Some ps' => Some (Arr inc es' ps')
              | _, _ => None
              end
          | None => None
          end
      end
  end.

(** The document a value stands for in a heap. *)
Definition read (h : heap) (v : HVal) : option Node := load (List.length h) h v.

(** lodash [cloneDeep]: a copy in fresh cells. *)
Definition cloneDeep (h : heap) (v : HVal) : heap * HVal :=
  match read h v with
  | Some n => store n h
  | None => (h, v)
  end.

(** The state: the heap, the module-level [cache], whose entries are
    values of the heap, and the log. *)
Record HState : Type := mkHState {
  hheap : heap;
  hcache : list (string * HVal);
  hlogged : list LogEntry
}.

Inductive HRes : Type :=
| HOk (v : HVal) (s : HState)
| HThrow (e : Exn) (s : HState).

Definition truthyH (v : HVal) : bool :=
  match v with HPrim p => truthy p | HRef _ => true end.

Fixpoint hget (url : string) (c : list (string * HVal)) : HVal :=
  match c with
  | [] => HPrim Undef
  | (k, v) :: r => if String.eqb url k then v else hget url r
  end.

(** [cache[url] = doc], for a table that is only read by key. *)
Definition hset (url : string) (v : HVal) (c : list (string * HVal))
  : list (string * HVal) := (url, v) :: c.

Section Download.

Variable fetch : string -> FetchResult.
Variable loadYAML : string -> option Node.
Variable parseJSON : string -> option Node.

Definition parse (url body : string) : option Node :=
  if (endsWith url ".yml" || endsWith url ".yaml")%bool then loadYAML body
  else if endsWith url ".json" then parseJSON body
  else loadYAML body.

Definition parseLog (url : string) (lg : list LogEntry) : list LogEntry :=
  if (endsWith url ".yml" || endsWith url ".yaml" || endsWith url ".json")%bool then lg
  else (LWarn, "Cannot determine the file type: " ++ url)%string :: lg.

(** [download(url)] over the heap. *)
Definition download (url : string) (s : HState) : HRes :=
  if truthyH (hget url (hcache s)) then
    let (h', v) := cloneDeep (hheap s) (hget url (hcache s)) in
    HOk v (mkHState h' (hcache s) (hlogged s))
  else
    let lg := (LWarn, "fetching: " ++ url)%string :: hlogged s in
    match fetch url with
    | FetchRejects =>
        let (h', v) := store emptyObj (hheap s) in
        HOk v (mkHState h' (hcache s) ((LError, "Failed to fetch: " ++ url)%string :: lg))
    | FetchResponse res =>
        if negb (ok res) then
          let (h', v) := store emptyObj (hheap s) in
          HOk v (mkHState h' (hcache s)
                   ((LError, string_of_N (status res) ++ " returned: " ++ url)%string :: lg))
        else
          match text res with
          | None => HThrow (BodyError url) (mkHState (hheap s) (hcache s) lg)
          | Some body =>
              match parse url body with
              | None => HThrow (ParseError url)
                          (mkHState (hheap s) (hcache s) (parseLog url lg))
              | Some doc =>
                  let (h1, d) := store doc (hheap s) in
                  let (h2, v) := cloneDeep h1 d in
                  HOk v (mkHState h2 (hset url d (hcache s)) (parseLog url lg))
              end
          end
    end.

End Download.

(** What the caller of [download] may do to the heap with the document it
    was given, which occupies the cells from [base] on: anything to those
    cells, nothing to the cells before them. *)
Definition mutatedFrom (base : nat) (h h' : heap) : Prop :=
  forall l, l < base -> nth_error h' l = nth_error h l.

End Heap.

(* ===================================================================== *)
(** ** yaml.js and index.js: the command *)
(* ===================================================================== *)

(** What [writeYAML] does to the file system:
    [mkdirSync(dir, { recursive: true })] and
    [writeFileSync(path, text)]. *)
Inductive FsOp : Type :=
| Mkdir (dir : string)
| WriteFile (path text : string).

(** [params] of [merger]: [config] and [output] may be absent. *)
Record Params : Type := mkParams {
  input : string;
  config : option string;
  output : option string
}.

(** An optional path that is truthy: [undefined] and the empty string are
    not. *)
Definition given (o : option string) : option string :=
  match o with
  | Some s => if String.eqb s "" then None else Some s
  | None => None
  end.

(** The environment of [new Merger(config)]. *)
Definition withConfig (E : Env) (c : Node) : Env :=
  mkEnv (env_fetch E) (env_loadYAML E) (env_parseJSON E) (env_readFileSync E)
        (env_globSync E) (env_resolveCwd E) (env_dirname E) (env_relative E)
        (env_posixJoin E) (env_posixDirname E) (env_basename E) (env_extname E)
        (env_urlResolve E) (env_parseUrl E) (env_sliceObject E)
        (env_mergeOrOverwrite E) (env_filterObject E) (env_appendObjectKeys E)
        (env_prependObjectKeys E) (env_getRefType E) (env_shouldInclude E)
        (env_policy E) (env_assignName E) c.

Section Command.

Variable E : Env.

(** js-yaml's [dump(doc, { lineWidth: 1000 })] ([None]: it throws its
    YAMLException), and [existsSync], [mkdirSync] and [writeFileSync] of
    [fs] ([false]: the call throws). *)
Variable dump : Node -> option string.
Variable existsSync : string -> bool.
Variable mkdirSync : string -> bool.
Variable writeFileSync : string -> string -> bool.

(** [mkdirSync(outputDir, { recursive: true })] unless the directory
    exists. *)
Definition ensureDir (outputDir : string) : M (list FsOp) :=
  if negb (existsSync outputDir) then
    if mkdirSync outputDir then ret [Mkdir outputDir]
    else throw (FsError outputDir)
  else ret [].

(** [writeYAML(doc, filePath)] of yaml.js: the result is what was done to
    the file system, in order. *)
Definition writeYAML (doc : Node) (filePath : option string) : M (list FsOp) :=
  text <- orThrow (dump doc) (ParseError "dump") ;;
  match given filePath with
  | Some p =>
      made <- ensureDir (env_dirname E p) ;;
      if writeFileSync p text then ret (made ++ [WriteFile p text])
      else throw (FsError p)
  | None =>
      logMsg LInfo text ;;;
      ret []
  end.

(** [merger(params)] of index.js. *)
Definition merger (fuel : nat) (params : Params) : M (list FsOp) :=
  doc <- readYAML E (input params) ;;
  config <- (match given (config params) with
             | Some c => readYAML E c
             | None => ret emptyObj
             end) ;;
  doc' <- merge (withConfig E config) fuel doc (input params) ;;
  writeYAML doc' (output params).

End Command.

(* ===================================================================== *)
(** ** More concrete cases *)
(* ===================================================================== *)

Module Cases.

(** A document without directives, and the file that holds it. *)
Definition plainDoc : Node :=
  Obj [("openapi", Str "3.0.0");
       ("info", Obj [("title", Str "t")]);
       ("tags", Arr false [Str "a"; Str "b"] [])].

Definition envPlain : Env := Sample.env [("/w/plain.yaml", plainDoc)] [] [] emptyObj.

(** A resource whose body parses to [null]. *)
Definition envNull : Env := Sample.env [] [("http://h/empty.yaml", Null)] [] emptyObj.

(** The same environment, when references of every class are to be
    included. *)
Definition including (E : Env) : Env :=
  mkEnv (env_fetch E) (env_loadYAML E) (env_parseJSON E) (env_readFileSync E)
        (env_globSync E) (env_resolveCwd E) (env_dirname E) (env_relative E)
        (env_posixJoin E) (env_posixDirname E) (env_basename E) (env_extname E)
        (env_urlResolve E) (env_parseUrl E) (env_sliceObject E)
        (env_mergeOrOverwrite E) (env_filterObject E) (env_appendObjectKeys E)
        (env_prependObjectKeys E) (env_getRefType E) (fun _ => true)
        (env_policy E) (env_assignName E) (env_config E).

Definition envRefTags : Env := including Sample.envTags.

(** Two files of one base name under a glob pattern. *)
Definition envSameName : Env :=
  Sample.env [("/w/a/x.yaml", Obj [("n", Num 1)]);
              ("/w/b/x.yaml", Obj [("n", Num 2)])]
             []
             [("/w/*/x.yaml", ["/w/a/x.yaml"; "/w/b/x.yaml"])]
             emptyObj.

(** Stand-ins for [dump] and [fs]: the text of a document is a token, no
    directory exists, every call succeeds. *)
Definition dump (doc : Node) : option string :=
  if isObject doc then Some "merged" else None.

Definition existsSync (dir : string) : bool := false.

Definition mkdirSync (dir : string) : bool := true.

Definition writeFileSync (path text : string) : bool := true.

End Cases.

(* ===================================================================== *)
(** ** Notions used in the statements *)
(* ===================================================================== *)

(** A fetch that fails: [fetch] rejects, or the response is not [ok]. *)
Definition fetchFails (fetch : string -> FetchResult) (url : string) : Prop :=
  fetch url = FetchRejects \/ exists r, fetch url = FetchResponse r /\ ok r = false.

(** What a key holds after [baseMerge] has met it with the value [v] in the
    source, the destination holding [x]: the merged value, unless that is
    [undefined]. *)
Definition mergeResult (x v : Node) : Node :=
  match mergedValue x v with
  | Undef => x
  | mv => mv
  end.

(** [preserves R m]: whenever [m] returns or throws, the state it ends in
    is related by [R] to the state it started from. *)
Definition preserves (R : State -> State -> Prop) {A} (m : M A) : Prop :=
  forall s, match m s with
            | Ok _ s' => R s s'
            | Throw _ s' => R s s'
            | OutOfFuel => True
            end.

(** Every entry of the cache that [download] would serve is still there,
    unchanged. *)
Definition cacheKept (s s' : State) : Prop :=
  forall url, truthy (cacheGet (cache s) url) = true ->
              cacheGet (cache s') url = cacheGet (cache s) url.

(** The key of a Component in the registry, and what of a Component never
    changes once it is registered: its key and its name. *)
Definition ckey (c : Component) : string * string := (ctype c, curl c).

Definition cfixed (c : Component) : string * string * option string :=
  (ctype c, curl c, cname c).

(** [regGrows s s']: within a pass, the registry of [s'] is that of [s],
    contents apart, followed by the Components registered since; it has no
    two Components under one key if that of [s] has none. *)
Definition regGrows (s s' : State) : Prop :=
  nameResolver (manager s') = nameResolver (manager s) /\
  (exists extra,
      map cfixed (components (manager s'))
      = map cfixed (components (manager s)) ++ extra) /\
  (NoDup (map ckey (components (manager s))) ->
   NoDup (map ckey (components (manager s')))).

(** The manager is left alone by what only reads and fetches. *)
Definition sameManager (s s' : State) : Prop := manager s' = manager s.

(** The key a matched file is stored under: its base name without its
    extension. *)
Definition keyOfFile (E : Env) (mf : string) : string :=
  env_basename E mf (env_extname E mf).

(** The include of one matched file: [handleInclude] on a fresh object
    whose only key is the directive, with the file as its value. *)
Definition includeOne (E : Env)
           (handleIncludeRec : Node -> string -> Node -> string -> string -> M (Node * Node))
           (key file jsonPath mf : string) : M (Node * Node) :=
  handleIncludeRec (Obj [(key, Str mf)]) key (Str mf) file
    (jsonPath ++ "." ++ keyOfFile E mf)%string.

(** What [download] obtains for a URL that it does not serve from the
    cache: a document, the empty mapping of a failed fetch, or an
    exception. *)
Inductive Fetched : Type :=
| Got (doc : Node)
| Failed
| Thrown (e : Exn).

Definition parseBody (E : Env) (url body : string) : option Node :=
  if (endsWith url ".yml" || endsWith url ".yaml")%bool then env_loadYAML E body
  else if endsWith url ".json" then env_parseJSON E body
  else env_loadYAML E body.

Definition fetched (E : Env) (url : string) : Fetched :=
  match env_fetch E url with
  | FetchRejects => Failed
  | FetchResponse r =>
      if negb (ok r) then Failed
      else match text r with
           | None => Thrown (BodyError url)
           | Some body =>
               match parseBody E url body with
               | Some d => Got d
               | None => Thrown (ParseError url)
               end
           end
  end.

(** A cache is coherent with the network when every entry [download]
    would serve is the document a fetch of its URL obtains.  The empty
    cache is, and [download] keeps a cache so. *)
Definition coherent (E : Env) (c : Props) : Prop :=
  forall url, truthy (cacheGet c url) = true -> fetched E url = Got (cacheGet c url).

(** Two states that a run cannot tell apart: the same manager, and caches
    coherent with the network (the logs may differ). *)
Definition eqv (E : Env) (s t : State) : Prop :=
  manager s = manager t /\ coherent E (cache s) /\ coherent E (cache t).

(** [agree m]: from states that cannot be told apart, [m] has the same
    outcome, in states that cannot be told apart. *)
Definition agree (E : Env) {A} (m : M A) : Prop :=
  forall s t, eqv E s t ->
    match m s, m t with
    | Ok a s', Ok b t' => a = b /\ eqv E s' t'
    | Throw e s', Throw e' t' => e = e' /\ eqv E s' t'
    | OutOfFuel, OutOfFuel => True
    | _, _ => False
    end.

(** Induction on a document, its elements and properties included. *)
Fixpoint Node_ind' (P : Node -> Prop)
         (HU : P Undef) (HN : P Null) (HB : forall b, P (Bool b))
         (HZ : forall z, P (Num z)) (HS : forall s, P (Str s))
         (HA : forall inc es ps, Forall P es -> Forall (fun kv => P (snd kv)) ps ->
                                 P (Arr inc es ps))
         (HO : forall ps, Forall (fun kv => P (snd kv)) ps -> P (Obj ps))
         (n : Node) {struct n} : P n :=
  let rec := Node_ind' P HU HN HB HZ HS HA HO in
  let props :=
    fix props (l : Props) : Forall (fun kv => P (snd kv)) l :=
      match l with
      | [] => Forall_nil _
      | kv :: r => Forall_cons kv (rec (snd kv)) (props r)
      end in
  match n with
  | Undef => HU
  | Null => HN
  | Bool b => HB b
  | Num z => HZ z
  | Str s => HS s
  | Arr inc es ps =>
      HA inc es ps
         ((fix elems (l : list Node) : Forall P l :=
             match l with
             | [] => Forall_nil _
             | x :: r => Forall_cons x (rec x) (elems r)
             end) es)
         (props ps)
  | Obj ps => HO ps (props ps)
  end.

(** What [store] guarantees for a document: it only adds cells, and the
    value it returns reads back as the document from those cells alone,
    whatever precedes and follows them. *)
Definition stored (n : Node) : Prop :=
  forall h h1 v,
    Heap.store n h = (h1, v) ->
    exists new,
      h1 = h ++ new /\
      forall h0 tail fuel,
        List.length h0 = List.length h -> List.length new <= fuel ->
        Heap.load fuel (h0 ++ new ++ tail) v = Some n.

(** The depth of a document: a primitive has depth 0. *)
Fixpoint depth (n : Node) {struct n} : nat :=
  let depthProps :=
    fix depthProps (l : Props) {struct l} : nat :=
      match l with
      | [] => 0
      | (_, v) :: r => Nat.max (depth v) (depthProps r)
      end in
  match n with
  | Arr _ es ps =>
      S (Nat.max
           ((fix depthElems (l : list Node) {struct l} : nat :=
               match l with
               | [] => 0
               | x :: r => Nat.max (depth x) (depthElems r)
               end) es)
           (depthProps ps))
  | Obj ps => S (depthProps ps)
  | _ => 0
  end.

(** A reference directive with value [val], met at [jsonPath] in [file],
    is handled as a reference, and its target, with the file its content
    is resolved in, is one of [U]. *)
Definition refWithin (E : Env) (U : list (string * string))
           (file jsonPath : string) (val : Node) : Prop :=
  env_shouldInclude E (env_getRefType E jsonPath) = false /\
  forall pRef pFile s target nextFile s',
    env_parseUrl E val = Some pRef ->
    env_parseUrl E (Str file) = Some pFile ->
    refTarget E pRef pFile val s = Ok (Some (target, nextFile)) s' ->
    In (target, nextFile) U.

(** What [mergeRefs] requires of one entry of a document for the walk to
    stay within [U]: a reference directive is within [U]; any other key is
    not an include directive, and [rest] holds of its value. *)
Definition entryWithin (E : Env) (U : list (string * string))
           (file jsonPath key : string) (val : Node) (rest : Prop) : Prop :=
  if isRef key jsonPath then refWithin E U file jsonPath val
  else isInclude key = false /\ rest.

(** [closedDoc E U file jsonPath doc]: walked by [mergeRefs] at
    [jsonPath] in [file], the document has no include directive and its
    reference directives are within [U]. *)
Fixpoint closedDoc (E : Env) (U : list (string * string))
         (file jsonPath : string) (n : Node) {struct n} : Prop :=
  let closedProps :=
    fix closedProps (l : Props) {struct l} : Prop :=
      match l with
      | [] => True
      | (k, v) :: r =>
          entryWithin E U file jsonPath k v
            (closedDoc E U file (jsonPath ++ "." ++ k) v)
          /\ closedProps r
      end in
  match n with
  | Arr _ es ps =>
      (fix closedElems (i : N) (l : list Node) {struct l} : Prop :=
         match l with
         | [] => True
         | x :: r =>
             entryWithin E U file jsonPath (string_of_N i) x
               (closedDoc E U file (jsonPath ++ "." ++ string_of_N i) x)
             /\ closedElems (N.succ i) r
         end) 0%N es
      /\ closedProps ps
  | Obj ps => closedProps ps
  | _ => True
  end.

(** The same, entry by entry, for the entries [mergeRefs] enumerates. *)
Fixpoint closedEntries (E : Env) (U : list (string * string))
         (file jsonPath : string) (l : Props) {struct l} : Prop :=
  match l with
  | [] => True
  | (k, v) :: r =>
      entryWithin E U file jsonPath k v
        (closedDoc E U file (jsonPath ++ "." ++ k) v)
      /\ closedEntries E U file jsonPath r
  end.

(** [closedWorld E U D]: the content of every target of [U] has depth at
    most [D], has no include directive, and its reference directives are
    within [U], wherever it is walked. *)
Definition closedWorld (E : Env) (U : list (string * string)) (D : nat) : Prop :=
  forall target nextFile,
    In (target, nextFile) U ->
    forall s c s',
      initialContent E target s = Ok c s' ->
      depth c <= D /\ forall jsonPath, closedDoc E U nextFile jsonPath c.

(** The targets of [U] that are not registered. *)
Definition unregistered (U : list (string * string)) (m : Manager) : nat :=
  List.length (filter (fun p => negb (mgr_exists m (fst p))) U).

(** The state is left as it was. *)
Definition unchanged (s s' : State) : Prop := s' = s.

(** A computation that does not depend on the depth left. *)
Definition runs {A} (m : M A) : Prop := forall s, m s <> OutOfFuel.

(** A run of word characters, and a non-empty one. *)
Fixpoint allWord (s : string) : bool :=
  match s with
  | EmptyString => true
  | String c r => (isWordChar c && allWord r)%bool
  end.

Definition isWord (s : string) : bool := (negb (String.eqb s "") && allWord s)%bool.

(** The text a group of a match stands for: nothing when the group takes
    no part in the match. *)
Definition groupText (g : option string) : string :=
  match g with Some t => t | None => EmptyString end.

(** A group of [INCLUDE_PATTERN]: absent, or its mark followed by a word. *)
Definition isGroup (mark : ascii) (g : option string) : bool :=
  match g with
  | None => true
  | Some (String c w) => (Ascii.eqb c mark && isWord w)%bool
  | Some EmptyString => false
  end.

(** What follows a run of word characters: nothing, or a character that
    is not a word character. *)
Definition wordStops (rest : string) : Prop :=
  match rest with
  | EmptyString => True
  | String c _ => isWordChar c = false
  end.

(** What follows an optional group that takes no part in the match does
    not start with the mark of the group. *)
Definition markAbsent (mark : ascii) (g : option string) (rest : string) : Prop :=
  match g, rest with
  | None, String c _ => c <> mark
  | _, _ => True
  end.

(** A state of the heap stands for a state of values: every entry of its
    cache reads as the entry of the cache of values, and the logs are the
    same. *)
Definition corr (hs : Heap.HState) (s : State) : Prop :=
  (forall u,
      Heap.read (Heap.hheap hs) (Heap.hget u (Heap.hcache hs))
      = Some (cacheGet (cache s) u)) /\
  Heap.hlogged hs = logged s.

(** A key that [mergeRefs] walks into: neither a reference nor an include
    directive where it stands. *)
Definition plainKey (jsonPath key : string) : bool :=
  (negb (isRef key jsonPath) && negb (isInclude key))%bool.

(** [keyFollows acc k]: an object whose properties are [acc] enumerates a
    new key [k] after them: [k] is not among them, and if it is an array
    index they are all smaller array indices. *)
Definition keyFollows (acc : Props) (k : string) : bool :=
  (negb (hasKey k acc) &&
   match parse_index k with
   | Some i =>
       forallb (fun kv => match parse_index (fst kv) with
                          | Some j => N.ltb j i
                          | None => false
                          end) acc
   | None => true
   end)%bool.

(** [plain jsonPath n]: the document is as a parser gives it (no key
    twice in a mapping, its keys in the order a JavaScript object
    enumerates them; a sequence is a plain array without other properties,
    not longer than an array can be) and, walked by [mergeRefs] at
    [jsonPath], it holds no reference and no include directive. *)
Fixpoint plain (jsonPath : string) (n : Node) {struct n} : bool :=
  match n with
  | Arr inc es ps =>
      (negb inc && match ps with [] => true | _ => false end
       && N.ltb (N.of_nat (List.length es)) 4294967295
       && (fix plainElems (i : N) (l : list Node) {struct l} : bool :=
             match l with
             | [] => true
             | x :: r =>
                 plainKey jsonPath (string_of_N i)
                 && plain (jsonPath ++ "." ++ string_of_N i) x
                 && plainElems (N.succ i) r
             end) 0%N es)%bool
  | Obj ps =>
      (fix plainProps (acc l : Props) {struct l} : bool :=
         match l with
         | [] => true
         | (k, v) :: r =>
             (keyFollows acc k && plainKey jsonPath k
              && plain (jsonPath ++ "." ++ k) v
              && plainProps (acc ++ [(k, v)]) r)%bool
         end) [] ps
  | _ => true
  end.

(** The same, for the elements of a sequence from index [i] on and for the
    properties of a mapping that follow [acc]. *)
Fixpoint plainElems (jsonPath : string) (i : N) (l : list Node) {struct l} : bool :=
  match l with
  | [] => true
  | x :: r =>
      (plainKey jsonPath (string_of_N i)
       && plain (jsonPath ++ "." ++ string_of_N i) x
       && plainElems jsonPath (N.succ i) r)%bool
  end.

Fixpoint plainProps (jsonPath : string) (acc l : Props) {struct l} : bool :=
  match l with
  | [] => true
  | (k, v) :: r =>
      (keyFollows acc k && plainKey jsonPath k
       && plain (jsonPath ++ "." ++ k) v
       && plainProps jsonPath (acc ++ [(k, v)]) r)%bool
  end.

(* ===================================================================== *)
(** * Properties *)
(* ===================================================================== *)

(** ** Sequencing *)

Lemma bind_ok {A B} (m : M A) (f : A -> M B) s a s' :
  m s = Ok a s' -> bind m f s = f a s'.
Proof. unfold bind; intros ->; reflexivity. Qed.

Lemma bind_throw {A B} (m : M A) (f : A -> M B) s e s' :
  m s = Throw e s' -> bind m f s = Throw e s'.
Proof. unfold bind; intros ->; reflexivity. Qed.

Lemma bind_fuel {A B} (m : M A) (f : A -> M B) s :
  m s = OutOfFuel -> bind m f s = OutOfFuel.
Proof. unfold bind; intros ->; reflexivity. Qed.

Lemma bind_ok_inv {A B} (m : M A) (f : A -> M B) s b s'' :
  bind m f s = Ok b s'' -> exists a s', m s = Ok a s' /\ f a s' = Ok b s''.
Proof.
  unfold bind; destruct (m s) as [a s'| |]; intros H; try discriminate.
  exists a, s'; split; [reflexivity | exact H].
Qed.

(** Runs the first computation of a sequence, whose result is shown by
    [tac]. *)
Ltac bind_step tac := erewrite bind_ok; [| solve [tac]]; cbv beta zeta iota.

(** ** Properties and keys *)

Lemma lookup_replace_same k v l :
  hasKey k l = true -> lookup k (replace_prop k v l) = Some v.
Proof.
  unfold hasKey; induction l as [|[k' v'] r IH]; simpl; [discriminate|].
  destruct (String.eqb k k') eqn:Ek; simpl; rewrite Ek; auto.
Qed.

Lemma lookup_replace_other k k' v l :
  k' <> k -> lookup k' (replace_prop k v l) = lookup k' l.
Proof.
  intros Hne; induction l as [|[k0 v0] r IH]; simpl; [reflexivity|].
  destruct (String.eqb k k0) eqn:Ek; simpl.
  - apply String.eqb_eq in Ek; subst k0.
    destruct (String.eqb k' k) eqn:Ek'; [apply String.eqb_eq in Ek'; contradiction | reflexivity].
  - destruct (String.eqb k' k0); auto.
Qed.

Lemma lookup_insert_index_absent i k v l :
  lookup k l = None -> lookup k (insert_index i k v l) = Some v.
Proof.
  induction l as [|[k0 v0] r IH]; simpl; intros H.
  - rewrite String.eqb_refl; reflexivity.
  - destruct (String.eqb k k0) eqn:Ek; [discriminate|].
    destruct (parse_index k0) as [j|].
    + destruct (N.ltb i j); simpl; [rewrite String.eqb_refl; reflexivity|].
      rewrite Ek; auto.
    + simpl; rewrite String.eqb_refl; reflexivity.
Qed.

Lemma lookup_insert_index_other i k k' v l :
  k' <> k -> lookup k' (insert_index i k v l) = lookup k' l.
Proof.
  intros Hne.
  assert (Hk : String.eqb k' k = false) by (apply String.eqb_neq; exact Hne).
  induction l as [|[k0 v0] r IH]; simpl.
  - rewrite Hk; reflexivity.
  - destruct (parse_index k0) as [j|].
    + destruct (N.ltb i j); simpl; [rewrite Hk; reflexivity|].
      destruct (String.eqb k' k0); auto.
    + simpl; rewrite Hk; reflexivity.
Qed.

Lemma lookup_app_absent k l l' :
  lookup k l = None -> lookup k (l ++ l') = lookup k l'.
Proof.
  induction l as [|[k0 v0] r IH]; simpl; [reflexivity|].
  destruct (String.eqb k k0); [discriminate | exact IH].
Qed.

Lemma lookup_app_present k l l' v :
  lookup k l = Some v -> lookup k (l ++ l') = Some v.
Proof.
  induction l as [|[k0 v0] r IH]; simpl; [discriminate|].
  destruct (String.eqb k k0); auto.
Qed.

(** After [o[k] = v], [o[k]] is [v]. *)
Lemma lookup_props_set_same k v l : lookup k (props_set k v l) = Some v.
Proof.
  unfold props_set. destruct (hasKey k l) eqn:H.
  - apply lookup_replace_same; exact H.
  - unfold hasKey in H. destruct (lookup k l) eqn:L; [discriminate|].
    destruct (parse_index k).
    + apply lookup_insert_index_absent; exact L.
    + rewrite (lookup_app_absent _ _ _ L); simpl; rewrite String.eqb_refl; reflexivity.
Qed.

(** [o[k] = v] leaves the other keys alone. *)
Lemma lookup_props_set_other k k' v l :
  k' <> k -> lookup k' (props_set k v l) = lookup k' l.
Proof.
  intros Hne. unfold props_set. destruct (hasKey k l).
  - apply lookup_replace_other; exact Hne.
  - destruct (parse_index k).
    + apply lookup_insert_index_other; exact Hne.
    + destruct (lookup k' l) eqn:L.
      * apply lookup_app_present; exact L.
      * rewrite (lookup_app_absent _ _ _ L); simpl.
        destruct (String.eqb k' k) eqn:Ek; [apply String.eqb_eq in Ek; contradiction | reflexivity].
Qed.

Lemma lookup_props_remove_same k l : lookup k (props_remove k l) = None.
Proof.
  induction l as [|[k0 v0] r IH]; simpl; [reflexivity|].
  destruct (String.eqb k k0) eqn:Ek; [exact IH | simpl; rewrite Ek; exact IH].
Qed.

Lemma lookup_props_remove_other k k' l :
  k' <> k -> lookup k' (props_remove k l) = lookup k' l.
Proof.
  intros Hne; induction l as [|[k0 v0] r IH]; simpl; [reflexivity|].
  destruct (String.eqb k k0) eqn:Ek; simpl.
  - apply String.eqb_eq in Ek; subst k0.
    destruct (String.eqb k' k) eqn:Ek'; [apply String.eqb_eq in Ek'; contradiction | exact IH].
  - destruct (String.eqb k' k0); auto.
Qed.

Lemma lookup_In_keys k l v : lookup k l = Some v -> In k (map fst l).
Proof.
  induction l as [|[k0 v0] r IH]; simpl; [discriminate|].
  destruct (String.eqb k k0) eqn:Ek; [apply String.eqb_eq in Ek; auto | auto].
Qed.

Lemma keys_props_set k v l : In k (map fst (props_set k v l)).
Proof. eapply lookup_In_keys, lookup_props_set_same. Qed.

(** An object that holds [k] and has one key has [k] as its only key. *)
Lemma single_key k (l : Props) :
  In k (map fst l) -> List.length (map fst l) = 1 -> map fst l = [k].
Proof.
  destruct l as [|[k0 v0] [|x r]]; simpl; intros Hin Hlen; try discriminate; try contradiction.
  destruct Hin as [->|[]]; reflexivity.
Qed.

(* ===================================================================== *)
(** ** http.js: failures of the network *)
(* ===================================================================== *)

Section HttpFacts.

Variable fetch : string -> FetchResult.
Variable loadYAML : string -> option Node.
Variable parseJSON : string -> option Node.

Local Abbreviation downloadF := (download fetch loadYAML parseJSON).

Lemma download_cached url s :
  truthy (cacheGet (cache s) url) = true ->
  downloadF url s = Ok (cacheGet (cache s) url) s.
Proof.
  intros H. unfold download, bind, getCache. rewrite H. reflexivity.
Qed.

(** C6. When fetching a URL raises a transport error or the response has a
    non-success status, [download] does not raise: it returns normally,
    and (the URL not being served from the cache) it returns the empty
    mapping, leaves the cache as it was and logs the failure at the error
    level after the [fetching:] warning. *)
Theorem download_failure_not_fatal url s :
  fetchFails fetch url ->
  (exists doc s', downloadF url s = Ok doc s') /\
  (truthy (cacheGet (cache s) url) = false ->
   exists msg,
     downloadF url s =
     Ok emptyObj
        (mkState (manager s) (cache s)
                 ((LError, msg) :: (LWarn, "fetching: " ++ url)%string :: logged s))).
Proof.
  intros Hf.
  assert (Hmiss : truthy (cacheGet (cache s) url) = false ->
                  exists msg,
                    downloadF url s =
                    Ok emptyObj
                       (mkState (manager s) (cache s)
                                ((LError, msg) :: (LWarn, "fetching: " ++ url)%string :: logged s))).
  { intros Hc. unfold download, bind, getCache. rewrite Hc.
    destruct Hf as [Hr | [r [Hr Hok]]]; simpl; rewrite Hr.
    - eexists; reflexivity.
    - rewrite Hok; simpl. eexists; reflexivity. }
  split; [|exact Hmiss].
  destruct (truthy (cacheGet (cache s) url)) eqn:Hc.
  - rewrite (download_cached _ _ Hc). eauto.
  - destruct (Hmiss eq_refl) as [msg ->]. eauto.
Qed.

End HttpFacts.

(** ** merger.js: the post-processor of classed includes *)

Lemma readField_object o k s :
  isObject o = true -> readField o k s = Ok (get_prop o k) s.
Proof. destruct o; simpl; intros H; try discriminate; reflexivity. Qed.

Lemma readField_present o k s :
  isObject (get_prop o k) = true -> readField o k s = Ok (get_prop o k) s.
Proof. destruct o; simpl; intros H; try discriminate; reflexivity. Qed.

Section ProcessIncludeFacts.

Variable E : Env.

(** With a configuration for the class, the included mapping is filtered,
    then passed to [appendObjectKeys] with the prefix, then to
    [prependObjectKeys] with the suffix. *)
Lemma processInclude_order key clazz obj s cc :
  getIncludeClass key = Some clazz ->
  isObject (get_prop (env_config E) "include") = true ->
  get_prop (get_prop (env_config E) "include") clazz = cc ->
  truthy cc = true ->
  processInclude E key obj s =
  Ok (env_prependObjectKeys E
        (env_appendObjectKeys E
           (env_filterObject E obj (get_prop cc "filter"))
           (get_prop cc "prefix"))
        (get_prop cc "suffix")) s.
Proof.
  intros Hc Hinc Hcc Ht. unfold processInclude. rewrite Hc.
  rewrite (bind_ok _ _ _ _ _ (readField_present _ _ s Hinc)).
  rewrite (bind_ok _ _ _ _ _ (readField_object _ clazz s Hinc)).
  rewrite Hcc, Ht. reflexivity.
Qed.

(** With an [include] section that has no entry for the class, the content
    passes through and a warning is logged. *)
Lemma processInclude_unconfigured key clazz obj s :
  getIncludeClass key = Some clazz ->
  isObject (get_prop (env_config E) "include") = true ->
  truthy (get_prop (get_prop (env_config E) "include") clazz) = false ->
  exists msg,
    processInclude E key obj s =
    Ok obj (mkState (manager s) (cache s) ((LWarn, msg) :: logged s)).
Proof.
  intros Hc Hinc Ht. unfold processInclude. rewrite Hc.
  rewrite (bind_ok _ _ _ _ _ (readField_present _ _ s Hinc)).
  rewrite (bind_ok _ _ _ _ _ (readField_object _ clazz s Hinc)).
  rewrite Ht. simpl. eexists; reflexivity.
Qed.

(** Without a class on the key, the content passes through. *)
Lemma processInclude_no_class key obj s :
  getIncludeClass key = None -> processInclude E key obj s = Ok obj s.
Proof. intros H; unfold processInclude; rewrite H; reflexivity. Qed.

(** A configuration without an [include] section (the [{}] that index.js
    passes when no configuration file is given) has no configuration for
    any class; a classed include then makes [processInclude] throw where it
    reads [config.include[clazz]]. *)
Theorem processInclude_without_include_section key clazz obj s :
  getIncludeClass key = Some clazz ->
  env_config E = emptyObj ->
  processInclude E key obj s = Throw (TypeError clazz) s.
Proof.
  intros Hc Hcfg. unfold processInclude. rewrite Hc, Hcfg. reflexivity.
Qed.

End ProcessIncludeFacts.

(* ===================================================================== *)
(** ** merger.js: sequences brought in by an include *)
(* ===================================================================== *)

Lemma isArray_set_prop o k v : isArray (set_prop o k v) = isArray o.
Proof. destruct o; simpl; try reflexivity. destruct (parse_index k); reflexivity. Qed.

Lemma isObject_set_prop o k v : isObject (set_prop o k v) = isObject o.
Proof. destruct o; simpl; try reflexivity. destruct (parse_index k); reflexivity. Qed.

(** After [obj[key] = ...], an object with one key has [key] as its only
    key. *)
Lemma one_key_is_the_directive o k v :
  isArray o = false ->
  List.length (keys (set_prop o k v)) = 1 -> keys (set_prop o k v) = [k].
Proof.
  destruct o; simpl; intros Ha Hl; try discriminate.
  unfold keys in *; simpl in *.
  apply single_key; [apply keys_props_set | exact Hl].
Qed.

Section IncludeArrayRule.

Variable E : Env.
Variable baseDir : string.
Variable mergeRefsRec : Node -> string -> string -> M Node.
Variable handleIncludeRec : Node -> string -> Node -> string -> string -> M (Node * Node).

Local Abbreviation includeIntoE := (includeInto E).
Local Abbreviation handleIncludeE := (handleIncludeBody E baseDir mergeRefsRec handleIncludeRec).

Lemma includeInto_array_array obj key val jsonPath merged s :
  isArray merged = true -> isArray obj = true ->
  includeIntoE obj key val jsonPath merged s = Ok (obj, concat obj merged) s.
Proof. intros Hm Ho. unfold includeInto. rewrite Hm, Ho. reflexivity. Qed.

Lemma includeInto_array_sole_key obj key val jsonPath merged s :
  isArray merged = true -> isArray obj = false -> keys obj = [key] ->
  includeIntoE obj key val jsonPath merged s = Ok (obj, includedArrayFrom merged) s.
Proof.
  intros Hm Ho Hk. unfold includeInto. rewrite Hm, Ho, Hk. reflexivity.
Qed.

Lemma includeInto_array_other obj key val jsonPath merged s :
  isArray merged = true -> isArray obj = false -> List.length (keys obj) <> 1 ->
  exists msg, includeIntoE obj key val jsonPath merged s = Throw (MergeError msg) s.
Proof.
  intros Hm Ho Hk. unfold includeInto. rewrite Hm, Ho.
  destruct (Nat.eqb (List.length (keys obj)) 1) eqn:En.
  - apply Nat.eqb_eq in En; contradiction.
  - eexists; reflexivity.
Qed.

(** What [handleInclude] does up to the point where the content has been
    resolved to [merged]. *)
Lemma handleIncludeBody_resolved obj0 key val file jsonPath s
      pRef pFile content nextFile sliced merged s1 s2 :
  env_parseUrl E val = Some pRef ->
  env_parseUrl E (Str file) = Some pFile ->
  includeContent E handleIncludeRec pRef pFile key val file jsonPath
    (mkState (manager s) (cache s)
       ((LDebug, "include: " ++ jsonPath ++ " file=" ++ env_relative E baseDir file)%string
          :: logged s))
  = Ok (Some (content, nextFile)) s1 ->
  env_sliceObject E content (hash pRef) = Some sliced ->
  mergeRefsRec sliced nextFile jsonPath s1 = Ok merged s2 ->
  handleIncludeE obj0 key val file jsonPath s =
  includeIntoE (set_prop obj0 key (env_mergeOrOverwrite E (get_prop obj0 key) val))
    key val jsonPath merged s2.
Proof.
  intros Hp Hf Hc Hs Hm.
  unfold handleIncludeBody.
  bind_step ltac:(reflexivity).
  bind_step ltac:(unfold parseUrlM; rewrite Hp; reflexivity).
  bind_step ltac:(unfold parseUrlM; rewrite Hf; reflexivity).
  bind_step ltac:(exact Hc).
  bind_step ltac:(unfold sliceObjectM; rewrite Hs; reflexivity).
  bind_step ltac:(exact Hm).
  reflexivity.
Qed.


(** What [concat] and [IncludedArray.from] hold. *)
Lemma concat_elems inc es ps inc' es' ps' :
  concat (Arr inc es ps) (Arr inc' es' ps') = Arr inc (es ++ es') [].
Proof. reflexivity. Qed.

Lemma includedArrayFrom_elems inc es ps :
  includedArrayFrom (Arr inc es ps) = Arr true es [].
Proof. reflexivity. Qed.

End IncludeArrayRule.

(** An exception ends the loop of [mergeRefs]: the entries that follow are
    not visited. *)
Lemma mergeEntries_throw E recM recI recR file jsonPath kv rest ret0 s e s' :
  mergeEntry E recM recI recR file jsonPath ret0 kv s = Throw e s' ->
  mergeEntries E recM recI recR file jsonPath (kv :: rest) ret0 s = Throw e s'.
Proof. intros H. simpl. apply bind_throw; exact H. Qed.

(* ===================================================================== *)
(** ** merger.js: mappings brought in by an include *)
(* ===================================================================== *)

Lemma get_set_same l k v : get_prop (set_prop (Obj l) k v) k = v.
Proof. simpl. rewrite lookup_props_set_same. reflexivity. Qed.

Lemma get_set_other l k k' v :
  k' <> k -> get_prop (set_prop (Obj l) k v) k' = get_prop (Obj l) k'.
Proof. intros H. simpl. rewrite (lookup_props_set_other _ _ _ _ H). reflexivity. Qed.

Lemma assignMergeValue_obj l k v : exists l', assignMergeValue (Obj l) k v = Obj l'.
Proof.
  unfold assignMergeValue. destruct v; simpl; eauto.
  destruct (hasKey k l); eauto.
Qed.

(** What [assignMergeValue] leaves under the key it is given. *)
Lemma get_assign_same l k v :
  get_prop (assignMergeValue (Obj l) k v) k
  = match v with Undef => get_prop (Obj l) k | _ => v end.
Proof.
  unfold assignMergeValue.
  destruct v; try apply get_set_same.
  simpl key_in. unfold hasKey. destruct (lookup k l) eqn:L.
  - reflexivity.
  - rewrite get_set_same. simpl. rewrite L. reflexivity.
Qed.

Lemma get_assign_other l k k' v :
  k' <> k -> get_prop (assignMergeValue (Obj l) k v) k' = get_prop (Obj l) k'.
Proof.
  intros H. unfold assignMergeValue.
  destruct v; try (apply get_set_other; exact H).
  destruct (key_in (Obj l) k); [reflexivity | apply get_set_other; exact H].
Qed.

Lemma lookup_None_notin k (l : Props) : ~ In k (map fst l) -> lookup k l = None.
Proof.
  induction l as [|[k0 v0] r IH]; simpl; intros H; [reflexivity|].
  destruct (String.eqb k k0) eqn:Ek.
  - apply String.eqb_eq in Ek. subst. exfalso; apply H; auto.
  - apply IH. intros Hin; apply H; auto.
Qed.

(** [baseMerge] into an object, key by key: a key of the source gets the
    merged value, the other keys keep theirs. *)
Lemma baseMerge_get ps : forall l k,
  NoDup (map fst ps) ->
  exists l',
    baseMerge (Obj l) ps = Obj l' /\
    get_prop (Obj l') k
    = match lookup k ps with
      | Some v => mergeResult (get_prop (Obj l) k) v
      | None => get_prop (Obj l) k
      end.
Proof.
  unfold baseMerge.
  induction ps as [|[k0 v0] r IH]; intros l k Hnd.
  - exists l; split; reflexivity.
  - simpl in Hnd. inversion Hnd as [|? ? Hnotin Hnd']; subst.
    cbn [fold_left lookup].
    unfold mergeStep at 2; cbn [fst snd].
    destruct (assignMergeValue_obj l k0 (mergedValue (get_prop (Obj l) k0) v0)) as [l1 El1].
    rewrite El1.
    destruct (IH l1 k Hnd') as [l' [Hl' Hget]].
    exists l'; split; [exact Hl'|].
    rewrite Hget.
    destruct (String.eqb k k0) eqn:Ek.
    + apply String.eqb_eq in Ek; subst k0.
      rewrite (lookup_None_notin _ _ Hnotin).
      rewrite <- El1, get_assign_same. unfold mergeResult.
      destruct (mergedValue (get_prop (Obj l) k) v0); reflexivity.
    + assert (Hne : k <> k0) by (apply String.eqb_neq; exact Ek).
      rewrite <- El1, (get_assign_other _ _ _ _ Hne).
      reflexivity.
Qed.

(** A value of the source that is not an object is stored as it is. *)
Lemma mergedValue_primitive x v : isObject v = false -> mergedValue x v = v.
Proof. destruct v; simpl; intros H; try discriminate; reflexivity. Qed.

Lemma mergeResult_primitive x v :
  isObject v = false -> v <> Undef -> mergeResult x v = v.
Proof.
  intros Ho Hu. unfold mergeResult. rewrite (mergedValue_primitive _ _ Ho).
  destruct v; try reflexivity. contradiction.
Qed.

(** Two objects merge recursively: the value stored for an object of the
    source is [baseMerge] of it into what the destination holds. *)
Lemma mergedValue_object x ps :
  mergedValue x (Obj ps) = baseMerge (objectBase x) ps.
Proof.
  unfold baseMerge. simpl. generalize (objectBase x).
  induction ps as [|[k v] r IH]; intros acc; simpl; [reflexivity|].
  rewrite IH. reflexivity.
Qed.

Lemma get_delete_same l k : get_prop (delete_prop (Obj l) k) k = Undef.
Proof. simpl. rewrite lookup_props_remove_same. reflexivity. Qed.

Lemma get_delete_other l k k' :
  k' <> k -> get_prop (delete_prop (Obj l) k) k' = get_prop (Obj l) k'.
Proof. intros H. simpl. rewrite (lookup_props_remove_other _ _ _ H). reflexivity. Qed.

Section IncludeMappingRule.

Variable E : Env.

(** C4, as the code has it.  When the content of an include directive
    resolves to a mapping, [handleInclude] merges the post-processed
    mapping into the destination with lodash [merge] and then deletes the
    directive key: the directive key is gone; a key of the included mapping
    holds the merge of the included value into the value the destination
    had, so that an included value that is not an object replaces the
    value the destination had; the other keys keep their values. *)
Theorem include_mapping_rule l key val jsonPath merged ps s s' :
  isArray merged = false ->
  processInclude E key merged s = Ok (Obj ps) s' ->
  NoDup (map fst ps) ->
  exists l',
    includeInto E (Obj l) key val jsonPath merged s = Ok (Obj l', Obj l') s' /\
    key_in (Obj l') key = false /\
    (forall k, k <> key ->
       get_prop (Obj l') k
       = match lookup k ps with
         | Some v => mergeResult (get_prop (Obj l) k) v
         | None => get_prop (Obj l) k
         end) /\
    (forall k v, k <> key -> lookup k ps = Some v ->
       isObject v = false -> v <> Undef -> get_prop (Obj l') k = v).
Proof.
  intros Ha Hp Hnd.
  destruct (baseMerge_get ps l key Hnd) as [l1 [Hl1 _]].
  exists (props_remove key l1).
  assert (Hres : includeInto E (Obj l) key val jsonPath merged s
                 = Ok (Obj (props_remove key l1), Obj (props_remove key l1)) s').
  { unfold includeInto. rewrite Ha.
    bind_step ltac:(exact Hp).
    unfold lodash_merge. simpl truthy. cbv iota.
    change (objectBase (Obj l)) with (Obj l).
    change (entriesIn (Obj ps)) with ps.
    rewrite Hl1. reflexivity. }
  assert (Hget : forall k, k <> key ->
            get_prop (Obj (props_remove key l1)) k
            = match lookup k ps with
              | Some v => mergeResult (get_prop (Obj l) k) v
              | None => get_prop (Obj l) k
              end).
  { intros k Hk.
    destruct (baseMerge_get ps l k Hnd) as [l2 [Hl2 Hg]].
    rewrite Hl1 in Hl2. injection Hl2 as <-.
    change (Obj (props_remove key l1)) with (delete_prop (Obj l1) key).
    rewrite (get_delete_other _ _ _ Hk). exact Hg. }
  repeat split.
  - exact Hres.
  - simpl. unfold hasKey. rewrite lookup_props_remove_same. reflexivity.
  - exact Hget.
  - intros k v Hk Hl Ho Hu. rewrite (Hget k Hk), Hl.
    apply mergeResult_primitive; assumption.
Qed.

End IncludeMappingRule.

(* ===================================================================== *)
(** ** Properties closed under the sequencing of the engine *)
(* ===================================================================== *)

(** A property of computations that holds of the operations the engine is
    made of, and of a sequence when it holds of its parts, holds of the
    three methods of the engine at every depth. *)
Section Closure.

Variable E : Env.
Variable P : forall A : Type, M A -> Prop.
Arguments P {A} _.

Hypothesis P_ret : forall A (a : A), P (ret a).
Hypothesis P_throw : forall A e, P (@throw A e).
Hypothesis P_outOfFuel : forall A, P (@outOfFuel A).
Hypothesis P_bind :
  forall A B (m : M A) (f : A -> M B), P m -> (forall a, P (f a)) -> P (bind m f).
Hypothesis P_getManager : P getManager.
Hypothesis P_log : forall lv msg, P (logMsg lv msg).
Hypothesis P_fetchDoc : forall url, P (fetchDoc E url).
Hypothesis P_getOrCreate : forall type url, P (getOrCreate E type url).
Hypothesis P_setContent : forall cmp v, P (setContent cmp v).

Lemma closed_orThrow {A} (o : option A) e : P (orThrow o e).
Proof. destruct o; [apply P_ret | apply P_throw]. Qed.

(** Steps through a computation made of the operations above. *)
Ltac closed :=
  repeat first
    [ apply P_ret
    | apply P_throw
    | apply P_outOfFuel
    | apply closed_orThrow
    | apply P_getManager
    | apply P_log
    | apply P_fetchDoc
    | apply P_getOrCreate
    | apply P_setContent
    | assumption
    | match goal with
      | |- P (bind _ _) => apply P_bind; [| intros]
      | |- P (if ?b then _ else _) => destruct b
      | |- P (match ?x with _ => _ end) => destruct x
      | |- P (let (_, _) := ?x in _) => destruct x
      end ].

Lemma closed_readYAML p : P (readYAML E p).
Proof. unfold readYAML. closed. Qed.

Lemma closed_parseUrlM v : P (parseUrlM E v).
Proof. unfold parseUrlM. closed. Qed.

Lemma closed_sliceObjectM c h : P (sliceObjectM E c h).
Proof. unfold sliceObjectM. closed. Qed.

Lemma closed_asPath v : P (asPath v).
Proof. unfold asPath. closed. Qed.

Lemma closed_readField o k : P (readField o k).
Proof. unfold readField. closed. Qed.

Lemma closed_initialContent url : P (initialContent E url).
Proof.
  unfold initialContent.
  closed; try first [ apply closed_parseUrlM | apply closed_readYAML
                    | apply closed_sliceObjectM ].
Qed.

Lemma closed_processInclude key obj : P (processInclude E key obj).
Proof. unfold processInclude. closed; try apply closed_readField. Qed.

Lemma closed_includeInto obj key val jsonPath merged :
  P (includeInto E obj key val jsonPath merged).
Proof. unfold includeInto. closed; try apply closed_processInclude. Qed.

Lemma closed_remoteTarget pFile val : P (remoteTarget E pFile val).
Proof. unfold remoteTarget. closed; try apply closed_asPath. Qed.

Lemma closed_refTarget pRef pFile val : P (refTarget E pRef pFile val).
Proof.
  unfold refTarget.
  closed; try first [ apply closed_remoteTarget | apply closed_parseUrlM ].
Qed.

Lemma closed_setComponents doc v : P (setComponents doc v).
Proof. unfold setComponents. closed. Qed.

Section Bodies.

Variable baseDir : string.
Variable mergeRefsRec : Node -> string -> string -> M Node.
Variable handleIncludeRec : Node -> string -> Node -> string -> string -> M (Node * Node).
Variable handleRefRec : Node -> string -> Node -> string -> string -> M Node.

Hypothesis mergeRefsRec_closed : forall o f j, P (mergeRefsRec o f j).
Hypothesis handleIncludeRec_closed : forall o k v f j, P (handleIncludeRec o k v f j).
Hypothesis handleRefRec_closed : forall o k v f j, P (handleRefRec o k v f j).

Lemma closed_includeFiles key file jsonPath mfs : forall content,
  P (includeFiles E handleIncludeRec key file jsonPath mfs content).
Proof.
  induction mfs as [|mf rest IH]; intros content; simpl.
  - apply P_ret.
  - apply P_bind; [apply handleIncludeRec_closed | intros; apply IH].
Qed.

Lemma closed_includeContent pRef pFile key val file jsonPath :
  P (includeContent E handleIncludeRec pRef pFile key val file jsonPath).
Proof.
  unfold includeContent.
  closed; try first [ apply closed_readYAML | apply closed_remoteTarget
                    | apply closed_parseUrlM | apply closed_includeFiles ].
Qed.

Lemma closed_handleIncludeBody obj key val file jsonPath :
  P (handleIncludeBody E baseDir mergeRefsRec handleIncludeRec obj key val file jsonPath).
Proof.
  unfold handleIncludeBody. cbv zeta.
  closed; try first [ apply closed_parseUrlM | apply closed_includeContent
                    | apply closed_sliceObjectM | apply mergeRefsRec_closed
                    | apply closed_includeInto ].
Qed.

Lemma closed_rewriteRef obj key jsonPath cmpExists cmp nextFile :
  P (rewriteRef mergeRefsRec obj key jsonPath cmpExists cmp nextFile).
Proof.
  unfold rewriteRef. cbv zeta.
  closed; try apply mergeRefsRec_closed.
Qed.

Lemma closed_handleRefBody obj key val file jsonPath :
  P (handleRefBody E baseDir mergeRefsRec handleIncludeRec obj key val file jsonPath).
Proof.
  unfold handleRefBody. cbv zeta.
  closed; try first [ apply closed_parseUrlM | apply handleIncludeRec_closed
                    | apply closed_refTarget | apply closed_rewriteRef ].
Qed.

Lemma closed_mergeEntry file jsonPath ret0 kv :
  P (mergeEntry E mergeRefsRec handleIncludeRec handleRefRec file jsonPath ret0 kv).
Proof.
  unfold mergeEntry.
  closed; try first [ apply handleRefRec_closed | apply handleIncludeRec_closed
                    | apply mergeRefsRec_closed ].
Qed.

Lemma closed_mergeEntries file jsonPath es : forall ret0,
  P (mergeEntries E mergeRefsRec handleIncludeRec handleRefRec file jsonPath es ret0).
Proof.
  induction es as [|kv rest IH]; intros ret0; simpl.
  - apply P_ret.
  - apply P_bind; [apply closed_mergeEntry | intros; apply IH].
Qed.

Lemma closed_mergeRefsBody obj file jsonPath :
  P (mergeRefsBody E mergeRefsRec handleIncludeRec handleRefRec obj file jsonPath).
Proof.
  unfold mergeRefsBody. destruct (negb (isObject obj)).
  - apply P_ret.
  - apply closed_mergeEntries.
Qed.

End Bodies.

(** The three methods of the engine, at every depth. *)
Lemma closed_engine fuel baseDir :
  (forall o f j, P (mergeRefs E fuel baseDir o f j)) /\
  (forall o k v f j, P (handleRef E fuel baseDir o k v f j)) /\
  (forall o k v f j, P (handleInclude E fuel baseDir o k v f j)).
Proof.
  induction fuel as [|n [IHm [IHr IHi]]].
  - repeat split; intros; apply P_outOfFuel.
  - repeat split; intros; simpl.
    + apply closed_mergeRefsBody; assumption.
    + apply closed_handleRefBody; assumption.
    + apply closed_handleIncludeBody; assumption.
Qed.

Lemma closed_mergeRefs fuel baseDir o f j : P (mergeRefs E fuel baseDir o f j).
Proof. apply closed_engine. Qed.

(** [merge] itself replaces the manager. *)
Lemma closed_merge fuel doc docPath :
  (forall m, P (setManager m)) -> P (merge E fuel doc docPath).
Proof.
  intros P_setManager. unfold merge. cbv zeta.
  repeat first
    [ apply closed_parseUrlM
    | apply P_setManager
    | apply closed_mergeRefs
    | apply P_getManager
    | apply closed_setComponents
    | apply P_bind; [| intros] ].
Qed.

End Closure.

(** How [getOrCreate] is made, for a property that holds of
    [setManager]. *)
Lemma closed_getOrCreate E (P : forall A : Type, M A -> Prop) :
  (forall A (a : A), P A (ret a)) ->
  (forall A e, P A (@throw A e)) ->
  (forall A B (m : M A) (f : A -> M B),
      P A m -> (forall a, P B (f a)) -> P B (bind m f)) ->
  P Manager getManager ->
  (forall url, P Node (fetchDoc E url)) ->
  (forall m, P unit (setManager m)) ->
  forall type url, P Component (getOrCreate E type url).
Proof.
  intros P_ret P_throw P_bind P_getManager P_fetchDoc P_setManager type url.
  unfold getOrCreate.
  apply P_bind; [apply P_getManager|]. intros m.
  destruct (mgr_find m type url); [apply P_ret|].
  apply P_bind.
  - unfold initialContent. destruct (env_policy E); [apply P_ret|].
    apply P_bind; [unfold parseUrlM; destruct (env_parseUrl E (Str url)); simpl; auto|].
    intros p. apply P_bind.
    + destruct (isHttp p); [apply P_fetchDoc|].
      unfold readYAML. apply P_bind.
      * destruct (env_readFileSync E (hrefWoHash p)); simpl; auto.
      * intros str. destruct (env_loadYAML E str); simpl; auto.
    + intros raw. unfold sliceObjectM.
      destruct (env_sliceObject E raw (hash p)); simpl; auto.
  - intros c0. cbv zeta. apply P_bind; [apply P_setManager|]. intros _. apply P_ret.
Qed.

(* ===================================================================== *)
(** ** What every call of the engine preserves *)
(* ===================================================================== *)

Lemma preserves_ok R {A} (m : M A) s a s' :
  preserves R m -> m s = Ok a s' -> R s s'.
Proof. intros H E; specialize (H s); rewrite E in H; exact H. Qed.

Lemma preserves_thrown R {A} (m : M A) s e s' :
  preserves R m -> m s = Throw e s' -> R s s'.
Proof. intros H E; specialize (H s); rewrite E in H; exact H. Qed.

Section Preservation.

Variable E : Env.
Variable R : State -> State -> Prop.

Hypothesis R_refl : forall s, R s s.
Hypothesis R_trans : forall s t u, R s t -> R t u -> R s u.

Lemma preserves_ret {A} (a : A) : preserves R (ret a).
Proof. intros s; apply R_refl. Qed.

Lemma preserves_throw {A} e : preserves R (@throw A e).
Proof. intros s; apply R_refl. Qed.

Lemma preserves_outOfFuel {A} : preserves R (@outOfFuel A).
Proof. intros s; exact I. Qed.

Lemma preserves_bind {A B} (m : M A) (f : A -> M B) :
  preserves R m -> (forall a, preserves R (f a)) -> preserves R (bind m f).
Proof.
  intros Hm Hf s. unfold bind. specialize (Hm s).
  destruct (m s) as [a s1| |]; auto.
  specialize (Hf a s1). destruct (f a s1); eauto.
Qed.

Lemma preserves_getManager : preserves R getManager.
Proof. intros s; apply R_refl. Qed.

Hypothesis R_log : forall lv msg, preserves R (logMsg lv msg).
Hypothesis R_fetchDoc : forall url, preserves R (fetchDoc E url).

(** The engine, for a relation that [getOrCreate] and the assignment of a
    content preserve. *)
Lemma preserves_mergeRefs fuel baseDir o f j :
  (forall type url, preserves R (getOrCreate E type url)) ->
  (forall cmp v, preserves R (setContent cmp v)) ->
  preserves R (mergeRefs E fuel baseDir o f j).
Proof.
  intros R_getOrCreate R_setContent.
  apply (closed_mergeRefs E (fun A => @preserves R A));
    auto using @preserves_ret, @preserves_throw, @preserves_outOfFuel,
               @preserves_bind, preserves_getManager.
Qed.

(** The whole of [merge], for a relation that does not look at the
    manager or at the log. *)
Hypothesis R_blind : forall s m lg, R s (mkState m (cache s) lg).

Lemma blind_setManager m : preserves R (setManager m).
Proof. intros s. apply R_blind. Qed.

Lemma blind_getOrCreate type url : preserves R (getOrCreate E type url).
Proof.
  apply (closed_getOrCreate E (fun A => @preserves R A));
    auto using @preserves_ret, @preserves_throw, @preserves_bind,
               preserves_getManager, blind_setManager.
Qed.

Lemma blind_setContent cmp v : preserves R (setContent cmp v).
Proof. intros s. unfold setContent, bind, getManager, setManager. apply R_blind. Qed.

Lemma blind_merge fuel doc docPath : preserves R (merge E fuel doc docPath).
Proof.
  apply (closed_merge E (fun A => @preserves R A));
    auto using @preserves_ret, @preserves_throw, @preserves_outOfFuel,
               @preserves_bind, preserves_getManager, blind_setManager,
               blind_getOrCreate, blind_setContent.
Qed.

End Preservation.

(* ===================================================================== *)
(** ** The fetch cache outlives a merge *)
(* ===================================================================== *)

Lemma cacheKept_refl s : cacheKept s s.
Proof. intros url _; reflexivity. Qed.

Lemma cacheKept_trans s t u : cacheKept s t -> cacheKept t u -> cacheKept s u.
Proof.
  intros H1 H2 url Ht. rewrite <- (H1 url Ht). apply H2. rewrite (H1 url Ht). exact Ht.
Qed.

Lemma cacheKept_same_cache s s' : cache s' = cache s -> cacheKept s s'.
Proof. intros H url _. rewrite H. reflexivity. Qed.

Lemma cacheGet_set_other url url' doc c :
  url' <> url -> cacheGet (props_set url doc c) url' = cacheGet c url'.
Proof. intros H. unfold cacheGet. apply (get_set_other c url url' doc H). Qed.

Lemma cacheGet_set_same url doc c : cacheGet (props_set url doc c) url = doc.
Proof. unfold cacheGet. apply (get_set_same c url doc). Qed.

(** Storing a document under a URL that [download] would not serve keeps
    every entry it would serve. *)
Lemma cacheKept_store s url doc lg :
  truthy (cacheGet (cache s) url) = false ->
  cacheKept s (mkState (manager s) (props_set url doc (cache s)) lg).
Proof.
  intros Hmiss url' Ht. simpl.
  destruct (String.eqb url' url) eqn:Eu.
  - apply String.eqb_eq in Eu; subst. rewrite Hmiss in Ht; discriminate.
  - apply cacheGet_set_other. apply String.eqb_neq; exact Eu.
Qed.

Lemma download_cacheKept fetch loadYAML parseJSON url :
  preserves cacheKept (download fetch loadYAML parseJSON url).
Proof.
  intros s. unfold download, bind, getCache.
  destruct (truthy (cacheGet (cache s) url)) eqn:Hc; simpl.
  - apply cacheKept_refl.
  - destruct (fetch url) as [|res]; simpl.
    + apply cacheKept_same_cache; reflexivity.
    + destruct (ok res); simpl.
      * destruct (text res) as [body|]; simpl;
          [| apply cacheKept_same_cache; reflexivity].
        destruct (endsWith url ".yml" || endsWith url ".yaml")%bool; simpl.
        { destruct (loadYAML body); simpl;
            [apply (cacheKept_store s url _ _ Hc) | apply cacheKept_same_cache; reflexivity]. }
        destruct (endsWith url ".json"); simpl.
        { destruct (parseJSON body); simpl;
            [apply (cacheKept_store s url _ _ Hc) | apply cacheKept_same_cache; reflexivity]. }
        destruct (loadYAML body); simpl;
          [apply (cacheKept_store s url _ _ Hc) | apply cacheKept_same_cache; reflexivity].
      * apply cacheKept_same_cache; reflexivity.
Qed.

Lemma merge_cacheKept E fuel doc docPath :
  preserves cacheKept (merge E fuel doc docPath).
Proof.
  apply blind_merge.
  - apply cacheKept_refl.
  - apply cacheKept_trans.
  - intros lv msg s. apply cacheKept_same_cache; reflexivity.
  - intros url. apply download_cacheKept.
  - intros s m lg. apply cacheKept_same_cache; reflexivity.
Qed.


(* ===================================================================== *)
(** ** One Component per (class, target) *)
(* ===================================================================== *)

Lemma regGrows_refl s : regGrows s s.
Proof.
  split; [reflexivity|]. split; [exists []; rewrite app_nil_r; reflexivity | auto].
Qed.

Lemma regGrows_trans s t u : regGrows s t -> regGrows t u -> regGrows s u.
Proof.
  intros [Hn1 [[x1 Hx1] Hd1]] [Hn2 [[x2 Hx2] Hd2]].
  split; [congruence|]. split; [| auto].
  exists (x1 ++ x2). rewrite Hx2, Hx1, app_assoc. reflexivity.
Qed.

Lemma regGrows_same_manager s s' : manager s' = manager s -> regGrows s s'.
Proof.
  intros H. unfold regGrows. rewrite H.
  split; [reflexivity|]. split; [exists []; rewrite app_nil_r; reflexivity | auto].
Qed.

Lemma cfixed_setContentIn type url v l :
  map cfixed (setContentIn type url v l) = map cfixed l.
Proof.
  unfold setContentIn. rewrite map_map. apply map_ext.
  intros c. destruct (sameKey type url c); reflexivity.
Qed.

Lemma ckey_of_cfixed l l' :
  map cfixed l = map cfixed l' -> map ckey l = map ckey l'.
Proof.
  intros H.
  assert (Hk : forall x, map ckey x = map fst (map cfixed x)).
  { intros x. rewrite map_map. reflexivity. }
  rewrite !Hk, H. reflexivity.
Qed.

Lemma regGrows_setContent s type url v :
  regGrows s (mkState (mgr_setContent (manager s) type url v) (cache s) (logged s)).
Proof.
  unfold regGrows; simpl. split; [reflexivity|]. split.
  - exists []. rewrite app_nil_r. apply cfixed_setContentIn.
  - intros Hnd. rewrite (ckey_of_cfixed _ _ (cfixed_setContentIn type url v _)). exact Hnd.
Qed.

Lemma download_sameManager fetch loadYAML parseJSON url :
  preserves sameManager (download fetch loadYAML parseJSON url).
Proof.
  intros s. unfold download, bind, getCache, sameManager.
  destruct (truthy (cacheGet (cache s) url)); simpl; [reflexivity|].
  destruct (fetch url) as [|res]; simpl; [reflexivity|].
  destruct (ok res); simpl; [| reflexivity].
  destruct (text res) as [body|]; simpl; [| reflexivity].
  destruct (endsWith url ".yml" || endsWith url ".yaml")%bool; simpl.
  { destruct (loadYAML body); reflexivity. }
  destruct (endsWith url ".json"); simpl.
  { destruct (parseJSON body); reflexivity. }
  destruct (loadYAML body); reflexivity.
Qed.

Lemma sameManager_trans s t u : sameManager s t -> sameManager t u -> sameManager s u.
Proof. unfold sameManager; congruence. Qed.

Lemma initialContent_sameManager E url : preserves sameManager (initialContent E url).
Proof.
  assert (Hr : forall s, sameManager s s) by reflexivity.
  apply (closed_initialContent E (fun A => @preserves sameManager A)); intros;
    first [ apply download_sameManager
          | apply preserves_ret; assumption
          | apply preserves_throw; assumption
          | apply preserves_bind; [exact sameManager_trans | assumption | assumption] ].
Qed.

Lemma find_none_notin type url l :
  find (sameKey type url) l = None -> ~ In (type, url) (map ckey l).
Proof.
  induction l as [|c r IH]; simpl; intros H; [tauto|].
  destruct (sameKey type url c) eqn:Ek; [discriminate|].
  intros [Hc | Hin]; [| exact (IH H Hin)].
  unfold ckey in Hc. injection Hc as Ht Hu. unfold sameKey in Ek.
  rewrite Ht, Hu, !String.eqb_refl in Ek. discriminate.
Qed.

Lemma NoDup_snoc {A} (l : list A) x : NoDup l -> ~ In x l -> NoDup (l ++ [x]).
Proof.
  intros Hnd Hx. induction Hnd as [|y l Hy Hnd IH]; simpl.
  - constructor; [tauto | constructor].
  - constructor.
    + rewrite in_app_iff. intros [H | [H | []]]; [tauto|]. subst. apply Hx; left; reflexivity.
    + apply IH. intros H; apply Hx; right; exact H.
Qed.

(** What [getOrCreate] does to the state, and what it returns. *)
Lemma getOrCreate_found E type url s c :
  mgr_find (manager s) type url = Some c ->
  getOrCreate E type url s = Ok c s.
Proof. intros H. unfold getOrCreate, bind, getManager. rewrite H. reflexivity. Qed.

Lemma getOrCreate_regGrows E type url : preserves regGrows (getOrCreate E type url).
Proof.
  intros s. unfold getOrCreate, bind at 1, getManager.
  destruct (mgr_find (manager s) type url) eqn:Hf.
  - apply regGrows_refl.
  - unfold bind at 1.
    pose proof (initialContent_sameManager E url s) as Hi.
    destruct (initialContent E url s) as [c0 s1|e s1|]; [| | exact I].
    + unfold bind, setManager, ret; simpl. unfold sameManager in Hi.
      unfold regGrows; simpl. split; [reflexivity|]. split.
      * eexists. rewrite map_app. reflexivity.
      * intros Hnd. rewrite map_app. apply NoDup_snoc; [exact Hnd|].
        simpl. apply find_none_notin. exact Hf.
    + apply regGrows_same_manager. exact Hi.
Qed.

Lemma setContent_regGrows cmp v : preserves regGrows (setContent cmp v).
Proof.
  intros s. unfold setContent, bind, getManager, setManager. apply regGrows_setContent.
Qed.

Lemma mergeRefs_regGrows E fuel baseDir o f j :
  preserves regGrows (mergeRefs E fuel baseDir o f j).
Proof.
  apply preserves_mergeRefs.
  - apply regGrows_refl.
  - apply regGrows_trans.
  - intros lv msg s. apply regGrows_same_manager; reflexivity.
  - intros url s. pose proof (download_sameManager (env_fetch E) (env_loadYAML E)
                                (env_parseJSON E) url s) as H.
    unfold fetchDoc. destruct (download _ _ _ url s); auto using regGrows_same_manager.
  - apply getOrCreate_regGrows.
  - apply setContent_regGrows.
Qed.

Lemma sameKey_cfixed type url c c' :
  cfixed c = cfixed c' -> sameKey type url c = sameKey type url c'.
Proof. unfold cfixed, sameKey. intros H. injection H as -> -> _. reflexivity. Qed.

(** A Component found under a key is still the one found under it, with
    the same name, after the registry has grown. *)
Lemma find_grown type url l : forall l' extra c,
  map cfixed l' = map cfixed l ++ extra ->
  find (sameKey type url) l = Some c ->
  exists c', find (sameKey type url) l' = Some c' /\ cfixed c' = cfixed c.
Proof.
  induction l as [|x r IH]; intros l' extra c Hm Hf; simpl in *; [discriminate|].
  destruct l' as [|x' r']; simpl in Hm; [discriminate|].
  assert (Hx : cfixed x' = cfixed x) by exact (f_equal (hd (cfixed x)) Hm).
  assert (Hr : map cfixed r' = map cfixed r ++ extra) by exact (f_equal (@tl _) Hm).
  simpl. rewrite (sameKey_cfixed type url x' x Hx).
  destruct (sameKey type url x) eqn:Ek.
  - injection Hf as <-. exists x'; auto.
  - eapply IH; eauto.
Qed.

Lemma filter_none_notin type url l :
  ~ In (type, url) (map ckey l) -> filter (sameKey type url) l = [].
Proof.
  induction l as [|c r IH]; simpl; intros H; [reflexivity|].
  destruct (sameKey type url c) eqn:Ek.
  - exfalso. apply H. left. unfold sameKey in Ek.
    apply andb_true_iff in Ek. destruct Ek as [E1 E2].
    apply String.eqb_eq in E1, E2. unfold ckey. congruence.
  - apply IH. tauto.
Qed.

(** Without duplicate keys, a key that is found has one Component. *)
Lemma one_component type url l c :
  NoDup (map ckey l) -> find (sameKey type url) l = Some c ->
  List.length (filter (sameKey type url) l) = 1.
Proof.
  induction l as [|x r IH]; simpl; intros Hnd Hf; [discriminate|].
  inversion Hnd as [|? ? Hnotin Hnd']; subst.
  destruct (sameKey type url x) eqn:Ek.
  - simpl. f_equal. rewrite filter_none_notin; [reflexivity|].
    unfold sameKey in Ek. apply andb_true_iff in Ek. destruct Ek as [E1 E2].
    apply String.eqb_eq in E1, E2. unfold ckey in Hnotin. rewrite E1, E2 in Hnotin.
    exact Hnotin.
  - apply IH; assumption.
Qed.

Lemma find_snoc_absent {A} (f : A -> bool) l x :
  find f l = None -> find f (l ++ [x]) = if f x then Some x else None.
Proof.
  induction l as [|y r IH]; simpl; intros H; [reflexivity|].
  destruct (f y); [discriminate | auto].
Qed.

Lemma getOrCreate_registers E type url s c s1 :
  getOrCreate E type url s = Ok c s1 ->
  mgr_find (manager s1) type url = Some c.
Proof.
  unfold getOrCreate, bind at 1, getManager.
  destruct (mgr_find (manager s) type url) eqn:Hf.
  - intros H; injection H as <- <-. exact Hf.
  - unfold bind at 1.
    destruct (initialContent E url s) as [c0 s1'|e s1'|]; try discriminate.
    unfold bind, setManager, ret; simpl. intros H; injection H as <- <-.
    unfold mgr_find; simpl. unfold mgr_find in Hf.
    rewrite (find_snoc_absent _ _ _ Hf). unfold sameKey; simpl.
    rewrite !String.eqb_refl. reflexivity.
Qed.

Lemma getLocalRef_cfixed c c' : cfixed c' = cfixed c -> getLocalRef c' = getLocalRef c.
Proof.
  unfold cfixed, getLocalRef. intros H. injection H as Ht Hu Hn.
  rewrite Ht, Hn. reflexivity.
Qed.


(* ===================================================================== *)
(** ** The cycle guard of [handleRef] *)
(* ===================================================================== *)

Lemma find_exists type url l c :
  find (sameKey type url) l = Some c ->
  existsb (fun c => String.eqb (curl c) url) l = true.
Proof.
  induction l as [|x r IH]; simpl; intros H; [discriminate|].
  destruct (sameKey type url x) eqn:Ek.
  - unfold sameKey in Ek. apply andb_true_iff in Ek. destruct Ek as [_ Eu].
    rewrite Eu. reflexivity.
  - rewrite (IH H). apply orb_true_r.
Qed.

Section CycleGuard.

Variable E : Env.
Variable baseDir : string.
Variable mergeRefsRec : Node -> string -> string -> M Node.
Variable handleIncludeRec : Node -> string -> Node -> string -> string -> M (Node * Node).

(** [handleRef] up to the point where the Component has been obtained. *)
Lemma handleRefBody_obtained obj0 key val file jsonPath s
      pRef pFile target nextFile s1 cmp s2 :
  env_parseUrl E val = Some pRef ->
  env_parseUrl E (Str file) = Some pFile ->
  env_shouldInclude E (env_getRefType E jsonPath) = false ->
  refTarget E pRef pFile val
    (mkState (manager s) (cache s)
       ((LDebug, "ref    : " ++ jsonPath ++ " file=" ++ env_relative E baseDir file)%string
          :: logged s))
  = Ok (Some (target, nextFile)) s1 ->
  getOrCreate E (env_getRefType E jsonPath) target s1 = Ok cmp s2 ->
  handleRefBody E baseDir mergeRefsRec handleIncludeRec obj0 key val file jsonPath s
  = rewriteRef mergeRefsRec
      (set_prop obj0 key (env_mergeOrOverwrite E (get_prop obj0 key) val))
      key jsonPath (mgr_exists (manager s1) target) cmp nextFile s2.
Proof.
  intros Hp Hf Hs Ht Hg.
  unfold handleRefBody.
  bind_step ltac:(reflexivity).
  bind_step ltac:(unfold parseUrlM; rewrite Hp; reflexivity).
  bind_step ltac:(unfold parseUrlM; rewrite Hf; reflexivity).
  rewrite Hs.
  bind_step ltac:(exact Ht).
  bind_step ltac:(reflexivity).
  bind_step ltac:(exact Hg).
  reflexivity.
Qed.

(** A reference directive whose target is registered when the directive
    is handled is rewritten to the local pointer of its Component and
    nothing else happens; a directive whose target is not registered has
    its target registered before the engine is called on the content. *)
Lemma handleRef_guard obj0 key val file jsonPath s
      pRef pFile target nextFile s1 cmp s2 :
  env_parseUrl E val = Some pRef ->
  env_parseUrl E (Str file) = Some pFile ->
  env_shouldInclude E (env_getRefType E jsonPath) = false ->
  refTarget E pRef pFile val
    (mkState (manager s) (cache s)
       ((LDebug, "ref    : " ++ jsonPath ++ " file=" ++ env_relative E baseDir file)%string
          :: logged s))
  = Ok (Some (target, nextFile)) s1 ->
  getOrCreate E (env_getRefType E jsonPath) target s1 = Ok cmp s2 ->
  let obj := set_prop obj0 key (env_mergeOrOverwrite E (get_prop obj0 key) val) in
  let rewritten := set_prop obj key (Str (getLocalRef cmp)) in
  (mgr_exists (manager s1) target = true ->
   handleRefBody E baseDir mergeRefsRec handleIncludeRec obj0 key val file jsonPath s
   = Ok rewritten s2) /\
  (mgr_exists (manager s1) target = false ->
   mgr_exists (manager s2) target = true /\
   handleRefBody E baseDir mergeRefsRec handleIncludeRec obj0 key val file jsonPath s
   = (c <- mergeRefsRec (content cmp) nextFile (jsonPath ++ "." ++ key)%string ;;
      setContent cmp c ;;;
      ret rewritten) s2).
Proof.
  intros Hp Hf Hs Ht Hg obj rewritten.
  rewrite (handleRefBody_obtained _ _ _ _ _ _ _ _ _ _ _ _ _ Hp Hf Hs Ht Hg).
  fold obj. split; intros Hex; rewrite Hex.
  - reflexivity.
  - split; [| reflexivity].
    pose proof (getOrCreate_registers _ _ _ _ _ _ Hg) as Hfind.
    unfold mgr_exists. eapply find_exists. exact Hfind.
Qed.

End CycleGuard.

(* ===================================================================== *)
(** ** Reference cycles end *)
(* ===================================================================== *)

Lemma depth_props k v (l : Props) :
  In (k, v) l ->
  depth v <= (fix depthProps (l : Props) {struct l} : nat :=
                match l with
                | [] => 0
                | (_, v) :: r => Nat.max (depth v) (depthProps r)
                end) l.
Proof.
  induction l as [|[k0 v0] r IH]; intros H; [contradiction|].
  destruct H as [H|H].
  - injection H as -> ->. apply Nat.le_max_l.
  - etransitivity; [apply IH; exact H | apply Nat.le_max_r].
Qed.

Lemma depth_elems k v es : forall i,
  In (k, v) (index_from i es) ->
  depth v <= (fix depthElems (l : list Node) {struct l} : nat :=
                match l with
                | [] => 0
                | x :: r => Nat.max (depth x) (depthElems r)
                end) es.
Proof.
  induction es as [|x r IH]; intros i H; [contradiction|].
  destruct H as [H|H].
  - injection H as _ ->. apply Nat.le_max_l.
  - etransitivity; [apply (IH _ H) | apply Nat.le_max_r].
Qed.

(** The values of the entries of a document are less deep than it. *)
Lemma depth_entries n k v : In (k, v) (entries n) -> depth v < depth n.
Proof.
  destruct n as [| | | | | inc es ps | ps]; cbn [entries]; try contradiction.
  - intros H. apply in_app_or in H. cbn [depth]. apply Nat.lt_succ_r.
    destruct H as [H|H].
    + etransitivity; [apply (depth_elems _ _ _ _ H) | apply Nat.le_max_l].
    + etransitivity; [apply (depth_props _ _ _ H) | apply Nat.le_max_r].
  - intros H. cbn [depth]. apply Nat.lt_succ_r. apply (depth_props _ _ _ H).
Qed.

Lemma closedEntries_app E U file jp l l' :
  closedEntries E U file jp l -> closedEntries E U file jp l' ->
  closedEntries E U file jp (l ++ l').
Proof.
  induction l as [|[k v] r IH]; cbn [closedEntries app]; [auto|].
  intros [H1 H2] H3. split; auto.
Qed.

(** A closed document has closed entries. *)
Lemma closedDoc_entries E U file jp n :
  closedDoc E U file jp n -> closedEntries E U file jp (entries n).
Proof.
  assert (Hp : forall l,
             (fix closedProps (l : Props) {struct l} : Prop :=
                match l with
                | [] => True
                | (k, v) :: r =>
                    entryWithin E U file jp k v
                      (closedDoc E U file (jp ++ "." ++ k) v)
                    /\ closedProps r
                end) l -> closedEntries E U file jp l).
  { induction l as [|[k v] r IH]; cbn [closedEntries]; [auto|].
    intros [H1 H2]. split; auto. }
  destruct n as [| | | | | inc es ps | ps]; cbn [entries closedEntries];
    try (intros _; exact I).
  - cbn [closedDoc]. intros [He Hps].
    apply closedEntries_app; [| apply Hp; exact Hps].
    clear Hps. revert He. generalize 0%N.
    induction es as [|x r IH]; intros i; cbn [index_from closedEntries]; [auto|].
    intros [H1 H2]. split; [exact H1 | apply IH; exact H2].
  - cbn [closedDoc]. apply Hp.
Qed.

(** *** Computations that do not use the depth *)

Lemma runs_ret {A} (a : A) : runs (ret a).
Proof. intros s; discriminate. Qed.

Lemma runs_throw {A} e : runs (@throw A e).
Proof. intros s; discriminate. Qed.

Lemma runs_bind {A B} (m : M A) (f : A -> M B) :
  runs m -> (forall a, runs (f a)) -> runs (bind m f).
Proof.
  intros Hm Hf s. unfold bind. specialize (Hm s).
  destruct (m s) as [a s1|e s1|]; [apply Hf | discriminate | contradiction].
Qed.

Lemma runs_getManager : runs getManager.
Proof. intros s; discriminate. Qed.

Lemma runs_setManager m : runs (setManager m).
Proof. intros s; discriminate. Qed.

Lemma runs_log lv msg : runs (logMsg lv msg).
Proof. intros s; discriminate. Qed.

Lemma runs_download fetch loadYAML parseJSON url :
  runs (download fetch loadYAML parseJSON url).
Proof.
  intros s. unfold download, bind, getCache.
  destruct (truthy (cacheGet (cache s) url)); simpl; [discriminate|].
  destruct (fetch url) as [|res]; simpl; [discriminate|].
  destruct (ok res); simpl; [| discriminate].
  destruct (text res) as [body|]; simpl; [| discriminate].
  destruct (endsWith url ".yml" || endsWith url ".yaml")%bool; simpl.
  { destruct (loadYAML body); discriminate. }
  destruct (endsWith url ".json"); simpl.
  { destruct (parseJSON body); discriminate. }
  destruct (loadYAML body); discriminate.
Qed.

Lemma runs_getOrCreate E type url : runs (getOrCreate E type url).
Proof.
  apply (closed_getOrCreate E (fun A => @runs A)); intros;
    first [ apply runs_ret | apply runs_throw | apply runs_bind; assumption
          | apply runs_getManager | apply runs_download | apply runs_setManager ].
Qed.

Lemma runs_setContent cmp v : runs (setContent cmp v).
Proof. intros s; discriminate. Qed.

Lemma runs_parseUrlM E v : runs (parseUrlM E v).
Proof. unfold parseUrlM. destruct (env_parseUrl E v); [apply runs_ret | apply runs_throw]. Qed.

Lemma runs_refTarget E pRef pFile val : runs (refTarget E pRef pFile val).
Proof.
  apply (closed_refTarget E (fun A => @runs A)); intros;
    first [ apply runs_ret | apply runs_throw | apply runs_bind; assumption
          | apply runs_getManager ].
Qed.

(** The first computation of a sequence runs: the sequence runs if what
    follows does. *)
Lemma bind_runs {A B} (m : M A) (f : A -> M B) s :
  runs m ->
  (forall a s1, m s = Ok a s1 -> f a s1 <> OutOfFuel) ->
  bind m f s <> OutOfFuel.
Proof.
  intros Hm Hf. unfold bind. specialize (Hm s).
  destruct (m s) as [a s1|e s1|] eqn:Em; [apply Hf; reflexivity | discriminate | contradiction].
Qed.

(** *** Computations that leave the state as it is *)

Lemma unchanged_parseUrlM E v : preserves unchanged (parseUrlM E v).
Proof.
  unfold parseUrlM. intros s. destruct (env_parseUrl E v); reflexivity.
Qed.

Lemma unchanged_refTarget E pRef pFile val : preserves unchanged (refTarget E pRef pFile val).
Proof.
  assert (Hr : forall s, unchanged s s) by reflexivity.
  assert (Ht : forall s t u, unchanged s t -> unchanged t u -> unchanged s u)
    by (unfold unchanged; intros; congruence).
  apply (closed_refTarget E (fun A => @preserves unchanged A)); intros;
    first [ apply preserves_ret; assumption
          | apply preserves_throw; assumption
          | apply preserves_bind; assumption
          | apply preserves_getManager; assumption ].
Qed.

(** *** The registry only grows *)

Lemma existsb_grown url l : forall l' extra,
  map cfixed l' = map cfixed l ++ extra ->
  existsb (fun c => String.eqb (curl c) url) l = true ->
  existsb (fun c => String.eqb (curl c) url) l' = true.
Proof.
  induction l as [|x r IH]; intros l' extra Hm He; cbn [existsb] in He; [discriminate|].
  destruct l' as [|x' r']; [discriminate|].
  assert (Hx : cfixed x' = cfixed x) by exact (f_equal (hd (cfixed x)) Hm).
  assert (Hr : map cfixed r' = map cfixed r ++ extra) by exact (f_equal (@tl _) Hm).
  cbn [existsb].
  assert (Hu : curl x' = curl x) by (unfold cfixed in Hx; congruence).
  rewrite Hu. apply orb_true_iff in He. apply orb_true_iff.
  destruct He as [He|He]; [left; exact He | right; eapply IH; eauto].
Qed.

Lemma exists_grows s s' url :
  regGrows s s' -> mgr_exists (manager s) url = true -> mgr_exists (manager s') url = true.
Proof. intros [_ [[extra Hx] _]]. unfold mgr_exists. eapply existsb_grown; eauto. Qed.

Lemma filter_count_le {A} (f g : A -> bool) l :
  (forall x, g x = true -> f x = true) ->
  List.length (filter g l) <= List.length (filter f l).
Proof.
  intros H. induction l as [|x r IH]; cbn [filter]; [lia|].
  destruct (g x) eqn:G.
  - rewrite (H x G). cbn [List.length]. lia.
  - destruct (f x); cbn [List.length]; lia.
Qed.

Lemma filter_count_lt {A} (f g : A -> bool) l x :
  (forall y, g y = true -> f y = true) ->
  In x l -> f x = true -> g x = false ->
  List.length (filter g l) < List.length (filter f l).
Proof.
  intros H. induction l as [|y r IH]; intros Hin Hf Hg; [contradiction|].
  cbn [filter]. destruct Hin as [->|Hin].
  - rewrite Hf, Hg. cbn [List.length]. pose proof (filter_count_le f g r H). lia.
  - specialize (IH Hin Hf Hg). destruct (g y) eqn:G.
    + rewrite (H y G). cbn [List.length]. lia.
    + destruct (f y); cbn [List.length]; lia.
Qed.

Lemma unregistered_le U s s' :
  regGrows s s' -> unregistered U (manager s') <= unregistered U (manager s).
Proof.
  intros Hg. unfold unregistered. apply filter_count_le.
  intros p Hp. apply negb_true_iff in Hp. apply negb_true_iff.
  destruct (mgr_exists (manager s) (fst p)) eqn:Ex; [| reflexivity].
  rewrite (exists_grows _ _ _ Hg Ex) in Hp. discriminate.
Qed.

Lemma unregistered_lt U s s' target nextFile :
  regGrows s s' ->
  In (target, nextFile) U ->
  mgr_exists (manager s) target = false ->
  mgr_exists (manager s') target = true ->
  unregistered U (manager s') < unregistered U (manager s).
Proof.
  intros Hg Hin H0 H1. unfold unregistered.
  apply (filter_count_lt _ _ U (target, nextFile)); auto.
  - intros p Hp. apply negb_true_iff in Hp. apply negb_true_iff.
    destruct (mgr_exists (manager s) (fst p)) eqn:Ex; [| reflexivity].
    rewrite (exists_grows _ _ _ Hg Ex) in Hp. discriminate.
  - cbn [fst]. rewrite H0. reflexivity.
  - cbn [fst]. rewrite H1. reflexivity.
Qed.

Lemma unregistered_bound U m : unregistered U m <= List.length U.
Proof.
  unfold unregistered. induction U as [|p r IH]; cbn [filter List.length]; [lia|].
  destruct (negb (mgr_exists m (fst p))); cbn [List.length]; lia.
Qed.

(** The three methods of the engine keep the registry growing. *)
Lemma engine_regGrows E fuel baseDir :
  (forall o f j, preserves regGrows (mergeRefs E fuel baseDir o f j)) /\
  (forall o k v f j, preserves regGrows (handleRef E fuel baseDir o k v f j)) /\
  (forall o k v f j, preserves regGrows (handleInclude E fuel baseDir o k v f j)).
Proof.
  pose proof regGrows_refl as Hr. pose proof regGrows_trans as Ht.
  apply (closed_engine E (fun A => @preserves regGrows A)); intros;
    first [ apply preserves_ret; assumption
          | apply preserves_throw; assumption
          | apply preserves_outOfFuel
          | apply preserves_bind; assumption
          | apply preserves_getManager; assumption
          | apply getOrCreate_regGrows
          | apply setContent_regGrows
          | idtac ].
  - intros s. apply regGrows_same_manager; reflexivity.
  - intros s. pose proof (download_sameManager (env_fetch E) (env_loadYAML E)
                            (env_parseJSON E) url s) as H.
    unfold fetchDoc. destruct (download _ _ _ url s); auto using regGrows_same_manager.
Qed.

Lemma exists_false_find_none m type url :
  mgr_exists m url = false -> mgr_find m type url = None.
Proof.
  unfold mgr_exists, mgr_find. intros H.
  destruct (find (sameKey type url) (components m)) as [c|] eqn:F; [| reflexivity].
  rewrite (find_exists _ _ _ _ F) in H. discriminate.
Qed.

(** The Component [getOrCreate] returns for a target that was not
    registered has the content [initialContent] gives, and the target is
    registered afterwards. *)
Lemma getOrCreate_new E type url s cmp s2 :
  mgr_exists (manager s) url = false ->
  getOrCreate E type url s = Ok cmp s2 ->
  (exists s1, initialContent E url s = Ok (content cmp) s1) /\
  mgr_exists (manager s2) url = true.
Proof.
  intros Hex Hg. split.
  - unfold getOrCreate, bind at 1, getManager in Hg.
    rewrite (exists_false_find_none _ type _ Hex) in Hg. unfold bind at 1 in Hg.
    destruct (initialContent E url s) as [c0 s1|e s1|]; try discriminate.
    unfold bind, setManager, ret in Hg. injection Hg as <- _.
    exists s1. reflexivity.
  - unfold mgr_exists. eapply find_exists. eapply getOrCreate_registers. exact Hg.
Qed.

Lemma bind_not_fuel {A B} (m : M A) (f : A -> M B) s :
  m s <> OutOfFuel ->
  (forall a s1, m s = Ok a s1 -> f a s1 <> OutOfFuel) ->
  bind m f s <> OutOfFuel.
Proof.
  intros Hm Hf. unfold bind.
  destruct (m s) as [a s1|e s1|] eqn:Em; [apply Hf; reflexivity | discriminate | contradiction].
Qed.

Lemma parseUrlM_ok E v p s s' :
  parseUrlM E v s = Ok p s' -> env_parseUrl E v = Some p /\ s' = s.
Proof.
  unfold parseUrlM. destruct (env_parseUrl E v); cbn; [| discriminate].
  intros H; injection H as <- <-. auto.
Qed.

Section Termination.

Variable E : Env.
Variable U : list (string * string).
Variable D : nat.
Variable baseDir : string.

Hypothesis world : closedWorld E U D.

(** [handleRef] at depth [S n], when [mergeRefs] at depth [n] runs on
    closed documents. *)
Lemma handleRef_runs n :
  (forall k d doc file jp s,
      closedDoc E U file jp doc -> depth doc <= d ->
      unregistered U (manager s) <= k ->
      d + 1 + k * (D + 2) <= n ->
      mergeRefs E n baseDir doc file jp s <> OutOfFuel) ->
  forall k obj key val file jp s,
    refWithin E U file jp val ->
    unregistered U (manager s) <= k ->
    1 + k * (D + 2) <= S n ->
    handleRef E (S n) baseDir obj key val file jp s <> OutOfFuel.
Proof.
  intros IHm k obj key val file jp s [Hsi Hin] Hk Hf.
  cbn [handleRef]. unfold handleRefBody.
  apply bind_runs; [apply runs_log|]. intros [] s1 Hlog.
  assert (Hm1 : manager s1 = manager s).
  { unfold logMsg in Hlog. injection Hlog as <-. reflexivity. }
  cbv zeta.
  apply bind_runs; [apply runs_parseUrlM|]. intros pRef s2 Hp.
  apply parseUrlM_ok in Hp. destruct Hp as [Hp ->].
  apply bind_runs; [apply runs_parseUrlM|]. intros pFile s3 Hpf.
  apply parseUrlM_ok in Hpf. destruct Hpf as [Hpf ->].
  rewrite Hsi.
  apply bind_runs; [apply runs_refTarget|]. intros t s4 Ht.
  pose proof (preserves_ok _ _ _ _ _ (unchanged_refTarget E pRef pFile val) Ht) as Hs4.
  unfold unchanged in Hs4. subst s4.
  destruct t as [[target nextFile]|]; [| discriminate].
  pose proof (Hin _ _ _ _ _ _ Hp Hpf Ht) as HinU.
  apply bind_runs; [apply runs_getManager|]. intros m s5 Hgm.
  unfold getManager in Hgm. injection Hgm as <- <-.
  apply bind_runs; [apply runs_getOrCreate|]. intros cmp s6 Hg.
  unfold rewriteRef. cbv zeta.
  destruct (mgr_exists (manager s1) target) eqn:Hex; cbn [negb]; [discriminate|].
  destruct (getOrCreate_new _ _ _ _ _ _ Hex Hg) as [[s' Hic] Hex'].
  destruct (world _ _ HinU _ _ _ Hic) as [Hd Hcl].
  pose proof (preserves_ok _ _ _ _ _ (getOrCreate_regGrows E _ _) Hg) as Hgrow.
  pose proof (unregistered_lt U _ _ _ _ Hgrow HinU Hex Hex') as Hlt.
  rewrite Hm1 in Hlt.
  apply bind_not_fuel.
  - destruct k as [|k']; [lia|].
    apply (IHm k' D); auto; [lia|].
    cbn [Nat.mul] in Hf. lia.
  - intros c s7 _. apply (runs_bind _ _ (runs_setContent cmp c) (fun _ => runs_ret _)).
Qed.

(** The loop of [mergeRefs] at depth [S n], when [mergeRefs] and
    [handleRef] at depth [n] run. *)
Lemma mergeEntries_runs n k d file jp :
  (forall doc file jp s,
      closedDoc E U file jp doc -> depth doc <= d ->
      unregistered U (manager s) <= k ->
      mergeRefs E n baseDir doc file jp s <> OutOfFuel) ->
  (forall obj key val file jp s,
      refWithin E U file jp val ->
      unregistered U (manager s) <= k ->
      handleRef E n baseDir obj key val file jp s <> OutOfFuel) ->
  forall es,
    closedEntries E U file jp es ->
    (forall key val, In (key, val) es -> depth val <= d) ->
    forall ret0 s,
      unregistered U (manager s) <= k ->
      mergeEntries E (mergeRefs E n baseDir) (handleInclude E n baseDir)
        (handleRef E n baseDir) file jp es ret0 s <> OutOfFuel.
Proof.
  intros Hm Hr es. induction es as [|[key val] rest IH]; intros Hc Hd ret0 s Hk.
  - discriminate.
  - cbn [closedEntries] in Hc. destruct Hc as [Hentry Hrest].
    cbn [mergeEntries].
    assert (Hgrow : preserves regGrows
              (mergeEntry E (mergeRefs E n baseDir) (handleInclude E n baseDir)
                 (handleRef E n baseDir) file jp ret0 (key, val))).
    { destruct (engine_regGrows E n baseDir) as [G1 [G2 G3]].
      pose proof regGrows_refl as Hrf. pose proof regGrows_trans as Htr.
      apply (closed_mergeEntry E (fun A => @preserves regGrows A)); intros;
        first [ apply preserves_ret; assumption
              | apply preserves_bind; assumption
              | apply G1 | apply G2 | apply G3 ]. }
    apply bind_not_fuel.
    + unfold mergeEntry. unfold entryWithin in Hentry.
      destruct (isRef key jp).
      * apply Hr; assumption.
      * destruct Hentry as [Hni Hsub]. rewrite Hni.
        apply bind_not_fuel.
        -- apply Hm; auto. apply (Hd key). left; reflexivity.
        -- intros merged s1 _.
           destruct (isIncludedArray merged && isArray ret0)%bool; discriminate.
    + intros r s1 Hs1. apply IH; auto.
      * intros key' val' Hin. apply (Hd key'). right; exact Hin.
      * pose proof (unregistered_le U _ _ (preserves_ok _ _ _ _ _ Hgrow Hs1)). lia.
Qed.

(** [mergeRefs] and [handleRef] run on closed documents once the depth
    allowed covers the document and, for each target that is not
    registered, the content of a target. *)
Lemma engine_runs n :
  (forall k d doc file jp s,
      closedDoc E U file jp doc -> depth doc <= d ->
      unregistered U (manager s) <= k ->
      d + 1 + k * (D + 2) <= n ->
      mergeRefs E n baseDir doc file jp s <> OutOfFuel) /\
  (forall k obj key val file jp s,
      refWithin E U file jp val ->
      unregistered U (manager s) <= k ->
      1 + k * (D + 2) <= n ->
      handleRef E n baseDir obj key val file jp s <> OutOfFuel).
Proof.
  induction n as [|n [IHm IHr]].
  - split; intros; lia.
  - split.
    + intros k d doc file jp s Hc Hd Hk Hf.
      cbn [mergeRefs]. unfold mergeRefsBody.
      destruct (isObject doc) eqn:Ho; cbn [negb]; [| discriminate].
      destruct d as [|d'].
      { destruct doc; cbn in Hd; try discriminate; lia. }
      apply (mergeEntries_runs n k d' file jp).
      * intros doc' file' jp' s' Hc' Hd' Hk'. apply (IHm k d'); auto. lia.
      * intros obj key val file' jp' s' Hw Hk'. apply (IHr k); auto. lia.
      * apply closedDoc_entries. exact Hc.
      * intros key val Hin. pose proof (depth_entries _ _ _ Hin). lia.
      * exact Hk.
    + apply handleRef_runs. exact IHm.
Qed.

End Termination.

Lemma runs_setComponents doc v : runs (setComponents doc v).
Proof.
  unfold setComponents. destruct (isObject doc); [apply runs_ret | apply runs_throw].
Qed.

(** [merge] returns or throws on a closed document of a closed world, once
    the depth allowed covers the document and the contents of the
    targets. *)
Lemma merge_runs E U D fuel doc docPath s :
  closedWorld E U D ->
  (forall p, env_parseUrl E (Str (env_resolveCwd E docPath)) = Some p ->
             closedDoc E U (path p) "$" doc) ->
  depth doc + 1 + List.length U * (D + 2) <= fuel ->
  merge E fuel doc docPath s <> OutOfFuel.
Proof.
  intros Hw Hroot Hf. unfold merge. cbv zeta.
  apply bind_runs; [apply runs_parseUrlM|]. intros p s1 Hp.
  apply parseUrlM_ok in Hp. destruct Hp as [Hp ->].
  specialize (Hroot p Hp).
  destruct (engine_runs E U D (env_dirname E (env_resolveCwd E docPath)) Hw fuel)
    as [Hm _].
  apply bind_runs; [apply runs_setManager|]. intros [] s2 Hs2.
  apply bind_not_fuel.
  { apply (Hm (List.length U) (depth doc)); auto. apply unregistered_bound. }
  intros _ s3 _.
  apply bind_runs; [apply runs_getManager|]. intros m1 s4 _.
  apply bind_runs; [apply runs_setManager|]. intros [] s5 _.
  apply bind_not_fuel.
  { apply (Hm (List.length U) (depth doc)); auto. apply unregistered_bound. }
  intros doc' s6 _.
  apply bind_runs; [apply runs_getManager|]. intros m2 s7 _.
  apply runs_setComponents.
Qed.

(** The registry [merge] ends with has one Component per key. *)
Lemma merge_registry_unique E fuel doc docPath s out s' :
  merge E fuel doc docPath s = Ok out s' ->
  NoDup (map ckey (components (manager s'))).
Proof.
  unfold merge. cbv zeta. intros H.
  apply bind_ok_inv in H. destruct H as [p [s1 [_ H]]].
  apply bind_ok_inv in H. destruct H as [[] [s2 [_ H]]].
  apply bind_ok_inv in H. destruct H as [d1 [s3 [_ H]]].
  apply bind_ok_inv in H. destruct H as [m1 [s4 [_ H]]].
  apply bind_ok_inv in H. destruct H as [[] [s5 [Hset H]]].
  apply bind_ok_inv in H. destruct H as [d2 [s6 [Hpass H]]].
  apply bind_ok_inv in H. destruct H as [m2 [s7 [Hgm H]]].
  unfold getManager in Hgm. injection Hgm as _ <-.
  assert (Hs : s' = s6).
  { unfold setComponents in H. destruct (isObject d2); [| discriminate].
    unfold ret in H. injection H as _ <-. reflexivity. }
  subst s'.
  pose proof (preserves_ok _ _ _ _ _ (mergeRefs_regGrows E fuel _ doc _ _) Hpass)
    as [_ [_ Hnd]].
  apply Hnd. unfold setManager in Hset. injection Hset as <-. constructor.
Qed.


(* ===================================================================== *)
(** ** Includes of a glob pattern *)
(* ===================================================================== *)

Lemma hasKey_props_set k k0 v l :
  hasKey k (props_set k0 v l) = true <-> k = k0 \/ hasKey k l = true.
Proof.
  unfold hasKey. destruct (String.eqb k k0) eqn:Ek.
  - apply String.eqb_eq in Ek; subst. rewrite lookup_props_set_same. tauto.
  - apply String.eqb_neq in Ek. rewrite (lookup_props_set_other _ _ _ _ Ek).
    split; [auto | intros [H|H]; [contradiction | exact H]].
Qed.

Section GlobInclude.

Variable E : Env.
Variable handleIncludeRec : Node -> string -> Node -> string -> string -> M (Node * Node).

Lemma includeFiles_mapping key file jsonPath mfs : forall l s content s',
  includeFiles E handleIncludeRec key file jsonPath mfs (Obj l) s = Ok content s' ->
  exists l',
    content = Obj l' /\
    (forall k, hasKey k l' = true <-> hasKey k l = true \/ In k (map (keyOfFile E) mfs)) /\
    (forall k, ~ In k (map (keyOfFile E) mfs) -> lookup k l' = lookup k l) /\
    (NoDup (map (keyOfFile E) mfs) ->
     forall mf, In mf mfs ->
       exists t r t',
         includeOne E handleIncludeRec key file jsonPath mf t = Ok r t' /\
         lookup (keyOfFile E mf) l' = Some (snd r)).
Proof.
  induction mfs as [|mf rest IH]; intros l s content s' H.
  - simpl in H. injection H as <- <-. exists l. repeat split; try tauto.
    + intros [H|[]]; exact H.
    + intros _ mf [].
  - cbn [includeFiles] in H. apply bind_ok_inv in H. destruct H as [r [s1 [Hr Hrest]]].
    change (set_prop (Obj l) (env_basename E mf (env_extname E mf)) (snd r))
      with (Obj (props_set (keyOfFile E mf) (snd r) l)) in Hrest.
    destruct (IH _ _ _ _ Hrest) as [l' [Hc [Hk [Ho Hv]]]].
    exists l'. split; [exact Hc|]. split; [|split].
    + intros k. rewrite Hk, hasKey_props_set. simpl. intuition.
    + intros k Hn. simpl in Hn. rewrite Ho by tauto.
      apply lookup_props_set_other. intros ->. tauto.
    + intros Hnd mf' Hin. simpl in Hnd. inversion Hnd as [|? ? Hnotin Hnd']; subst.
      destruct Hin as [<- | Hin].
      * exists s, r, s1. split; [exact Hr|].
        rewrite (Ho _ Hnotin). apply lookup_props_set_same.
      * apply Hv; assumption.
Qed.


End GlobInclude.

(* ===================================================================== *)
(** ** Two runs on the same input *)
(* ===================================================================== *)

Section Determinism.

Variable E : Env.

Lemma coherent_empty : coherent E [].
Proof. intros url H. discriminate. Qed.

Lemma coherent_store c url d :
  coherent E c -> fetched E url = Got d -> coherent E (props_set url d c).
Proof.
  intros Hc Hf url' Ht.
  destruct (String.eqb url' url) eqn:Eu.
  - apply String.eqb_eq in Eu; subst. rewrite cacheGet_set_same. exact Hf.
  - apply String.eqb_neq in Eu. rewrite (cacheGet_set_other _ _ _ _ Eu) in *.
    apply Hc; exact Ht.
Qed.

(** [download] of a URL that is not served from the cache. *)
Lemma download_miss url s :
  truthy (cacheGet (cache s) url) = false ->
  exists lg,
    fetchDoc E url s
    = match fetched E url with
      | Got d => Ok d (mkState (manager s) (props_set url d (cache s)) lg)
      | Failed => Ok emptyObj (mkState (manager s) (cache s) lg)
      | Thrown e => Throw e (mkState (manager s) (cache s) lg)
      end.
Proof.
  intros Hc. unfold fetchDoc, download, fetched, parseBody, bind, getCache.
  rewrite Hc. simpl.
  destruct (env_fetch E url) as [|res]; simpl; [eexists; reflexivity|].
  destruct (ok res); simpl; [| eexists; reflexivity].
  destruct (text res) as [body|]; simpl; [| eexists; reflexivity].
  destruct (endsWith url ".yml" || endsWith url ".yaml")%bool; simpl.
  { destruct (env_loadYAML E body); simpl; eexists; reflexivity. }
  destruct (endsWith url ".json"); simpl.
  { destruct (env_parseJSON E body); simpl; eexists; reflexivity. }
  destruct (env_loadYAML E body); simpl; eexists; reflexivity.
Qed.

Lemma download_hit url s :
  truthy (cacheGet (cache s) url) = true ->
  fetchDoc E url s = Ok (cacheGet (cache s) url) s.
Proof. intros H. unfold fetchDoc. apply download_cached. exact H. Qed.

Lemma agree_fetchDoc url : agree E (fetchDoc E url).
Proof.
  intros s t [Hm [Hs Ht]].
  destruct (truthy (cacheGet (cache s) url)) eqn:Cs;
    destruct (truthy (cacheGet (cache t) url)) eqn:Ct.
  - rewrite (download_hit _ _ Cs), (download_hit _ _ Ct).
    pose proof (Hs url Cs) as F1. pose proof (Ht url Ct) as F2.
    rewrite F1 in F2. injection F2 as F2. repeat split; auto.
  - rewrite (download_hit _ _ Cs).
    destruct (download_miss url t Ct) as [lg ->].
    rewrite (Hs url Cs). repeat split; simpl; auto.
    apply coherent_store; auto.
  - rewrite (download_hit _ _ Ct).
    destruct (download_miss url s Cs) as [lg ->].
    rewrite (Ht url Ct). repeat split; simpl; auto.
    apply coherent_store; auto.
  - destruct (download_miss url s Cs) as [lg ->].
    destruct (download_miss url t Ct) as [lg' ->].
    destruct (fetched E url) eqn:F; repeat split; simpl; auto;
      apply coherent_store; auto.
Qed.

Lemma agree_ret {A} (a : A) : agree E (ret a).
Proof. intros s t H. simpl. auto. Qed.

Lemma agree_throw {A} e : agree E (@throw A e).
Proof. intros s t H. simpl. auto. Qed.

Lemma agree_outOfFuel {A} : agree E (@outOfFuel A).
Proof. intros s t H. exact I. Qed.

Lemma agree_bind {A B} (m : M A) (f : A -> M B) :
  agree E m -> (forall a, agree E (f a)) -> agree E (bind m f).
Proof.
  intros Hm Hf s t Hst. unfold bind. specialize (Hm s t Hst).
  destruct (m s) as [a s1|e s1|]; destruct (m t) as [b t1|e' t1|]; try contradiction; auto.
  destruct Hm as [<- H1]. apply Hf. exact H1.
Qed.

Lemma agree_getManager : agree E getManager.
Proof. intros s t H. simpl. split; [apply H | exact H]. Qed.

Lemma agree_log lv msg : agree E (logMsg lv msg).
Proof. intros s t [Hm [Hs Ht]]. simpl. repeat split; auto. Qed.

Lemma agree_setManager m : agree E (setManager m).
Proof. intros s t [Hm [Hs Ht]]. simpl. repeat split; auto. Qed.

Lemma agree_setContent cmp v : agree E (setContent cmp v).
Proof.
  intros s t [Hm [Hs Ht]]. unfold setContent, bind, getManager, setManager.
  rewrite Hm. repeat split; auto.
Qed.

Lemma agree_getOrCreate type url : agree E (getOrCreate E type url).
Proof.
  apply (closed_getOrCreate E (fun A => @agree E A));
    auto using @agree_ret, @agree_throw, @agree_bind, agree_getManager,
               agree_fetchDoc, agree_setManager.
Qed.

Lemma agree_merge fuel doc docPath : agree E (merge E fuel doc docPath).
Proof.
  apply (closed_merge E (fun A => @agree E A));
    auto using @agree_ret, @agree_throw, @agree_outOfFuel, @agree_bind,
               agree_getManager, agree_log, agree_fetchDoc, agree_getOrCreate,
               agree_setContent, agree_setManager.
Qed.

(** [merge] starts by replacing the manager: the one it finds does not
    matter. *)
Lemma merge_ignores_manager fuel doc docPath s m p :
  env_parseUrl E (Str (env_resolveCwd E docPath)) = Some p ->
  merge E fuel doc docPath (mkState m (cache s) (logged s))
  = merge E fuel doc docPath s.
Proof.
  intros Hp. unfold merge. cbv zeta. unfold parseUrlM. rewrite Hp.
  rewrite (bind_ok (orThrow (Some p) _) _ s p s eq_refl).
  rewrite (bind_ok (orThrow (Some p) _) _ (mkState m (cache s) (logged s)) p _ eq_refl).
  reflexivity.
Qed.

Lemma merge_ok_parses fuel doc docPath s out s1 :
  merge E fuel doc docPath s = Ok out s1 ->
  exists p, env_parseUrl E (Str (env_resolveCwd E docPath)) = Some p.
Proof.
  unfold merge. cbv zeta. unfold parseUrlM.
  destruct (env_parseUrl E (Str (env_resolveCwd E docPath))) as [p|]; [eauto|].
  intros H. rewrite (bind_throw (orThrow None _) _ s _ s eq_refl) in H. discriminate.
Qed.

(** C5. With the network and the file system fixed, [merge] is a function
    of its input: from a state whose cache is coherent E with the network
    (as the empty cache of a fresh process is, and as every cache [merge]
    leaves behind is), a run that returns [out] is matched by any other
    run on the same input from such a state, and by a second run in the
    state the first one leaves: each returns the same document [out],
    component names and key order included. *)
Theorem merge_deterministic fuel doc docPath s out s1 :
  coherent E (cache s) ->
  merge E fuel doc docPath s = Ok out s1 ->
  (forall t, coherent E (cache t) ->
             exists t', merge E fuel doc docPath t = Ok out t') /\
  coherent E (cache s1) /\
  (exists s2, merge E fuel doc docPath s1 = Ok out s2).
Proof.
  intros Hs Hrun.
  assert (Hany : forall t, coherent E (cache t) ->
                 exists t', merge E fuel doc docPath t = Ok out t' /\ eqv E s1 t').
  { intros t Ht.
    pose proof (agree_merge fuel doc docPath s (mkState (manager s) (cache t) (logged t))) as H.
    destruct (merge_ok_parses _ _ _ _ _ _ Hrun) as [p Hp].
    rewrite (merge_ignores_manager fuel doc docPath t (manager s) p Hp) in H.
    rewrite Hrun in H.
    assert (He : eqv E s (mkState (manager s) (cache t) (logged t)))
      by (repeat split; auto).
    specialize (H He).
    destruct (merge E fuel doc docPath t) as [b t'| |]; try contradiction.
    destruct H as [<- H]. exists t'. auto. }
  assert (Hc1 : coherent E (cache s1)).
  { destruct (Hany s Hs) as [t' [_ [_ [H _]]]]. exact H. }
  split; [| split].
  - intros t Ht. destruct (Hany t Ht) as [t' [H _]]. eauto.
  - exact Hc1.
  - destruct (Hany s1 Hc1) as [s2 [H _]]. eauto.
Qed.

End Determinism.

(* ===================================================================== *)
(** ** [download] hands out a copy *)
(* ===================================================================== *)

Module HeapFacts.
Import Heap.

Lemma store_Arr inc es ps h :
  store (Arr inc es ps) h
  = let (h1, es') := storeElems es h in
    let (h2, ps') := storeProps ps h1 in
    (h2 ++ [CArr inc es' ps'], HRef (List.length h2)).
Proof.
  cbn [store].
  assert (He : forall l h0,
             (fix storeElems (l : list Node) (h : heap) {struct l} : heap * list HVal :=
                match l with
                | [] => (h, [])
                | x :: r =>
                    let (h1, v) := store x h in
                    let (h2, vs) := storeElems r h1 in (h2, v :: vs)
                end) l h0 = storeElems l h0).
  { induction l as [|x r IH]; intros h0; [reflexivity|].
    cbn [storeElems]. destruct (store x h0). rewrite IH. reflexivity. }
  assert (Hp : forall l h0,
             (fix storeProps (l : Props) (h : heap) {struct l} : heap * list (string * HVal) :=
                match l with
                | [] => (h, [])
                | (k, x) :: r =>
                    let (h1, v) := store x h in
                    let (h2, vs) := storeProps r h1 in (h2, (k, v) :: vs)
                end) l h0 = storeProps l h0).
  { induction l as [|[k x] r IH]; intros h0; [reflexivity|].
    cbn [storeProps]. destruct (store x h0). rewrite IH. reflexivity. }
  rewrite He. destruct (storeElems es h). rewrite Hp. reflexivity.
Qed.

Lemma store_Obj ps h :
  store (Obj ps) h
  = let (h1, ps') := storeProps ps h in (h1 ++ [CObj ps'], HRef (List.length h1)).
Proof.
  cbn [store].
  assert (Hp : forall l h0,
             (fix storeProps (l : Props) (h : heap) {struct l} : heap * list (string * HVal) :=
                match l with
                | [] => (h, [])
                | (k, x) :: r =>
                    let (h1, v) := store x h in
                    let (h2, vs) := storeProps r h1 in (h2, (k, v) :: vs)
                end) l h0 = storeProps l h0).
  { induction l as [|[k x] r IH]; intros h0; [reflexivity|].
    cbn [storeProps]. destruct (store x h0). rewrite IH. reflexivity. }
  rewrite Hp. reflexivity.
Qed.

Lemma storeElems_ok es :
  Forall stored es ->
  forall h h1 vs,
    storeElems es h = (h1, vs) ->
    exists new,
      h1 = h ++ new /\
      forall h0 tail fuel,
        List.length h0 = List.length h -> List.length new <= fuel ->
        mapM (load fuel (h0 ++ new ++ tail)) vs = Some es.
Proof.
  induction 1 as [|x r Hx Hr IH]; intros h h1 vs Hs.
  - cbn in Hs. injection Hs as <- <-. exists []. split; [rewrite app_nil_r; reflexivity|].
    reflexivity.
  - cbn [storeElems] in Hs.
    destruct (store x h) as [ha v] eqn:Sx.
    destruct (storeElems r ha) as [hb vs'] eqn:Sr.
    injection Hs as <- <-.
    destruct (Hx _ _ _ Sx) as [n1 [-> L1]].
    destruct (IH _ _ _ Sr) as [n2 [-> L2]].
    exists (n1 ++ n2). split; [rewrite app_assoc; reflexivity|].
    intros h0 tail fuel Hlen Hf. rewrite length_app in Hf.
    cbn [mapM].
    replace (h0 ++ (n1 ++ n2) ++ tail) with (h0 ++ n1 ++ (n2 ++ tail))
      by (rewrite <- !app_assoc; reflexivity).
    rewrite (L1 h0 (n2 ++ tail) fuel Hlen) by lia.
    replace (h0 ++ n1 ++ n2 ++ tail) with ((h0 ++ n1) ++ n2 ++ tail)
      by (rewrite <- !app_assoc; reflexivity).
    rewrite (L2 (h0 ++ n1) tail fuel) by (rewrite ?length_app; lia).
    reflexivity.
Qed.

Lemma storeProps_ok ps :
  Forall (fun kv => stored (snd kv)) ps ->
  forall h h1 vs,
    storeProps ps h = (h1, vs) ->
    exists new,
      h1 = h ++ new /\
      forall h0 tail fuel,
        List.length h0 = List.length h -> List.length new <= fuel ->
        mapM (onSnd (load fuel (h0 ++ new ++ tail))) vs = Some ps.
Proof.
  induction 1 as [|[k x] r Hx Hr IH]; intros h h1 vs Hs.
  - cbn in Hs. injection Hs as <- <-. exists []. split; [rewrite app_nil_r; reflexivity|].
    reflexivity.
  - cbn [storeProps] in Hs. cbn [snd] in Hx.
    destruct (store x h) as [ha v] eqn:Sx.
    destruct (storeProps r ha) as [hb vs'] eqn:Sr.
    injection Hs as <- <-.
    destruct (Hx _ _ _ Sx) as [n1 [-> L1]].
    destruct (IH _ _ _ Sr) as [n2 [-> L2]].
    exists (n1 ++ n2). split; [rewrite app_assoc; reflexivity|].
    intros h0 tail fuel Hlen Hf. rewrite length_app in Hf.
    cbn [mapM]. unfold onSnd at 1. cbn [fst snd].
    replace (h0 ++ (n1 ++ n2) ++ tail) with (h0 ++ n1 ++ (n2 ++ tail))
      by (rewrite <- !app_assoc; reflexivity).
    rewrite (L1 h0 (n2 ++ tail) fuel Hlen) by lia.
    replace (h0 ++ n1 ++ n2 ++ tail) with ((h0 ++ n1) ++ n2 ++ tail)
      by (rewrite <- !app_assoc; reflexivity).
    rewrite (L2 (h0 ++ n1) tail fuel) by (rewrite ?length_app; lia).
    reflexivity.
Qed.

Lemma nth_error_middle {A} (a b c : list A) x :
  nth_error (a ++ (b ++ [x]) ++ c) (List.length a + List.length b) = Some x.
Proof.
  rewrite nth_error_app2 by lia.
  replace (List.length a + List.length b - List.length a) with (List.length b) by lia.
  rewrite <- app_assoc. rewrite nth_error_app2 by lia.
  rewrite Nat.sub_diag. reflexivity.
Qed.

Lemma store_ok n : stored n.
Proof.
  induction n as [| | b | z | s | inc es ps IHe IHp | ps IHp] using Node_ind';
    try (intros h h1 v Hs; cbn in Hs; injection Hs as <- <-; exists [];
         split; [rewrite app_nil_r; reflexivity
                | intros h0 tail fuel _ _; destruct fuel; reflexivity]).
  - intros h h1 v Hs. rewrite store_Arr in Hs.
    destruct (storeElems es h) as [ha es'] eqn:Se.
    destruct (storeProps ps ha) as [hb ps'] eqn:Sp.
    injection Hs as <- <-.
    destruct (storeElems_ok es IHe _ _ _ Se) as [n1 [-> L1]].
    destruct (storeProps_ok ps IHp _ _ _ Sp) as [n2 [-> L2]].
    exists ((n1 ++ n2) ++ [CArr inc es' ps']).
    split; [rewrite <- !app_assoc; reflexivity|].
    intros h0 tail fuel Hlen Hf. rewrite !length_app in Hf. cbn in Hf.
    destruct fuel as [|f]; [lia|]. cbn [load].
    match goal with
    | |- context [nth_error _ ?i] =>
        replace i with (List.length h0 + List.length (n1 ++ n2))
          by (rewrite ?length_app; lia)
    end.
    rewrite (nth_error_middle h0 (n1 ++ n2) tail).
    replace (h0 ++ ((n1 ++ n2) ++ [CArr inc es' ps']) ++ tail)
      with (h0 ++ n1 ++ (n2 ++ [CArr inc es' ps'] ++ tail))
      by (rewrite <- !app_assoc; reflexivity).
    rewrite (L1 h0 _ f Hlen) by lia.
    replace (h0 ++ n1 ++ n2 ++ [CArr inc es' ps'] ++ tail)
      with ((h0 ++ n1) ++ n2 ++ ([CArr inc es' ps'] ++ tail))
      by (rewrite <- !app_assoc; reflexivity).
    rewrite (L2 (h0 ++ n1) _ f) by (rewrite ?length_app; lia).
    reflexivity.
  - intros h h1 v Hs. rewrite store_Obj in Hs.
    destruct (storeProps ps h) as [hb ps'] eqn:Sp.
    injection Hs as <- <-.
    destruct (storeProps_ok ps IHp _ _ _ Sp) as [n2 [-> L2]].
    exists (n2 ++ [CObj ps']).
    split; [rewrite <- !app_assoc; reflexivity|].
    intros h0 tail fuel Hlen Hf. rewrite !length_app in Hf. cbn in Hf.
    destruct fuel as [|f]; [lia|]. cbn [load].
    match goal with
    | |- context [nth_error _ ?i] =>
        replace i with (List.length h0 + List.length n2)
          by (rewrite ?length_app; lia)
    end.
    rewrite (nth_error_middle h0 n2 tail).
    replace (h0 ++ (n2 ++ [CObj ps']) ++ tail)
      with (h0 ++ n2 ++ ([CObj ps'] ++ tail))
      by (rewrite <- !app_assoc; reflexivity).
    rewrite (L2 h0 _ f Hlen) by lia.
    reflexivity.
Qed.

Lemma mapM_some_ext {A B} (f g : A -> option B) l r :
  mapM f l = Some r ->
  (forall x y, f x = Some y -> g x = Some y) ->
  mapM g l = Some r.
Proof.
  revert r. induction l as [|x t IH]; intros r H Hfg; cbn [mapM] in *; [exact H|].
  destruct (f x) as [y|] eqn:Fx; [| discriminate].
  destruct (mapM f t) as [ys|] eqn:Ft; [| discriminate].
  rewrite (Hfg _ _ Fx), (IH _ eq_refl Hfg). exact H.
Qed.

Lemma onSnd_ext {A B} (f g : A -> option B) :
  (forall x y, f x = Some y -> g x = Some y) ->
  forall kv r, onSnd f kv = Some r -> onSnd g kv = Some r.
Proof.
  intros Hfg kv r. unfold onSnd. destruct (f (snd kv)) as [y|] eqn:F; [| discriminate].
  rewrite (Hfg _ _ F). auto.
Qed.

(** A document that can be read in a heap reads the same in any heap that
    has the same cells where the first one has cells. *)
Lemma load_contains fuel : forall h h' v n,
  load fuel h v = Some n ->
  (forall l c, nth_error h l = Some c -> nth_error h' l = Some c) ->
  load fuel h' v = Some n.
Proof.
  induction fuel as [|f IH]; intros h h' v n H Hc.
  - destruct v; cbn in *; [exact H | discriminate].
  - destruct v as [p|l]; cbn [load] in *; [exact H|].
    destruct (nth_error h l) as [c|] eqn:Hn; [| discriminate].
    rewrite (Hc _ _ Hn).
    assert (Hl : forall x y, load f h x = Some y -> load f h' x = Some y)
      by (intros x y Hx; exact (IH _ _ _ _ Hx Hc)).
    destruct c as [inc es ps | ps].
    + destruct (mapM (load f h) es) as [es'|] eqn:Me; [| discriminate].
      destruct (mapM (onSnd (load f h)) ps) as [ps'|] eqn:Mp; [| discriminate].
      rewrite (mapM_some_ext _ _ _ _ Me Hl).
      rewrite (mapM_some_ext _ _ _ _ Mp (onSnd_ext _ _ Hl)). exact H.
    + destruct (mapM (onSnd (load f h)) ps) as [ps'|] eqn:Mp; [| discriminate].
      rewrite (mapM_some_ext _ _ _ _ Mp (onSnd_ext _ _ Hl)). exact H.
Qed.

Lemma load_more_fuel fuel : forall fuel' h v n,
  load fuel h v = Some n -> fuel <= fuel' -> load fuel' h v = Some n.
Proof.
  induction fuel as [|f IH]; intros fuel' h v n H Hle.
  - destruct v; cbn in H; [| discriminate]. destruct fuel'; exact H.
  - destruct fuel' as [|f']; [lia|].
    destruct v as [p|l]; cbn [load] in *; [exact H|].
    destruct (nth_error h l) as [c|] eqn:Hn; [| discriminate].
    assert (Hl : forall x y, load f h x = Some y -> load f' h x = Some y)
      by (intros x y Hx; apply (IH f' _ _ _ Hx); lia).
    destruct c as [inc es ps | ps].
    + destruct (mapM (load f h) es) as [es'|] eqn:Me; [| discriminate].
      destruct (mapM (onSnd (load f h)) ps) as [ps'|] eqn:Mp; [| discriminate].
      rewrite (mapM_some_ext _ _ _ _ Me Hl).
      rewrite (mapM_some_ext _ _ _ _ Mp (onSnd_ext _ _ Hl)). exact H.
    + destruct (mapM (onSnd (load f h)) ps) as [ps'|] eqn:Mp; [| discriminate].
      rewrite (mapM_some_ext _ _ _ _ Mp (onSnd_ext _ _ Hl)). exact H.
Qed.

(** A document stored in fresh cells: it reads back, from those cells
    alone. *)
Lemma store_read d h h1 v :
  store d h = (h1, v) ->
  exists copy,
    h1 = h ++ copy /\
    read h1 v = Some d /\
    (forall h0, List.length h0 = List.length h -> read (h0 ++ copy) v = Some d).
Proof.
  intros Hs. destruct (store_ok d _ _ _ Hs) as [copy [-> L]].
  exists copy. split; [reflexivity|]. split.
  - unfold read. specialize (L h [] (List.length (h ++ copy)) eq_refl).
    rewrite app_nil_r in L. apply L. rewrite length_app. lia.
  - intros h0 Hlen. unfold read. specialize (L h0 [] (List.length (h0 ++ copy)) Hlen).
    rewrite app_nil_r in L. apply L. rewrite length_app. lia.
Qed.

(** A document that was readable before the copy was made is still
    readable, and the same, after the caller has changed the copy. *)
Lemma read_older older copy h' c d :
  read older c = Some d ->
  mutatedFrom (List.length older) (older ++ copy) h' ->
  List.length older <= List.length h' ->
  read h' c = Some d.
Proof.
  intros Hr Hm Hlen. unfold read in *.
  apply (load_more_fuel (List.length older)); [| exact Hlen].
  apply (load_contains _ older); [exact Hr|].
  intros l cell Hn.
  assert (Hl : l < List.length older) by (apply nth_error_Some; congruence).
  rewrite (Hm l Hl). rewrite nth_error_app1 by exact Hl. exact Hn.
Qed.

Lemma mutatedFrom_shorter b b' h h' :
  b' <= b -> mutatedFrom b h h' -> mutatedFrom b' h h'.
Proof. intros Hle Hm l Hl. apply Hm. lia. Qed.

Lemma load_ref_object fuel h l d :
  load fuel h (HRef l) = Some d -> isObject d = true.
Proof.
  destruct fuel as [|f]; cbn [load]; [discriminate|].
  destruct (nth_error h l) as [[inc es ps | ps]|]; [| | discriminate].
  - destruct (mapM (load f h) es); [| discriminate].
    destruct (mapM (onSnd (load f h)) ps); [| discriminate].
    intros H; injection H as <-; reflexivity.
  - destruct (mapM (onSnd (load f h)) ps); [| discriminate].
    intros H; injection H as <-; reflexivity.
Qed.

Lemma load_prim fuel h p : load fuel h (HPrim p) = Some p.
Proof. destruct fuel; reflexivity. Qed.

(** A value and the document it stands for are truthy together. *)
Lemma truthyH_read h v d : read h v = Some d -> truthyH v = truthy d.
Proof.
  unfold read. destruct v as [p|l]; intros H.
  - rewrite load_prim in H. injection H as <-. reflexivity.
  - apply load_ref_object in H. destruct d; try discriminate; reflexivity.
Qed.

Lemma read_extend h new v d : read h v = Some d -> read (h ++ new) v = Some d.
Proof.
  intros H. unfold read in *.
  apply (load_more_fuel (List.length h)); [| rewrite length_app; lia].
  apply (load_contains _ h); [exact H|].
  intros l c Hn. rewrite nth_error_app1; [exact Hn|].
  apply nth_error_Some. congruence.
Qed.

Lemma corr_extend h new c lg s :
  corr (mkHState h c lg) s -> corr (mkHState (h ++ new) c lg) s.
Proof.
  intros [Hc Hl]. split; [| exact Hl].
  intros u. cbn [hheap hcache] in *. apply read_extend. apply Hc.
Qed.

Lemma corr_log h c lg s e :
  corr (mkHState h c lg) s ->
  corr (mkHState h c (e :: lg)) (mkState (manager s) (cache s) (e :: logged s)).
Proof.
  intros [Hc Hl]. split; [exact Hc|]. cbn [hlogged logged] in *. rewrite Hl. reflexivity.
Qed.

Lemma corr_store h c lg s url d doc :
  corr (mkHState h c lg) s ->
  read h d = Some doc ->
  corr (mkHState h (hset url d c) lg)
       (mkState (manager s) (props_set url doc (cache s)) (logged s)).
Proof.
  intros [Hc Hl] Hd. split; [| exact Hl].
  intros u. cbn [hheap hcache cache] in *. unfold hset. cbn [hget].
  destruct (String.eqb u url) eqn:Eu.
  - apply String.eqb_eq in Eu; subst. rewrite cacheGet_set_same. exact Hd.
  - apply String.eqb_neq in Eu. rewrite (cacheGet_set_other _ _ _ _ Eu). apply Hc.
Qed.

Section Copy.

Variable fetch : string -> FetchResult.
Variable loadYAML : string -> option Node.
Variable parseJSON : string -> option Node.

Local Abbreviation downloadH := (download fetch loadYAML parseJSON).

(** C10. [download] returns a deep clone of the document, not the cached
    value itself.  The value returned by a call stands for a document
    [doc] made of cells [copy] that the call has added to the heap and
    that nothing else refers to: it reads as [doc] from those cells alone.
    Whatever the caller then does to those cells (and to any cell added
    later), a later call for the same URL returns a value that stands for
    the same [doc].  (An entry of the cache that is served is assumed to
    be readable, as every entry that [download] stores is.) *)
Theorem download_hands_out_a_copy url s v1 s1 :
  (truthyH (hget url (hcache s)) = true ->
   exists d, read (hheap s) (hget url (hcache s)) = Some d) ->
  downloadH url s = HOk v1 s1 ->
  exists doc older copy,
    hheap s1 = older ++ copy /\
    read (hheap s1) v1 = Some doc /\
    (forall h0, List.length h0 = List.length older -> read (h0 ++ copy) v1 = Some doc) /\
    (forall h',
        mutatedFrom (List.length older) (hheap s1) h' ->
        List.length older <= List.length h' ->
        exists v2 s2,
          downloadH url (mkHState h' (hcache s1) (hlogged s1)) = HOk v2 s2 /\
          read (hheap s2) v2 = Some doc).
Proof.
  intros Hwf Hrun. unfold download in Hrun.
  destruct (truthyH (hget url (hcache s))) eqn:Hc.
  - (* served from the cache *)
    destruct (Hwf eq_refl) as [d Hd].
    unfold cloneDeep in Hrun. rewrite Hd in Hrun.
    destruct (store d (hheap s)) as [h1 v] eqn:Hs. injection Hrun as <- <-.
    destruct (store_read _ _ _ _ Hs) as [copy [-> [Hr Hi]]].
    exists d, (hheap s), copy. cbn [hheap hcache hlogged].
    repeat split; auto.
    intros h' Hm Hlen.
    pose proof (read_older _ _ _ _ _ Hd Hm Hlen) as Hd'.
    unfold download. cbn [hheap hcache hlogged]. rewrite Hc.
    unfold cloneDeep. rewrite Hd'.
    destruct (store d h') as [h2 v2] eqn:Hs2.
    destruct (store_read _ _ _ _ Hs2) as [copy2 [-> [Hr2 _]]].
    do 2 eexists. split; [reflexivity | exact Hr2].
  - (* fetched *)
    destruct (fetch url) as [|res] eqn:Hf.
    + destruct (store emptyObj (hheap s)) as [h1 v] eqn:Hs. injection Hrun as <- <-.
      destruct (store_read _ _ _ _ Hs) as [copy [-> [Hr Hi]]].
      exists emptyObj, (hheap s), copy. cbn [hheap hcache hlogged].
      repeat split; auto.
      intros h' Hm Hlen.
      unfold download. cbn [hheap hcache hlogged]. rewrite Hc, Hf.
      destruct (store emptyObj h') as [h2 v2] eqn:Hs2.
      destruct (store_read _ _ _ _ Hs2) as [copy2 [-> [Hr2 _]]].
      do 2 eexists. split; [reflexivity | exact Hr2].
    + destruct (negb (ok res)) eqn:Hok.
      * destruct (store emptyObj (hheap s)) as [h1 v] eqn:Hs. injection Hrun as <- <-.
        destruct (store_read _ _ _ _ Hs) as [copy [-> [Hr Hi]]].
        exists emptyObj, (hheap s), copy. cbn [hheap hcache hlogged].
        repeat split; auto.
        intros h' Hm Hlen.
        unfold download. cbn [hheap hcache hlogged]. rewrite Hc, Hf, Hok.
        destruct (store emptyObj h') as [h2 v2] eqn:Hs2.
        destruct (store_read _ _ _ _ Hs2) as [copy2 [-> [Hr2 _]]].
        do 2 eexists. split; [reflexivity | exact Hr2].
      * destruct (text res) as [body|] eqn:Ht; [| discriminate].
        destruct (parse loadYAML parseJSON url body) as [doc|] eqn:Hp; [| discriminate].
        destruct (store doc (hheap s)) as [h1 d] eqn:Hs.
        destruct (store_read _ _ _ _ Hs) as [kept [-> [Hrd _]]].
        unfold cloneDeep in Hrun. rewrite Hrd in Hrun.
        destruct (store doc (hheap s ++ kept)) as [h2 v] eqn:Hs'. injection Hrun as <- <-.
        destruct (store_read _ _ _ _ Hs') as [copy [-> [Hr Hi]]].
        exists doc, (hheap s ++ kept), copy. cbn [hheap hcache hlogged].
        repeat split; auto.
        intros h' Hm Hlen.
        pose proof (read_older _ _ _ _ _ Hrd Hm Hlen) as Hd'.
        unfold download. cbn [hheap hcache hlogged].
        unfold hset. cbn [hget]. rewrite String.eqb_refl.
        destruct (truthyH d) eqn:Htd.
        -- unfold cloneDeep. rewrite Hd'.
           destruct (store doc h') as [h3 v2] eqn:Hs2.
           destruct (store_read _ _ _ _ Hs2) as [copy2 [-> [Hr2 _]]].
           do 2 eexists. split; [reflexivity | exact Hr2].
        -- rewrite Hf, Hok, Ht, Hp.
           destruct (store doc h') as [h3 d2] eqn:Hs2.
           destruct (store_read _ _ _ _ Hs2) as [kept2 [-> [Hrd2 _]]].
           unfold cloneDeep. rewrite Hrd2.
           destruct (store doc (h' ++ kept2)) as [h4 v2] eqn:Hs3.
           destruct (store_read _ _ _ _ Hs3) as [copy2 [-> [Hr2 _]]].
           do 2 eexists. split; [reflexivity | exact Hr2].
Qed.

End Copy.

End HeapFacts.

Section Refinement.

Variable fetch : string -> FetchResult.
Variable loadYAML : string -> option Node.
Variable parseJSON : string -> option Node.

(** [download] over the heap does what [download] on values does: from
    states that correspond, both return, the value of the first standing
    for the document of the second, or both throw the same exception, and
    the states they end in correspond. *)
Theorem download_refines url hs s :
  corr hs s ->
  match Heap.download fetch loadYAML parseJSON url hs,
        download fetch loadYAML parseJSON url s with
  | Heap.HOk v hs', Ok d s' => Heap.read (Heap.hheap hs') v = Some d /\ corr hs' s'
  | Heap.HThrow e hs', Throw e' s' => e = e' /\ corr hs' s'
  | _, _ => False
  end.
Proof.
  intros Hcorr. destruct hs as [h c lg]. pose proof Hcorr as [Hc Hl].
  cbn [Heap.hheap Heap.hcache Heap.hlogged] in *.
  pose proof (Hc url) as Hu.
  pose proof (HeapFacts.truthyH_read _ _ _ Hu) as Ht.
  unfold Heap.download, download, bind, getCache. cbn [Heap.hheap Heap.hcache Heap.hlogged].
  rewrite Ht.
  destruct (truthy (cacheGet (cache s) url)) eqn:Hhit.
  - unfold Heap.cloneDeep. rewrite Hu.
    destruct (Heap.store (cacheGet (cache s) url) h) as [h1 v] eqn:Hs.
    destruct (HeapFacts.store_read _ _ _ _ Hs) as [copy [-> [Hr _]]].
    cbn [Heap.hheap]. split; [exact Hr|].
    destruct s as [m cs ls]. apply HeapFacts.corr_extend. exact Hcorr.
  - cbn [logMsg ret].
    destruct (fetch url) as [|res].
    + destruct (Heap.store emptyObj h) as [h1 v] eqn:Hs.
      destruct (HeapFacts.store_read _ _ _ _ Hs) as [copy [-> [Hr _]]].
      cbn [Heap.hheap manager cache logged]. split; [exact Hr|].
      apply HeapFacts.corr_extend.
      apply (HeapFacts.corr_log h c _ (mkState (manager s) (cache s) _)).
      apply (HeapFacts.corr_log h c lg s). exact Hcorr.
    + destruct (negb (ok res)).
      * destruct (Heap.store emptyObj h) as [h1 v] eqn:Hs.
        destruct (HeapFacts.store_read _ _ _ _ Hs) as [copy [-> [Hr _]]].
        cbn [Heap.hheap manager cache logged]. split; [exact Hr|].
        apply HeapFacts.corr_extend.
        apply (HeapFacts.corr_log h c _ (mkState (manager s) (cache s) _)).
        apply (HeapFacts.corr_log h c lg s). exact Hcorr.
      * destruct (text res) as [body|]; cbn [orThrow ret throw].
        2:{ split; [reflexivity|]. apply (HeapFacts.corr_log h c lg s). exact Hcorr. }
        assert (Hstep :
          forall lg' s0 doc,
            corr (Heap.mkHState h c lg') s0 ->
            match
              (let (h1, d) := Heap.store doc h in
               let (h2, v) := Heap.cloneDeep h1 d in
               Heap.HOk v (Heap.mkHState h2 (Heap.hset url d c) lg')),
              Ok doc (mkState (manager s0) (props_set url doc (cache s0)) (logged s0))
            with
            | Heap.HOk v hs', Ok d s' => Heap.read (Heap.hheap hs') v = Some d /\ corr hs' s'
            | Heap.HThrow e hs', Throw e' s' => e = e' /\ corr hs' s'
            | _, _ => False
            end).
        { intros lg' s0 doc H0.
          destruct (Heap.store doc h) as [h1 d] eqn:Hs.
          destruct (HeapFacts.store_read _ _ _ _ Hs) as [kept [-> [Hrd _]]].
          unfold Heap.cloneDeep. rewrite Hrd.
          destruct (Heap.store doc (h ++ kept)) as [h2 v] eqn:Hs'.
          destruct (HeapFacts.store_read _ _ _ _ Hs') as [copy [-> [Hr _]]].
          cbn [Heap.hheap]. split; [exact Hr|].
          apply HeapFacts.corr_extend.
          apply (HeapFacts.corr_store (h ++ kept) c lg' s0 url d doc); [| exact Hrd].
          apply HeapFacts.corr_extend. exact H0. }
        unfold Heap.parse, Heap.parseLog.
        destruct (endsWith url ".yml" || endsWith url ".yaml")%bool; cbn [orb].
        { destruct (loadYAML body) as [doc|]; cbn [orThrow ret throw setCache].
          - apply (Hstep _ (mkState (manager s) (cache s) _)).
            apply (HeapFacts.corr_log h c lg s). exact Hcorr.
          - split; [reflexivity|]. apply (HeapFacts.corr_log h c lg s). exact Hcorr. }
        destruct (endsWith url ".json").
        { destruct (parseJSON body) as [doc|]; cbn [orThrow ret throw setCache].
          - apply (Hstep _ (mkState (manager s) (cache s) _)).
            apply (HeapFacts.corr_log h c lg s). exact Hcorr.
          - split; [reflexivity|]. apply (HeapFacts.corr_log h c lg s). exact Hcorr. }
        cbn [logMsg manager cache logged].
        destruct (loadYAML body) as [doc|]; cbn [orThrow ret throw setCache].
        -- apply (Hstep _ (mkState (manager s) (cache s) _)).
           apply (HeapFacts.corr_log h c _ (mkState (manager s) (cache s) _)).
           apply (HeapFacts.corr_log h c lg s). exact Hcorr.
        -- split; [reflexivity|].
           apply (HeapFacts.corr_log h c _ (mkState (manager s) (cache s) _)).
           apply (HeapFacts.corr_log h c lg s). exact Hcorr.
Qed.

End Refinement.

(* ===================================================================== *)
(** * Further properties *)
(* ===================================================================== *)

(** ** merger.js: the pattern of include directives *)

Lemma prefix_split p : forall s,
  prefix p s = true ->
  s = (p ++ substring (String.length p) (String.length s - String.length p) s)%string.
Proof.
  induction p as [|c p IH]; intros s H.
  - cbn. rewrite Nat.sub_0_r. clear H.
    induction s as [|a s IHs]; [reflexivity|]. cbn. f_equal. exact IHs.
  - destruct s as [|a s]; [discriminate|]. cbn in H.
    destruct (Ascii.ascii_dec c a) as [->|]; [| discriminate].
    cbn. f_equal. apply IH. exact H.
Qed.

Lemma prefix_append p s : prefix p (p ++ s)%string = true.
Proof.
  induction p as [|c p IH]; cbn; [destruct s; reflexivity|].
  destruct (Ascii.ascii_dec c c); [exact IH | contradiction].
Qed.

Lemma substring_after p s :
  substring (String.length p) (String.length (p ++ s) - String.length p) (p ++ s)%string = s.
Proof.
  induction p as [|c p IH]; cbn.
  - rewrite Nat.sub_0_r. induction s as [|a s IHs]; [reflexivity|]. cbn. f_equal. exact IHs.
  - exact IH.
Qed.

Lemma spanWord_sound s : forall w rest,
  spanWord s = (w, rest) ->
  s = (w ++ rest)%string /\ allWord w = true /\ wordStops rest.
Proof.
  induction s as [|c s IH]; intros w rest H; cbn in H.
  - injection H as <- <-. repeat split.
  - destruct (isWordChar c) eqn:Hc.
    + destruct (spanWord s) as [w' rest'] eqn:Hs. injection H as <- <-.
      destruct (IH _ _ eq_refl) as [-> [Hw Hr]].
      repeat split; auto. cbn. rewrite Hc, Hw. reflexivity.
    + injection H as <- <-. repeat split. exact Hc.
Qed.

Lemma spanWord_complete w : forall rest,
  allWord w = true -> wordStops rest -> spanWord (w ++ rest) = (w, rest).
Proof.
  induction w as [|c w IH]; intros rest Hw Hr; cbn.
  - destruct rest as [|a r]; [reflexivity|]. cbn in Hr. cbn. rewrite Hr. reflexivity.
  - cbn in Hw. apply andb_true_iff in Hw. destruct Hw as [Hc Hw].
    rewrite Hc, (IH rest Hw Hr). reflexivity.
Qed.

Lemma optGroup_sound mark s g rest :
  optGroup mark s = Some (g, rest) ->
  s = (groupText g ++ rest)%string /\ isGroup mark g = true /\
  markAbsent mark g rest /\ (g <> None -> wordStops rest).
Proof.
  unfold optGroup. destruct s as [|c r].
  - intros H. injection H as <- <-. repeat split.
  - destruct (Ascii.eqb c mark) eqn:Em.
    + destruct (spanWord r) as [w rest'] eqn:Hs.
      destruct (spanWord_sound _ _ _ Hs) as [-> [Hw Hr]].
      destruct w as [|a w]; [discriminate|].
      intros H. injection H as <- <-. cbn [groupText isGroup].
      repeat split; auto.
      rewrite Em. unfold isWord. cbn [String.eqb negb andb]. exact Hw.
    + intros H. injection H as <- <-. cbn [groupText isGroup markAbsent].
      repeat split.
      * intros ->. rewrite Ascii.eqb_refl in Em. discriminate.
      * intros []; reflexivity.
Qed.

Lemma optGroup_complete mark g rest :
  isGroup mark g = true -> markAbsent mark g rest -> (g <> None -> wordStops rest) ->
  optGroup mark (groupText g ++ rest) = Some (g, rest).
Proof.
  destruct g as [[|c w]|]; cbn [isGroup groupText]; intros Hg Hm Hr; try discriminate.
  - apply andb_true_iff in Hg. destruct Hg as [Hc Hw].
    unfold isWord in Hw. apply andb_true_iff in Hw. destruct Hw as [Hne Hw].
    apply Ascii.eqb_eq in Hc. subst c.
    cbn [append optGroup]. rewrite Ascii.eqb_refl.
    rewrite (spanWord_complete w rest Hw (Hr ltac:(discriminate))).
    destruct w; [discriminate | reflexivity].
  - cbn [append]. unfold optGroup. destruct rest as [|c r]; [reflexivity|].
    cbn in Hm. destruct (Ascii.eqb c mark) eqn:Em; [| reflexivity].
    apply Ascii.eqb_eq in Em. contradiction.
Qed.

Lemma matchInclude_groups key g1 g2 :
  matchInclude key = Some (g1, g2) <->
  key = ("$include" ++ groupText g1 ++ groupText g2)%string /\
  isGroup "#" g1 = true /\ isGroup "." g2 = true.
Proof.
  split.
  - unfold matchInclude. destruct (prefix "$include" key) eqn:Hp; [| discriminate].
    pose proof (prefix_split _ _ Hp) as Hk. cbn [String.length] in Hk.
    destruct (optGroup "#" (substring 8 (String.length key - 8) key))
      as [[a rest1]|] eqn:H1; [| discriminate].
    destruct (optGroup "." rest1) as [[b rest2]|] eqn:H2; [| discriminate].
    destruct rest2; [| discriminate].
    intros H. injection H as <- <-.
    destruct (optGroup_sound _ _ _ _ H1) as [E1 [G1 _]].
    destruct (optGroup_sound _ _ _ _ H2) as [E2 [G2 _]].
    rewrite E1, E2 in Hk.
    replace (groupText b ++ "")%string with (groupText b) in Hk
      by (clear; induction (groupText b); cbn; congruence).
    auto.
  - intros [-> [G1 G2]]. unfold matchInclude.
    rewrite prefix_append.
    change 8 with (String.length "$include"). rewrite substring_after.
    assert (H2 : optGroup "." (groupText g2 ++ "") = Some (g2, EmptyString)).
    { apply optGroup_complete; auto.
      - destruct g2; exact I.
      - intros _; exact I. }
    replace (groupText g2 ++ "")%string with (groupText g2) in H2
      by (clear; induction (groupText g2); cbn; congruence).
    rewrite (optGroup_complete "#" g1 (groupText g2)); auto.
    + rewrite H2. reflexivity.
    + destruct g1; [exact I|]. destruct g2 as [[|c w]|]; cbn in *; try exact I; try discriminate.
      apply andb_true_iff in G2. destruct G2 as [Hc _].
      apply Ascii.eqb_eq in Hc. subst c. discriminate.
    + intros _. destruct g2 as [[|c w]|]; cbn in *; try exact I; try discriminate.
      apply andb_true_iff in G2. destruct G2 as [Hc _].
      apply Ascii.eqb_eq in Hc. subst c. reflexivity.
Qed.

(** X1. A key is an include directive exactly when it is [$include],
    followed by an optional [#] and non-empty word, followed by an
    optional [.] and non-empty word, and nothing else. *)
Theorem isInclude_spec key :
  isInclude key = true <->
  exists g1 g2,
    isGroup "#" g1 = true /\ isGroup "." g2 = true /\
    key = ("$include" ++ groupText g1 ++ groupText g2)%string.
Proof.
  unfold isInclude. split.
  - destruct (matchInclude key) as [[g1 g2]|] eqn:Hm; [| discriminate].
    intros _. apply matchInclude_groups in Hm. destruct Hm as [Hk [G1 G2]].
    exists g1, g2. auto.
  - intros [g1 [g2 [G1 [G2 Hk]]]].
    rewrite (proj2 (matchInclude_groups key g1 g2)); auto.
Qed.

(** X2. The class of an include directive is the word after the [.] of its
    key: [getIncludeClass] returns a class exactly for the keys
    [$include], optional [#] and word, [.], class; the class is a
    non-empty word. *)
Theorem getIncludeClass_spec key clazz :
  getIncludeClass key = Some clazz <->
  exists g1,
    isGroup "#" g1 = true /\ isWord clazz = true /\
    key = ("$include" ++ groupText g1 ++ "." ++ clazz)%string.
Proof.
  unfold getIncludeClass. split.
  - destruct (matchInclude key) as [[g1 [pattern|]]|] eqn:Hm; try discriminate.
    apply matchInclude_groups in Hm. destruct Hm as [Hk [G1 G2]].
    destruct pattern as [|c w]; [discriminate|].
    cbn [String.eqb]. cbn [isGroup] in G2. apply andb_true_iff in G2.
    destruct G2 as [Hc Hw]. apply Ascii.eqb_eq in Hc. subst c.
    intros H. injection H as <-.
    exists g1. cbn [String.length Nat.sub substring].
    rewrite Nat.sub_0_r.
    assert (Hs : forall s, substring 0 (String.length s) s = s)
      by (induction s; cbn; congruence).
    rewrite Hs. repeat split; auto.
  - intros [g1 [G1 [Hw ->]]].
    assert (Hm : matchInclude ("$include" ++ groupText g1 ++ "." ++ clazz)
                 = Some (g1, Some (String "." clazz))).
    { apply (matchInclude_groups _ g1 (Some (String "." clazz))). repeat split; auto. }
    rewrite Hm. cbn [String.eqb String.length Nat.sub substring].
    rewrite Nat.sub_0_r.
    assert (Hs : forall s, substring 0 (String.length s) s = s)
      by (induction s; cbn; congruence).
    rewrite Hs. reflexivity.
Qed.

(** ** merger.js: a document without directives *)

Lemma plain_Obj jp ps : plain jp (Obj ps) = plainProps jp [] ps.
Proof.
  assert (H : forall acc,
             (fix plainProps (acc l : Props) {struct l} : bool :=
                match l with
                | [] => true
                | (k, v) :: r =>
                    (keyFollows acc k && plainKey jp k
                     && plain (jp ++ "." ++ k) v
                     && plainProps (acc ++ [(k, v)]) r)%bool
                end) acc ps = plainProps jp acc ps).
  { induction ps as [|[k v] r IH]; intros acc; cbn [plainProps]; [reflexivity|].
    rewrite IH. reflexivity. }
  apply H.
Qed.

Lemma plain_Arr jp inc es ps :
  plain jp (Arr inc es ps) =
  (negb inc && match ps with [] => true | _ => false end
   && N.ltb (N.of_nat (List.length es)) 4294967295
   && plainElems jp 0 es)%bool.
Proof.
  cbn [plain]. f_equal. generalize 0%N.
  induction es as [|x r IH]; intros i; cbn [plainElems]; [reflexivity|].
  rewrite IH. reflexivity.
Qed.

Lemma parse_index_string_of_N i :
  (i < 4294967295)%N -> parse_index (string_of_N i) = Some i.
Proof.
  intros Hi. unfold parse_index, string_of_N.
  rewrite NilEmpty.usu. rewrite DecimalN.Unsigned.of_to.
  rewrite String.eqb_refl. apply N.ltb_lt in Hi. rewrite Hi. reflexivity.
Qed.

Lemma keyFollows_set acc k v :
  keyFollows acc k = true -> props_set k v acc = acc ++ [(k, v)].
Proof.
  unfold keyFollows, props_set. intros H. apply andb_true_iff in H.
  destruct H as [Hk Ho]. apply negb_true_iff in Hk. rewrite Hk.
  destruct (parse_index k) as [i|]; [| reflexivity].
  clear Hk. induction acc as [|[k' v'] r IH]; cbn [insert_index app]; [reflexivity|].
  cbn [forallb fst] in Ho. apply andb_true_iff in Ho. destruct Ho as [Hj Hr].
  destruct (parse_index k') as [j|]; [| discriminate].
  apply N.ltb_lt in Hj.
  destruct (N.ltb i j) eqn:Hij; [apply N.ltb_lt in Hij; lia |].
  rewrite (IH Hr). reflexivity.
Qed.

Lemma keyFollows_get acc k :
  keyFollows acc k = true -> get_prop (Obj acc) k = Undef.
Proof.
  unfold keyFollows, hasKey. intros H. apply andb_true_iff in H.
  destruct H as [Hk _]. cbn [get_prop].
  destruct (lookup k acc); [discriminate | reflexivity].
Qed.

Lemma plain_not_included jp n : plain jp n = true -> isIncludedArray n = false.
Proof.
  destruct n as [| | | | | inc es ps | ps]; try reflexivity.
  rewrite plain_Arr. destruct inc; [discriminate | reflexivity].
Qed.

Lemma elems_set_length v es : elems_set (List.length es) v es = es ++ [v].
Proof. induction es as [|x r IH]; cbn; [reflexivity | rewrite IH; reflexivity]. Qed.

Lemma nth_length_undef (es : list Node) : nth (List.length es) es Undef = Undef.
Proof. apply nth_overflow. lia. Qed.

Section PlainDocuments.

Variable E : Env.
Variable baseDir file : string.
Hypothesis mergeOrOverwrite_undefined : forall x, env_mergeOrOverwrite E Undef x = x.

Variable n : nat.
Hypothesis mergeRefs_n :
  forall doc jp s,
    plain jp doc = true -> depth doc < n ->
    mergeRefs E n baseDir doc file jp s = Ok doc s.

Local Abbreviation mergeEntriesN :=
  (mergeEntries E (mergeRefs E n baseDir) (handleInclude E n baseDir)
                (handleRef E n baseDir) file).

Lemma mergeEntries_plain_props jp : forall l acc s,
  plainProps jp acc l = true ->
  (forall k v, In (k, v) l -> depth v < n) ->
  mergeEntriesN jp l (Obj acc) s = Ok (Obj (acc ++ l)) s.
Proof.
  induction l as [|[k v] r IH]; intros acc s Hp Hd; cbn [mergeEntries].
  - rewrite app_nil_r. reflexivity.
  - cbn [plainProps] in Hp.
    apply andb_true_iff in Hp. destruct Hp as [Hp Hr].
    apply andb_true_iff in Hp. destruct Hp as [Hp Hv].
    apply andb_true_iff in Hp. destruct Hp as [Hf Hk].
    unfold plainKey in Hk. apply andb_true_iff in Hk. destruct Hk as [Hk1 Hk2].
    apply negb_true_iff in Hk1, Hk2.
    erewrite bind_ok.
    2:{ unfold mergeEntry. rewrite Hk1, Hk2.
        erewrite bind_ok; [| apply mergeRefs_n; [exact Hv | apply (Hd k v); left; reflexivity]].
        cbn beta. cbn [isArray andb]. rewrite andb_false_r.
        rewrite (keyFollows_get _ _ Hf), mergeOrOverwrite_undefined.
        cbn [set_prop]. rewrite (keyFollows_set _ _ _ Hf). reflexivity. }
    cbn beta. rewrite IH; auto.
    + rewrite <- app_assoc. reflexivity.
    + intros k' v' Hin. apply (Hd k' v'). right. exact Hin.
Qed.

Lemma mergeEntries_plain_elems jp : forall l pre s,
  plainElems jp (N.of_nat (List.length pre)) l = true ->
  (N.of_nat (List.length (pre ++ l)) < 4294967295)%N ->
  (forall v, In v l -> depth v < n) ->
  mergeEntriesN jp (index_from (N.of_nat (List.length pre)) l) (Arr false pre []) s
  = Ok (Arr false (pre ++ l) []) s.
Proof.
  induction l as [|x r IH]; intros pre s Hp Hlen Hd; cbn [mergeEntries index_from].
  - rewrite app_nil_r. reflexivity.
  - cbn [plainElems] in Hp.
    apply andb_true_iff in Hp. destruct Hp as [Hp Hr].
    apply andb_true_iff in Hp. destruct Hp as [Hk Hv].
    unfold plainKey in Hk. apply andb_true_iff in Hk. destruct Hk as [Hk1 Hk2].
    apply negb_true_iff in Hk1, Hk2.
    assert (Hi : parse_index (string_of_N (N.of_nat (List.length pre)))
                 = Some (N.of_nat (List.length pre))).
    { apply parse_index_string_of_N. rewrite length_app in Hlen. lia. }
    erewrite bind_ok.
    2:{ unfold mergeEntry. rewrite Hk1, Hk2.
        erewrite bind_ok; [| apply mergeRefs_n; [exact Hv | apply Hd; left; reflexivity]].
        cbn beta. rewrite (plain_not_included _ _ Hv). cbn [andb].
        cbn [get_prop set_prop]. rewrite Hi, Nat2N.id, nth_length_undef.
        rewrite mergeOrOverwrite_undefined, elems_set_length. reflexivity. }
    cbn beta.
    replace (N.succ (N.of_nat (List.length pre)))
      with (N.of_nat (List.length (pre ++ [x])))
      by (rewrite length_app; cbn [List.length]; lia).
    rewrite IH.
    + rewrite <- app_assoc. reflexivity.
    + rewrite length_app; cbn [List.length].
      replace (N.of_nat (List.length pre + 1)) with (N.succ (N.of_nat (List.length pre))) by lia.
      exact Hr.
    + rewrite <- app_assoc. exact Hlen.
    + intros v Hin. apply Hd. right. exact Hin.
Qed.

Lemma mergeRefs_plain_step doc jp s :
  plain jp doc = true -> depth doc < S n ->
  mergeRefs E (S n) baseDir doc file jp s = Ok doc s.
Proof.
  intros Hp Hd. cbn [mergeRefs]. unfold mergeRefsBody.
  destruct doc as [| | | | | inc es ps | ps]; try reflexivity; cbn [isObject negb isArray].
  - rewrite plain_Arr in Hp.
    apply andb_true_iff in Hp. destruct Hp as [Hp He].
    apply andb_true_iff in Hp. destruct Hp as [Hp Hl].
    apply andb_true_iff in Hp. destruct Hp as [Hi Hps].
    destruct inc; [discriminate|]. destruct ps; [| discriminate].
    cbn [entries]. rewrite app_nil_r.
    apply N.ltb_lt in Hl.
    apply (mergeEntries_plain_elems jp es [] s); auto.
    intros v Hin.
    assert (Hin' : exists k, In (k, v) (entries (Arr false es []))).
    { cbn [entries]. rewrite app_nil_r. clear - Hin. generalize 0%N.
      induction es as [|x r IH]; intros i; [contradiction|].
      destruct Hin as [->|Hin].
      - eexists; left; reflexivity.
      - destruct (IH Hin (N.succ i)) as [k Hk]. exists k. right. exact Hk. }
    destruct Hin' as [k Hk]. pose proof (depth_entries _ _ _ Hk). lia.
  - rewrite plain_Obj in Hp. cbn [entries].
    apply (mergeEntries_plain_props jp ps [] s Hp).
    intros k v Hin.
    pose proof (depth_entries (Obj ps) k v Hin). lia.
Qed.

End PlainDocuments.

Lemma mergeRefs_plain_any E baseDir file :
  (forall x, env_mergeOrOverwrite E Undef x = x) ->
  forall fuel doc jp s,
    plain jp doc = true -> depth doc < fuel ->
    mergeRefs E fuel baseDir doc file jp s = Ok doc s.
Proof.
  intros Hm. induction fuel as [|n IH]; intros doc jp s Hp Hd; [lia|].
  apply mergeRefs_plain_step; auto.
Qed.


(** ** merger.js: what [merge] returns *)

Lemma isObject_assignMergeValue o k v :
  isObject (assignMergeValue o k v) = isObject o.
Proof.
  unfold assignMergeValue.
  destruct v; try apply isObject_set_prop.
  destruct (key_in o k); [reflexivity | apply isObject_set_prop].
Qed.

Lemma isObject_baseMerge ps : forall o, isObject (baseMerge o ps) = isObject o.
Proof.
  unfold baseMerge.
  induction ps as [|kx r IH]; intros o; cbn [fold_left]; [reflexivity|].
  rewrite IH. unfold mergeStep. apply isObject_assignMergeValue.
Qed.

Lemma isObject_objectBase x : isObject (objectBase x) = true.
Proof. unfold objectBase. destruct (isObject x) eqn:H; [exact H | reflexivity]. Qed.

Lemma isObject_lodash_merge a b : isObject (lodash_merge a b) = true.
Proof.
  unfold lodash_merge. destruct (truthy b).
  - rewrite isObject_baseMerge. apply isObject_objectBase.
  - apply isObject_objectBase.
Qed.

Lemma get_set_components doc v :
  isObject doc = true -> get_prop (set_prop doc "components" v) "components" = v.
Proof.
  destruct doc as [| | | | | inc es ps | ps]; try discriminate; intros _.
  - cbn [set_prop]. change (parse_index "components") with (@None N).
    cbn [get_prop]. change (parse_index "components") with (@None N).
    cbn [String.eqb Ascii.eqb Bool.eqb]. rewrite lookup_props_set_same. reflexivity.
  - apply get_set_same.
Qed.

Lemma merge_ok_shape E fuel doc docPath s out s' :
  merge E fuel doc docPath s = Ok out s' ->
  isObject out = true /\ isObject (get_prop out "components") = true.
Proof.
  unfold merge. cbv zeta. intros H.
  repeat (apply bind_ok_inv in H; destruct H as [? [? [_ H]]]).
  unfold setComponents in H.
  match type of H with
  | (if isObject ?d then _ else _) _ = _ => destruct (isObject d) eqn:Hd
  end; [| discriminate].
  injection H as <- <-.
  rewrite isObject_set_prop, (get_set_components _ _ Hd).
  split; [exact Hd | apply isObject_lodash_merge].
Qed.

(** X4. Whatever the document and whatever it refers to, a document that
    [merge] returns is an object (a mapping, or a sequence) with a
    [components] property that is itself an object: the shared section is
    always there, even when no component was registered. *)
Theorem merge_returns_components E fuel doc docPath s out s' :
  merge E fuel doc docPath s = Ok out s' ->
  isObject out = true /\ isObject (get_prop out "components") = true.
Proof. apply merge_ok_shape. Qed.

(** X5. A document that is not an object (the [undefined] or [null] an
    empty file parses to, a scalar) is not merged: [mergeRefs] returns it
    as it is on both passes and the assignment of [doc.components] throws
    a [TypeError].  Nothing is fetched or logged on the way. *)
Theorem merge_of_scalar_throws E n doc docPath s p :
  env_parseUrl E (Str (env_resolveCwd E docPath)) = Some p ->
  isObject doc = false ->
  merge E (S n) doc docPath s
  = Throw (TypeError "components")
          (mkState (newManager (Some [])) (cache s) (logged s)).
Proof.
  intros Hp Hd. unfold merge. cbv zeta. unfold parseUrlM. rewrite Hp.
  assert (Hr : forall baseDir file t,
             mergeRefs E (S n) baseDir doc file "$" t = Ok doc t).
  { intros baseDir file t. cbn [mergeRefs]. unfold mergeRefsBody.
    rewrite Hd. reflexivity. }
  bind_step ltac:(reflexivity).
  bind_step ltac:(reflexivity).
  bind_step ltac:(apply Hr).
  bind_step ltac:(reflexivity).
  bind_step ltac:(reflexivity).
  bind_step ltac:(apply Hr).
  bind_step ltac:(reflexivity).
  unfold setComponents. rewrite Hd. reflexivity.
Qed.

Lemma merge_plain_run E fuel doc docPath s p :
  env_parseUrl E (Str (env_resolveCwd E docPath)) = Some p ->
  (forall x, env_mergeOrOverwrite E Undef x = x) ->
  isObject doc = true ->
  plain "$" doc = true ->
  depth doc < fuel ->
  merge E fuel doc docPath s
  = Ok (set_prop doc "components" (objectBase (get_prop doc "components")))
       (mkState (newManager (Some [])) (cache s) (logged s)).
Proof.
  intros Hp Hm Ho Hpl Hd. unfold merge. cbv zeta.
  bind_step ltac:(unfold parseUrlM; rewrite Hp; reflexivity).
  bind_step ltac:(reflexivity).
  bind_step ltac:(apply mergeRefs_plain_any; assumption).
  bind_step ltac:(reflexivity).
  bind_step ltac:(reflexivity).
  bind_step ltac:(apply mergeRefs_plain_any; assumption).
  bind_step ltac:(reflexivity).
  unfold setComponents. rewrite Ho.
  cbn [manager newManager getComponentsSection components fold_left].
  unfold lodash_merge. cbn [truthy emptyObj entriesIn entries baseMerge fold_left].
  reflexivity.
Qed.


(** ** http.js: what [download] remembers *)

Section HttpMemo.

Variable fetch : string -> FetchResult.
Variable loadYAML : string -> option Node.
Variable parseJSON : string -> option Node.

Local Abbreviation downloadM := (download fetch loadYAML parseJSON).

(** Splits a call of [download] that is not served from the cache into
    the outcomes of the fetch and of the parser. *)
Ltac fetch_cases url :=
  destruct (fetch url) as [|res] eqn:Hfetch; simpl;
  [| destruct (ok res) eqn:Hok; simpl;
     [ destruct (text res) as [body|] eqn:Hbody; simpl;
       [ destruct (endsWith url ".yml" || endsWith url ".yaml")%bool eqn:Hyml; simpl;
         [ destruct (loadYAML body) as [d|] eqn:Hdoc; simpl
         | destruct (endsWith url ".json") eqn:Hjson; simpl;
           [ destruct (parseJSON body) as [d|] eqn:Hdoc; simpl
           | destruct (loadYAML body) as [d|] eqn:Hdoc; simpl ] ]
       | ]
     | ] ].

(** X7. A document that [download] has obtained from a successful response
    is remembered: if it is truthy, every later [download] of the URL
    returns it without fetching, logging or changing anything, whatever
    the network and the parsers then are. *)
Theorem download_memoises url s r doc s' :
  fetch url = FetchResponse r -> ok r = true ->
  downloadM url s = Ok doc s' ->
  truthy doc = true ->
  forall fetch' loadYAML' parseJSON',
    download fetch' loadYAML' parseJSON' url s' = Ok doc s'.
Proof.
  intros Hf Hr Hrun Ht f' l' p'.
  destruct (truthy (cacheGet (cache s) url)) eqn:Hc.
  - rewrite (download_cached _ _ _ _ _ Hc) in Hrun. injection Hrun as <- <-.
    apply download_cached. exact Hc.
  - assert (Hs : cacheGet (cache s') url = doc).
    { unfold download, bind, getCache in Hrun. rewrite Hc in Hrun. simpl in Hrun.
      rewrite Hf in Hrun. simpl in Hrun. rewrite Hr in Hrun. simpl in Hrun.
      destruct (text r) as [body|]; simpl in Hrun; [| discriminate].
      destruct (endsWith url ".yml" || endsWith url ".yaml")%bool; simpl in Hrun.
      { destruct (loadYAML body); simpl in Hrun; [| discriminate].
        injection Hrun as <- <-. apply cacheGet_set_same. }
      destruct (endsWith url ".json"); simpl in Hrun.
      { destruct (parseJSON body); simpl in Hrun; [| discriminate].
        injection Hrun as <- <-. apply cacheGet_set_same. }
      destruct (loadYAML body); simpl in Hrun; [| discriminate].
      injection Hrun as <- <-. apply cacheGet_set_same. }
    rewrite <- Hs. apply download_cached. rewrite Hs. exact Ht.
Qed.

(** X8. A falsy document is not: when [download] returns a document that
    is falsy ([undefined] or [null] for an empty body, [false], [0], the
    empty string), the next [download] of the URL fetches it again, with
    the warning that goes with a fetch, and returns the same document. *)
Theorem download_falsy_document_refetched url s doc s' :
  downloadM url s = Ok doc s' ->
  truthy doc = false ->
  exists s'' lg,
    downloadM url s' = Ok doc s'' /\
    logged s'' = lg ++ (LWarn, "fetching: " ++ url)%string :: logged s'.
Proof.
  intros Hrun Ht.
  destruct (truthy (cacheGet (cache s) url)) eqn:Hc.
  { rewrite (download_cached _ _ _ _ _ Hc) in Hrun. injection Hrun as <- <-.
    rewrite Hc in Ht. discriminate. }
  unfold download, bind, getCache, cloneDeep in Hrun. rewrite Hc in Hrun. simpl in Hrun.
  unfold download, bind, getCache, cloneDeep.
  revert Hrun. fetch_cases url; intros Hrun; try discriminate;
    try (injection Hrun as <- <-; discriminate);
    injection Hrun as <- <-; cbn [cache logged manager];
    rewrite cacheGet_set_same, Ht; simpl;
    rewrite ?Hfetch; simpl; rewrite ?Hok; simpl; rewrite ?Hbody; simpl;
    rewrite ?Hyml; simpl; rewrite ?Hjson; simpl; rewrite ?Hdoc; simpl.
  - do 2 eexists. split; [reflexivity|]. cbn [logged]. exact (eq_refl : _ = [] ++ _).
  - do 2 eexists. split; [reflexivity|]. cbn [logged]. exact (eq_refl : _ = [] ++ _).
  - do 2 eexists. split; [reflexivity|]. cbn [logged]. exact (eq_refl : _ = [_] ++ _).
Qed.

(** X9. [download] of a URL never touches the registry, never changes
    what the cache holds for another URL, and only adds to the log,
    whether it returns or throws. *)
Theorem download_frame url url' :
  url' <> url ->
  preserves (fun s s' =>
               manager s' = manager s /\
               cacheGet (cache s') url' = cacheGet (cache s) url' /\
               exists lg, logged s' = lg ++ logged s)
            (downloadM url).
Proof.
  intros Hne s. unfold download, bind, getCache.
  destruct (truthy (cacheGet (cache s) url)) eqn:Hc; simpl.
  { repeat split. exists []. reflexivity. }
  fetch_cases url; cbn [manager cache logged];
    repeat split;
    try (apply cacheGet_set_other; exact Hne);
    try (exists [(LWarn, "fetching: " ++ url)%string]; reflexivity);
    try (eexists [_; _]; reflexivity).
Qed.

End HttpMemo.

(** ** merger.js: reference directives *)

Lemma length_append_string p s :
  String.length (p ++ s)%string = String.length p + String.length s.
Proof. induction p as [|c p IH]; cbn; [reflexivity | rewrite IH; reflexivity]. Qed.

Lemma substring_split s : forall m,
  m <= String.length s ->
  s = (substring 0 m s ++ substring m (String.length s - m) s)%string.
Proof.
  induction s as [|c s IH]; intros m Hm.
  - destruct m; reflexivity.
  - destruct m as [|m]; cbn.
    + f_equal. clear. induction s as [|a s IHs]; cbn; [reflexivity | f_equal; exact IHs].
    + f_equal. apply IH. cbn in Hm. lia.
Qed.

Lemma endsWith_iff s suffix :
  endsWith s suffix = true <-> exists pre, s = (pre ++ suffix)%string.
Proof.
  unfold endsWith. split.
  - intros H. apply andb_true_iff in H. destruct H as [Hl He].
    apply Nat.leb_le in Hl. apply String.eqb_eq in He.
    exists (substring 0 (String.length s - String.length suffix) s).
    pose proof (substring_split s (String.length s - String.length suffix)
                  ltac:(lia)) as Hs.
    replace (String.length s - (String.length s - String.length suffix))
      with (String.length suffix) in Hs by lia.
    rewrite He in Hs. exact Hs.
  - intros [pre ->]. rewrite length_append_string.
    apply andb_true_iff. split; [apply Nat.leb_le; lia |].
    apply String.eqb_eq.
    replace (String.length pre + String.length suffix - String.length suffix)
      with (String.length pre) by lia.
    pose proof (substring_after pre suffix) as H.
    rewrite length_append_string in H.
    replace (String.length pre + String.length suffix - String.length pre)
      with (String.length suffix) in H by lia.
    exact H.
Qed.

(** X10. A key is handled as a reference directive exactly when it is
    [$ref], or when the object that holds it is reached by a path that
    ends with [discriminator.mapping], whatever the key then is. *)
Theorem isRef_spec key jsonPath :
  isRef key jsonPath = true <->
  key = "$ref" \/ exists pre, jsonPath = (pre ++ "discriminator.mapping")%string.
Proof.
  unfold isRef. rewrite orb_true_iff, String.eqb_eq, endsWith_iff. reflexivity.
Qed.

(** ** merger.js: a reference that is handled as an include *)

Section RefAsInclude.

Variable E : Env.
Variable baseDir : string.
Variable mergeRefsRec mergeRefsRec' : Node -> string -> string -> M Node.
Variable handleIncludeRec : Node -> string -> Node -> string -> string -> M (Node * Node).

(** X11. [handleRef] hands a reference of a class that is to be included
    over to [handleInclude] and drops what it returns.  When the content
    resolves to a sequence, [handleInclude] only returns it (concatenated
    to a destination that is a sequence, or in place of a destination
    whose only key is the directive): the object the caller holds keeps
    the directive, with the value it had, and the sequence is lost. *)
Theorem handleRef_included_sequence_is_dropped obj0 key val file jsonPath s
      pRef pFile content nextFile sliced merged s1 s2 :
  env_shouldInclude E (env_getRefType E jsonPath) = true ->
  env_parseUrl E val = Some pRef ->
  env_parseUrl E (Str file) = Some pFile ->
  includeContent E handleIncludeRec pRef pFile key val file jsonPath
    (mkState (manager s) (cache s)
       ((LDebug, "include: " ++ jsonPath ++ " file=" ++ env_relative E baseDir file)%string
          :: (LDebug, "ref    : " ++ jsonPath ++ " file=" ++ env_relative E baseDir file)%string
          :: logged s))
  = Ok (Some (content, nextFile)) s1 ->
  env_sliceObject E content (hash pRef) = Some sliced ->
  mergeRefsRec sliced nextFile jsonPath s1 = Ok merged s2 ->
  isArray merged = true ->
  let obj1 := set_prop obj0 key (env_mergeOrOverwrite E (get_prop obj0 key) val) in
  let obj2 := set_prop obj1 key (env_mergeOrOverwrite E (get_prop obj1 key) val) in
  isArray obj0 = true \/ keys obj2 = [key] ->
  handleRefBody E baseDir mergeRefsRec'
    (handleIncludeBody E baseDir mergeRefsRec handleIncludeRec)
    obj0 key val file jsonPath s
  = Ok obj2 s2.
Proof.
  intros Hsh Hp Hf Hc Hs Hm Ha obj1 obj2 Hshape.
  unfold handleRefBody.
  bind_step ltac:(reflexivity).
  bind_step ltac:(unfold parseUrlM; rewrite Hp; reflexivity).
  bind_step ltac:(unfold parseUrlM; rewrite Hf; reflexivity).
  rewrite Hsh.
  assert (Hrun : handleIncludeBody E baseDir mergeRefsRec handleIncludeRec
                   obj1 key val file jsonPath
                   (mkState (manager s) (cache s)
                      ((LDebug, "ref    : " ++ jsonPath ++ " file="
                                ++ env_relative E baseDir file)%string :: logged s))
                 = includeInto E obj2 key val jsonPath merged s2).
  { apply (handleIncludeBody_resolved E baseDir mergeRefsRec handleIncludeRec
             obj1 key val file jsonPath
             (mkState (manager s) (cache s)
                ((LDebug, "ref    : " ++ jsonPath ++ " file="
                          ++ env_relative E baseDir file)%string :: logged s))
             pRef pFile content nextFile sliced merged s1 s2 Hp Hf Hc Hs Hm). }
  destruct (isArray obj0) eqn:Ho.
  - erewrite bind_ok.
    2:{ etransitivity; [exact Hrun|]. apply includeInto_array_array; [exact Ha|].
        unfold obj2, obj1. rewrite !isArray_set_prop. exact Ho. }
    reflexivity.
  - destruct Hshape as [Hshape|Hshape]; [discriminate|].
    erewrite bind_ok.
    2:{ etransitivity; [exact Hrun|]. apply includeInto_array_sole_key; [exact Ha | | exact Hshape].
        unfold obj2, obj1. rewrite !isArray_set_prop. exact Ho. }
    reflexivity.
Qed.

End RefAsInclude.

(** ** merger.js: an include directive and the keys beside it *)

Lemma mergeRefs_scalar E n baseDir v file jsonPath s :
  isObject v = false -> mergeRefs E (S n) baseDir v file jsonPath s = Ok v s.
Proof.
  intros H. cbn [mergeRefs]. unfold mergeRefsBody. rewrite H. reflexivity.
Qed.

Lemma scalar_not_included v : isObject v = false -> isIncludedArray v = false.
Proof. destruct v as [| | | | | [|] ? ? |]; simpl; congruence. Qed.

Lemma keys_first_key k x : keys (set_prop emptyObj k x) = [k].
Proof.
  unfold keys, emptyObj, set_prop, props_set. cbn [hasKey lookup].
  destruct (parse_index k); reflexivity.
Qed.

Lemma length_props_set_new k x l :
  hasKey k l = false -> List.length (props_set k x l) = S (List.length l).
Proof.
  intros H. unfold props_set. rewrite H.
  destruct (parse_index k) as [i|].
  - clear H. induction l as [|[k' v'] r IH]; cbn [insert_index List.length]; [reflexivity|].
    destruct (parse_index k') as [j|]; [| reflexivity].
    destruct (N.ltb i j); cbn [List.length]; [reflexivity | rewrite IH; reflexivity].
  - rewrite length_app. cbn. lia.
Qed.

Section SoleKeyOrder.

Variable E : Env.
Variable baseDir : string.

(** X12. Whether a sequence brought in by an include directive is
    accepted beside another key depends on the order of the keys.
    [mergeRefs] builds its result key by key, so the directive is the only
    key of the destination whenever it comes first: the sequence then
    replaces the destination, and the key that follows becomes a property
    of the array.  With the same two keys the other way round,
    [handleInclude] throws. *)
Theorem include_beside_a_key_depends_on_order m key val k v file jsonPath s
      pRef pFile content nextFile sliced merged s1 s2 :
  isInclude key = true ->
  isRef key jsonPath = false ->
  plainKey jsonPath k = true ->
  parse_index k = None ->
  isObject v = false ->
  env_parseUrl E val = Some pRef ->
  env_parseUrl E (Str file) = Some pFile ->
  includeContent E (handleInclude E m baseDir) pRef pFile key val file jsonPath
    (mkState (manager s) (cache s)
       ((LDebug, "include: " ++ jsonPath ++ " file=" ++ env_relative E baseDir file)%string
          :: logged s))
  = Ok (Some (content, nextFile)) s1 ->
  env_sliceObject E content (hash pRef) = Some sliced ->
  mergeRefs E m baseDir sliced nextFile jsonPath s1 = Ok merged s2 ->
  isArray merged = true ->
  let included := includedArrayFrom merged in
  mergeRefs E (S (S m)) baseDir (Obj [(key, val); (k, v)]) file jsonPath s
  = Ok (set_prop included k (env_mergeOrOverwrite E (get_prop included k) v)) s2
  /\
  exists msg,
    mergeRefs E (S (S m)) baseDir (Obj [(k, v); (key, val)]) file jsonPath s
    = Throw (MergeError msg) s2.
Proof.
  intros Hinc Hnr Hk Hidx Hv Hp Hf Hc Hs Hm Ha included.
  unfold plainKey in Hk. apply andb_true_iff in Hk. destruct Hk as [Hk1 Hk2].
  apply negb_true_iff in Hk1, Hk2.
  assert (Hres : forall obj0,
             handleInclude E (S m) baseDir obj0 key val file jsonPath s
             = includeInto E
                 (set_prop obj0 key (env_mergeOrOverwrite E (get_prop obj0 key) val))
                 key val jsonPath merged s2).
  { intros obj0. cbn [handleInclude].
    apply (handleIncludeBody_resolved E baseDir (mergeRefs E m baseDir)
             (handleInclude E m baseDir) obj0 key val file jsonPath s
             pRef pFile content nextFile sliced merged s1 s2 Hp Hf Hc Hs Hm). }
  split.
  - cbn [mergeRefs]. unfold mergeRefsBody.
    cbn [isObject negb isArray entries mergeEntries].
    erewrite bind_ok.
    2:{ unfold mergeEntry. rewrite Hnr, Hinc.
        erewrite bind_ok.
        2:{ rewrite Hres. apply includeInto_array_sole_key; [exact Ha | |].
            - rewrite isArray_set_prop. reflexivity.
            - apply keys_first_key. }
        reflexivity. }
    cbn beta. cbn [snd].
    erewrite bind_ok.
    2:{ unfold mergeEntry. rewrite Hk1, Hk2.
        erewrite bind_ok; [| apply mergeRefs_scalar; exact Hv].
        cbn beta. rewrite (scalar_not_included _ Hv). cbn [andb]. reflexivity. }
    reflexivity.
  - cbn [mergeRefs]. unfold mergeRefsBody.
    cbn [isObject negb isArray entries mergeEntries].
    erewrite bind_ok.
    2:{ unfold mergeEntry. rewrite Hk1, Hk2.
        erewrite bind_ok; [| apply mergeRefs_scalar; exact Hv].
        cbn beta. rewrite (scalar_not_included _ Hv). cbn [andb]. reflexivity. }
    cbn beta.
    set (ret1 := set_prop emptyObj k
                   (env_mergeOrOverwrite E (get_prop emptyObj k) v)).
    destruct (includeInto_array_other E
                (set_prop ret1 key (env_mergeOrOverwrite E (get_prop ret1 key) val))
                key val jsonPath merged s2 Ha) as [msg Hmsg].
    + rewrite isArray_set_prop. reflexivity.
    + assert (Hret : forall x, props_set k x [] = [(k, x)]).
      { intros x. unfold props_set. cbn [hasKey lookup]. rewrite Hidx. reflexivity. }
      unfold ret1, emptyObj, set_prop, keys, entries.
      rewrite length_map, Hret.
      rewrite length_props_set_new; [cbn [List.length]; lia|].
      unfold hasKey. cbn [lookup].
      destruct (String.eqb key k) eqn:Ek; [| reflexivity].
      apply String.eqb_eq in Ek. subst k. congruence.
    + exists msg.
      erewrite bind_throw; [reflexivity|].
      unfold mergeEntry. rewrite Hnr, Hinc.
      erewrite bind_throw; [reflexivity|].
      rewrite Hres. exact Hmsg.
Qed.

End SoleKeyOrder.

(** ** merger.js: includes that bring nothing, includes that fail *)

Lemma props_remove_absent k l : hasKey k l = false -> props_remove k l = l.
Proof.
  unfold hasKey. induction l as [|[k' v'] r IH]; cbn [lookup props_remove]; [reflexivity|].
  destruct (String.eqb k k'); [discriminate|].
  intros H. rewrite (IH H). reflexivity.
Qed.

Lemma props_remove_head k x l : props_remove k ((k, x) :: l) = props_remove k l.
Proof. cbn [props_remove]. rewrite String.eqb_refl. reflexivity. Qed.

Lemma hasKey_tail k k' v' r :
  hasKey k ((k', v') :: r) = false -> String.eqb k k' = false /\ hasKey k r = false.
Proof.
  unfold hasKey. cbn [lookup]. destruct (String.eqb k k'); [discriminate | auto].
Qed.

Lemma props_remove_set_new k x l :
  hasKey k l = false -> props_remove k (props_set k x l) = l.
Proof.
  intros H. unfold props_set. rewrite H.
  destruct (parse_index k) as [i|].
  - induction l as [|[k' v'] r IH]; cbn [insert_index].
    + apply props_remove_head.
    + destruct (hasKey_tail _ _ _ _ H) as [Ek Hr].
      destruct (parse_index k') as [j|]; [destruct (N.ltb i j) |].
      * rewrite props_remove_head. apply props_remove_absent. exact H.
      * cbn [props_remove]. rewrite Ek, (IH Hr). reflexivity.
      * rewrite props_remove_head. apply props_remove_absent. exact H.
  - induction l as [|[k' v'] r IH]; cbn [app].
    + apply props_remove_head.
    + destruct (hasKey_tail _ _ _ _ H) as [Ek Hr].
      cbn [props_remove]. rewrite Ek, (IH Hr). reflexivity.
Qed.

Section IncludeEdges.

Variable E : Env.
Variable baseDir : string.


(** X14. An include of a local file that cannot be read, or whose text
    the parser rejects, is fatal: [handleInclude] throws, with nothing
    done but the line it logs on entry. *)
Theorem include_of_unreadable_file_throws n obj key v file jsonPath s pRef pFile pt :
  env_parseUrl E (Str v) = Some pRef ->
  env_parseUrl E (Str file) = Some pFile ->
  isHttp pRef = false ->
  isLocal pRef = false ->
  env_parseUrl E
    (Str (if isHttp pFile
          then env_urlResolve E (env_dirname E (hrefWoHash pFile) ++ "/") v
          else env_posixJoin E (env_posixDirname E (hrefWoHash pFile)) v))
  = Some pt ->
  isHttp pt = false ->
  includesStar (hrefWoHash pt) = false ->
  let s0 := mkState (manager s) (cache s)
              ((LDebug, "include: " ++ jsonPath ++ " file="
                        ++ env_relative E baseDir file)%string :: logged s) in
  (env_readFileSync E (hrefWoHash pt) = None ->
   handleInclude E (S n) baseDir obj key (Str v) file jsonPath s
   = Throw (FsError (hrefWoHash pt)) s0) /\
  (forall str,
      env_readFileSync E (hrefWoHash pt) = Some str ->
      env_loadYAML E str = None ->
      handleInclude E (S n) baseDir obj key (Str v) file jsonPath s
      = Throw (ParseError (hrefWoHash pt)) s0).
Proof.
  intros Hp Hf Hh Hl Ht Hth Hstar s0.
  assert (Hgen : forall e,
             readYAML E (hrefWoHash pt) s0 = Throw e s0 ->
             handleInclude E (S n) baseDir obj key (Str v) file jsonPath s
             = Throw e s0).
  { intros e He. cbn [handleInclude]. unfold handleIncludeBody.
    bind_step ltac:(reflexivity).
    bind_step ltac:(unfold parseUrlM; rewrite Hp; reflexivity).
    bind_step ltac:(unfold parseUrlM; rewrite Hf; reflexivity).
    apply bind_throw. unfold includeContent. rewrite Hh, Hl.
    unfold remoteTarget.
    destruct (isHttp pFile).
    - erewrite bind_ok; [| reflexivity]. cbn beta.
      erewrite bind_ok; [| unfold parseUrlM; rewrite Ht; reflexivity].
      cbn beta. rewrite Hth, Hstar. apply bind_throw. exact He.
    - erewrite bind_ok; [| reflexivity]. cbn beta.
      erewrite bind_ok; [| unfold parseUrlM; rewrite Ht; reflexivity].
      cbn beta. rewrite Hth, Hstar. apply bind_throw. exact He. }
  split.
  - intros Hr. apply Hgen. unfold readYAML. apply bind_throw. rewrite Hr. reflexivity.
  - intros str Hr Hy. apply Hgen. unfold readYAML.
    erewrite bind_ok; [| rewrite Hr; reflexivity]. cbn beta. rewrite Hy. reflexivity.
Qed.

End IncludeEdges.

(** ** merger.js: matched files with the same base name *)

Section GlobSameName.

Variable E : Env.
Variable handleIncludeRec : Node -> string -> Node -> string -> string -> M (Node * Node).

(** X15. Among the files a glob pattern matches, the last one of a base
    name wins: the mapping built from the matched files holds, under the
    base name of a file that no later file shares, what [handleInclude]
    returned for that file, whatever the files before it were called. *)
Theorem glob_last_file_of_a_name_wins key file jsonPath before mf after l s content s' :
  includeFiles E handleIncludeRec key file jsonPath (before ++ mf :: after) (Obj l) s
  = Ok content s' ->
  ~ In (keyOfFile E mf) (map (keyOfFile E) after) ->
  exists t r t',
    includeOne E handleIncludeRec key file jsonPath mf t = Ok r t' /\
    get_prop content (keyOfFile E mf) = snd r.
Proof.
  revert l s. induction before as [|x before IH]; intros l s H Hlast.
  - cbn [app includeFiles] in H.
    apply bind_ok_inv in H. destruct H as [r [s1 [Hr Hrest]]].
    change (set_prop (Obj l) (env_basename E mf (env_extname E mf)) (snd r))
      with (Obj (props_set (keyOfFile E mf) (snd r) l)) in Hrest.
    destruct (includeFiles_mapping E handleIncludeRec _ _ _ _ _ _ _ _ Hrest)
      as [l' [-> [_ [Ho _]]]].
    exists s, r, s1. split; [exact Hr|].
    cbn [get_prop]. rewrite (Ho _ Hlast), lookup_props_set_same. reflexivity.
  - cbn [app includeFiles] in H.
    apply bind_ok_inv in H. destruct H as [r [s1 [Hr Hrest]]].
    change (set_prop (Obj l) (env_basename E x (env_extname E x)) (snd r))
      with (Obj (props_set (keyOfFile E x) (snd r) l)) in Hrest.
    apply (IH _ _ Hrest Hlast).
Qed.

End GlobSameName.

(** ** index.js and yaml.js: the command *)

Section CommandFacts.

Variable E : Env.
Variable dump : Node -> option string.
Variable existsSync : string -> bool.
Variable mkdirSync : string -> bool.
Variable writeFileSync : string -> string -> bool.

Local Abbreviation writeYAMLc := (writeYAML E dump existsSync mkdirSync writeFileSync).
Local Abbreviation mergerC := (merger E dump existsSync mkdirSync writeFileSync).

(** What [writeYAML] has done when it returns. *)
Lemma writeYAML_ok doc filePath s ops s' :
  writeYAMLc doc filePath s = Ok ops s' ->
  exists text,
    dump doc = Some text /\
    match given filePath with
    | Some p =>
        ops = (if existsSync (env_dirname E p) then []
               else [Mkdir (env_dirname E p)]) ++ [WriteFile p text]
        /\ s' = s
    | None =>
        ops = [] /\ s' = mkState (manager s) (cache s) ((LInfo, text) :: logged s)
    end.
Proof.
  unfold writeYAML. intros H.
  apply bind_ok_inv in H. destruct H as [text [s1 [Hd H]]].
  destruct (dump doc) as [t|]; [| discriminate].
  injection Hd as -> ->. exists text. split; [reflexivity|].
  destruct (given filePath) as [p|].
  - apply bind_ok_inv in H. destruct H as [made [s2 [Hm H]]].
    unfold ensureDir in Hm.
    destruct (existsSync (env_dirname E p)); cbn [negb] in Hm.
    + injection Hm as <- <-.
      destruct (writeFileSync p text); [| discriminate].
      injection H as <- <-. split; reflexivity.
    + destruct (mkdirSync (env_dirname E p)); [| discriminate].
      injection Hm as <- <-.
      destruct (writeFileSync p text); [| discriminate].
      injection H as <- <-. split; reflexivity.
  - injection H as <- <-. split; reflexivity.
Qed.

(** X16. A run of [merger] that returns has put out one document, once:
    the dump of an object that has a [components] section.  With an
    output path it has written that text to the path, after creating the
    directory of the path if it did not exist, and nothing else; without
    one (or with the empty path) it has touched no file and logged the
    text at the info level. *)
Theorem merger_puts_out_one_document fuel params s ops s' :
  mergerC fuel params s = Ok ops s' ->
  exists doc text,
    dump doc = Some text /\
    isObject doc = true /\
    isObject (get_prop doc "components") = true /\
    match given (output params) with
    | Some p =>
        ops = (if existsSync (env_dirname E p) then []
               else [Mkdir (env_dirname E p)]) ++ [WriteFile p text]
    | None =>
        ops = [] /\ exists lg, logged s' = (LInfo, text) :: lg
    end.
Proof.
  unfold merger. intros H.
  apply bind_ok_inv in H. destruct H as [doc0 [s1 [_ H]]].
  apply bind_ok_inv in H. destruct H as [config0 [s2 [_ H]]].
  apply bind_ok_inv in H. destruct H as [doc [s3 [Hm H]]].
  destruct (merge_ok_shape _ _ _ _ _ _ _ Hm) as [Ho Hc].
  destruct (writeYAML_ok _ _ _ _ _ H) as [text [Hd Hw]].
  exists doc, text. repeat split; auto.
  destruct (given (output params)) as [p|].
  - exact (proj1 Hw).
  - destruct Hw as [-> ->]. split; [reflexivity | eexists; reflexivity].
Qed.


End CommandFacts.

(** ** merger.js: an include directive as an item of a sequence *)

Lemma mergeEntries_app E recM recI recR file jsonPath l1 : forall l2 ret0 s,
  mergeEntries E recM recI recR file jsonPath (l1 ++ l2) ret0 s
  = bind (mergeEntries E recM recI recR file jsonPath l1 ret0)
         (fun r => mergeEntries E recM recI recR file jsonPath l2 r) s.
Proof.
  induction l1 as [|kv r IH]; intros l2 ret0 s; cbn [app mergeEntries].
  - reflexivity.
  - unfold bind.
    destruct (mergeEntry E recM recI recR file jsonPath ret0 kv s) as [a s1| |];
      [| reflexivity | reflexivity].
    rewrite IH. reflexivity.
Qed.

Lemma index_from_app l1 : forall i l2,
  index_from i (l1 ++ l2)
  = index_from i l1 ++ index_from (i + N.of_nat (List.length l1)) l2.
Proof.
  induction l1 as [|x r IH]; intros i l2; cbn [app index_from List.length].
  - rewrite N.add_0_r. reflexivity.
  - rewrite IH. do 3 f_equal. lia.
Qed.

Section IncludedItem.

Variable E : Env.
Variable baseDir : string.


End IncludedItem.

(* ===================================================================== *)
(** * Runs on concrete documents *)
(* ===================================================================== *)

(** The end-to-end example of the specification. *)
Example merge_end_to_end :
  exists s',
    merge Sample.env1 10 Sample.rootDoc "/w/root.yaml" Sample.state0
    = Ok (Obj [("paths", Obj [("/x", Obj [("$ref", Str "#/components/schemas/c0")])]);
               ("components",
                Obj [("schemas", Obj [("c0", Obj [("summary", Str "s")])])])])
         s'.
Proof. eexists. vm_compute. reflexivity. Qed.

(** A resource that cannot be fetched is included as the empty mapping and
    the merge goes on. *)
Example merge_survives_failed_fetch :
  exists s',
    merge Sample.envDown 6 Sample.netRoot "/w/root.yaml" Sample.state0
    = Ok (Obj [("info", Obj []); ("components", Obj [])]) s'.
Proof. eexists. vm_compute. reflexivity. Qed.

Lemma download_failure_not_fatal_witness :
  fetchFails (env_fetch Sample.envDown) "http://h/info.yaml" /\
  (exists doc s',
      download (env_fetch Sample.envDown) (env_loadYAML Sample.envDown)
        (env_parseJSON Sample.envDown) "http://h/info.yaml" Sample.state0
      = Ok doc s').
Proof.
  assert (H : fetchFails (env_fetch Sample.envDown) "http://h/info.yaml")
    by (right; eexists; split; reflexivity).
  split; [exact H|].
  exact (proj1 (download_failure_not_fatal _ (env_loadYAML Sample.envDown)
                  (env_parseJSON Sample.envDown) _ Sample.state0 H)).
Defined.

(** C9. With the configuration [{}] of index.js, a classed include makes
    [processInclude] throw: no pass-through, no warning. *)
Theorem processInclude_default_config_throws :
  processInclude Sample.env1 "$include.paths" (Obj [("a", Num 1)]) Sample.state0
  = Throw (TypeError "paths") Sample.state0.
Proof. reflexivity. Qed.


(** The same sequence included into an object that has another key
    already is an error, which ends the merge. *)
Example merge_aborts_on_array_into_object :
  exists msg s',
    merge Sample.envTags 6
      (Obj [("tags", Obj [("x", Num 1); ("$include", Str "./tags.yaml")])])
      "/w/root.yaml" Sample.state0
    = Throw (MergeError msg) s'.
Proof. do 2 eexists. vm_compute. reflexivity. Qed.

(** Keys that follow the directive in the source object are not in the
    destination when the include is handled: the object is replaced by the
    sequence, and the keys that follow become properties of the array. *)
Example include_before_other_keys :
  exists s',
    merge Sample.envTags 6
      (Obj [("tags", Obj [("$include", Str "./tags.yaml"); ("x", Num 1)])])
      "/w/root.yaml" Sample.state0
    = Ok (Obj [("tags", Arr true [Str "a"; Str "b"] [("x", Num 1)]);
               ("components", Obj [])]) s'.
Proof. eexists. vm_compute. reflexivity. Qed.

(** C4, refuted as stated: the destination has [a: 1] from a sibling key
    when the include brings [a: 2]; the merged document has [a: 2]. *)
Lemma include_overwrites_existing_key :
  exists out s',
    mergeRefs Sample.envSibling 4 "/w"
      (Obj [("a", Num 1); ("$include", Str "./x.yaml")]) "/w/root.yaml" "$"
      Sample.state0
    = Ok out s' /\
    get_prop out "a" = Num 2 /\ get_prop out "a" <> Num 1.
Proof.
  do 2 eexists. split; [vm_compute; reflexivity|].
  split; [reflexivity | discriminate].
Qed.

Lemma include_mapping_rule_witness :
  exists l',
    includeInto Sample.envSibling
      (Obj [("a", Num 1); ("$include", Str "./x.yaml")]) "$include"
      (Str "./x.yaml") "$" (Obj [("a", Num 2); ("b", Num 3)]) Sample.state0
    = Ok (Obj l', Obj l') Sample.state0 /\
    key_in (Obj l') "$include" = false /\
    get_prop (Obj l') "a" = Num 2.
Proof.
  destruct (include_mapping_rule Sample.envSibling
              [("a", Num 1); ("$include", Str "./x.yaml")] "$include"
              (Str "./x.yaml") "$" (Obj [("a", Num 2); ("b", Num 3)])
              [("a", Num 2); ("b", Num 3)] Sample.state0 Sample.state0
              eq_refl eq_refl)
    as [l' [H1 [H2 [_ H4]]]].
  - repeat constructor; simpl; intuition discriminate.
  - exists l'. split; [exact H1|]. split; [exact H2|].
    apply H4; [discriminate | reflexivity | reflexivity | discriminate].
Defined.

(** A file that includes itself: at every depth the engine is still
    running. *)
Lemma self_include_runs_out n :
  (forall s, mergeRefs Sample.envLoop n "/w" Sample.loopDoc "/w/a.yaml" "$" s
             = OutOfFuel) /\
  (forall obj s, handleInclude Sample.envLoop n "/w" obj "$include" (Str "./a.yaml")
                   "/w/a.yaml" "$" s = OutOfFuel).
Proof.
  induction n as [|n [IHm IHi]].
  - split; reflexivity.
  - split.
    + intros s. cbn [mergeRefs]. unfold mergeRefsBody. cbn [Sample.loopDoc isObject negb entries isArray].
      cbn [mergeEntries]. apply bind_fuel.
      unfold mergeEntry.
      change (isRef "$include" "$") with false.
      change (isInclude "$include") with true. cbv iota.
      apply bind_fuel. apply IHi.
    + intros obj s. cbn [handleInclude]. unfold handleIncludeBody.
      bind_step ltac:(reflexivity).
      bind_step ltac:(reflexivity).
      bind_step ltac:(reflexivity).
      bind_step ltac:(reflexivity).
      bind_step ltac:(reflexivity).
      apply bind_fuel. apply IHm.
Qed.


(** A schema that refers to itself is resolved, with one Component. *)
Example cyclic_reference_resolves :
  exists s',
    merge Sample.envCycle 6 Sample.cycleRoot "/w/root.yaml" Sample.state0
    = Ok (Obj [("a", Obj [("$ref", Str "#/components/schemas/c0")]);
               ("components",
                Obj [("schemas",
                      Obj [("c0",
                            Obj [("next",
                                  Obj [("$ref", Str "#/components/schemas/c0")])])])])])
         s' /\
    List.length (components (manager s')) = 1.
Proof. eexists. vm_compute. split; reflexivity. Qed.

(** The schema that refers to itself makes a closed world of one
    target. *)
Lemma Sample_cycle_ref file jsonPath :
  file = "/w/s.yaml" ->
  refWithin Sample.envCycle [("/w/s.yaml#/Node", "/w/s.yaml")] file jsonPath
    (Str "#/Node").
Proof.
  intros ->. split; [reflexivity|].
  intros pRef pFile s target nextFile s' Hp Hf Ht.
  vm_compute in Hp. injection Hp as <-.
  vm_compute in Hf. injection Hf as <-.
  unfold refTarget in Ht. cbn [isHttp isLocal] in Ht.
  unfold bind, getManager in Ht.
  destruct (existsVal (manager s) (Str "#/Node")); [discriminate|].
  cbn in Ht. injection Ht as <- <- _. left; reflexivity.
Qed.

Lemma Sample_cycle_world :
  closedWorld Sample.envCycle [("/w/s.yaml#/Node", "/w/s.yaml")] 2.
Proof.
  intros target nextFile [H|[]] s c s' Hic. injection H as <- <-.
  assert (Hc : c = Obj [("next", Obj [("$ref", Str "#/Node")])]).
  { unfold initialContent in Hic. cbn [env_policy Sample.envCycle Sample.env] in Hic.
    unfold bind, parseUrlM, readYAML, sliceObjectM, orThrow in Hic.
    vm_compute in Hic. injection Hic as <- _. reflexivity. }
  subst c. split; [vm_compute; repeat constructor|].
  intros jsonPath. cbn [closedDoc]. split; [| exact I].
  unfold entryWithin. unfold isRef. cbn [String.eqb Ascii.eqb Bool.eqb orb].
  destruct (endsWith jsonPath "discriminator.mapping").
  - split; [reflexivity|]. intros pRef pFile s0 t nf s0' Hp. discriminate.
  - split; [reflexivity|]. cbn [closedDoc]. split; [| exact I].
    unfold entryWithin.
    replace (isRef "$ref" (jsonPath ++ "." ++ "next")) with true
      by (unfold isRef; rewrite String.eqb_refl; reflexivity).
    apply Sample_cycle_ref. reflexivity.
Qed.

Lemma Sample_cycle_root :
  closedDoc Sample.envCycle [("/w/s.yaml#/Node", "/w/s.yaml")] "/w/root.yaml" "$"
    Sample.cycleRoot.
Proof.
  cbn [closedDoc Sample.cycleRoot]. split; [| exact I].
  unfold entryWithin. change (isRef "a" "$") with false. cbv iota.
  split; [reflexivity|]. cbn [closedDoc]. split; [| exact I].
  unfold entryWithin.
  change (isRef "$ref" ("$" ++ "." ++ "a")) with true. cbv iota.
  split; [reflexivity|].
  intros pRef pFile s target nextFile s' Hp Hf Ht.
  vm_compute in Hp. injection Hp as <-.
  vm_compute in Hf. injection Hf as <-.
  unfold refTarget in Ht. cbn [isHttp isLocal] in Ht.
  unfold bind, remoteTarget, asPath, bind, ret, parseUrlM, orThrow in Ht.
  cbn in Ht. injection Ht as <- <- _. left; reflexivity.
Qed.


Lemma merge_deterministic_witness :
  coherent Sample.env1 (cache Sample.state0) /\
  exists out s1 s2,
    merge Sample.env1 10 Sample.rootDoc "/w/root.yaml" Sample.state0 = Ok out s1 /\
    merge Sample.env1 10 Sample.rootDoc "/w/root.yaml" s1 = Ok out s2.
Proof.
  split; [apply coherent_empty|].
  destruct (merge Sample.env1 10 Sample.rootDoc "/w/root.yaml" Sample.state0)
    as [out s1| |] eqn:Hrun; try (vm_compute in Hrun; discriminate).
  destruct (merge_deterministic Sample.env1 10 Sample.rootDoc "/w/root.yaml"
              Sample.state0 out s1 (coherent_empty Sample.env1) Hrun)
    as [_ [_ [s2 H2]]].
  exists out, s1, s2. split; [reflexivity | exact H2].
Defined.





(** The document fetched for a URL is handed out in cells of its own: the
    caller overwrites the cell it was given, and the next call still
    returns the document as it was fetched. *)
Example download_copy_survives_mutation :
  let s0 := Heap.mkHState [] [] [] in
  let dl := Heap.download (env_fetch Sample.envOld) (env_loadYAML Sample.envOld)
              (env_parseJSON Sample.envOld) "http://h/info.yaml" in
  exists s1 cached s2,
    dl s0 = Heap.HOk (Heap.HRef 1) s1 /\
    Heap.hheap s1 = [cached; Heap.CObj [("title", Heap.HPrim (Str "old"))]] /\
    dl (Heap.mkHState [cached; Heap.CObj [("title", Heap.HPrim (Str "changed"))]]
          (Heap.hcache s1) (Heap.hlogged s1))
    = Heap.HOk (Heap.HRef 2) s2 /\
    Heap.read (Heap.hheap s2) (Heap.HRef 2) = Some (Obj [("title", Str "old")]).
Proof. intros s0 dl. do 3 eexists. vm_compute. repeat split. Qed.

Lemma download_hands_out_a_copy_witness :
  let s0 := Heap.mkHState [] [] [] in
  exists v1 s1 doc,
    Heap.download (env_fetch Sample.envOld) (env_loadYAML Sample.envOld)
      (env_parseJSON Sample.envOld) "http://h/info.yaml" s0 = Heap.HOk v1 s1 /\
    Heap.read (Heap.hheap s1) v1 = Some doc.
Proof.
  intros s0.
  destruct (Heap.download (env_fetch Sample.envOld) (env_loadYAML Sample.envOld)
              (env_parseJSON Sample.envOld) "http://h/info.yaml" s0)
    as [v1 s1|e s1] eqn:Hrun; [| vm_compute in Hrun; discriminate].
  destruct (HeapFacts.download_hands_out_a_copy
              (env_fetch Sample.envOld) (env_loadYAML Sample.envOld)
              (env_parseJSON Sample.envOld) "http://h/info.yaml" s0 v1 s1
              (fun H : Heap.truthyH (Heap.hget "http://h/info.yaml" (Heap.hcache s0)) = true =>
                 False_ind _ (Bool.diff_false_true H))
              Hrun)
    as [doc [older [copy [_ [Hr _]]]]].
  exists v1, s1, doc. split; [reflexivity | exact Hr].
Defined.

(** ** Runs of the further properties *)


Lemma merge_returns_components_witness :
  exists out s',
    merge Sample.env1 10 Sample.rootDoc "/w/root.yaml" Sample.state0 = Ok out s' /\
    isObject out = true /\ isObject (get_prop out "components") = true.
Proof.
  destruct (merge Sample.env1 10 Sample.rootDoc "/w/root.yaml" Sample.state0)
    as [out s'| |] eqn:Hrun; try (vm_compute in Hrun; discriminate).
  exists out, s'. split; [reflexivity|].
  exact (merge_returns_components Sample.env1 10 Sample.rootDoc "/w/root.yaml"
           Sample.state0 out s' Hrun).
Defined.

Lemma merge_of_scalar_throws_witness :
  merge Cases.envPlain 1 Undef "/w/empty.yaml" Sample.state0
  = Throw (TypeError "components")
          (mkState (newManager (Some [])) (cache Sample.state0) (logged Sample.state0)).
Proof.
  exact (merge_of_scalar_throws Cases.envPlain 0 Undef "/w/empty.yaml" Sample.state0
           (mkParsedUrl false false "/w/empty.yaml" "/w/empty.yaml" "" "/w/empty.yaml")
           eq_refl eq_refl).
Defined.


Lemma download_memoises_witness :
  exists doc s',
    download (env_fetch Sample.envOld) (env_loadYAML Sample.envOld)
      (env_parseJSON Sample.envOld) "http://h/info.yaml" Sample.state0 = Ok doc s' /\
    download (env_fetch Sample.envDown) (env_loadYAML Sample.envDown)
      (env_parseJSON Sample.envDown) "http://h/info.yaml" s' = Ok doc s'.
Proof.
  destruct (download (env_fetch Sample.envOld) (env_loadYAML Sample.envOld)
              (env_parseJSON Sample.envOld) "http://h/info.yaml" Sample.state0)
    as [doc s'| |] eqn:Hrun; try (vm_compute in Hrun; discriminate).
  exists doc, s'. split; [reflexivity|].
  apply (download_memoises (env_fetch Sample.envOld) (env_loadYAML Sample.envOld)
           (env_parseJSON Sample.envOld) "http://h/info.yaml" Sample.state0
           (mkResponse true 200 (Some "http://h/info.yaml")) doc s'
           eq_refl eq_refl Hrun).
  vm_compute in Hrun. injection Hrun as <- _. reflexivity.
Defined.

Lemma download_falsy_document_refetched_witness :
  exists s' s'' lg,
    download (env_fetch Cases.envNull) (env_loadYAML Cases.envNull)
      (env_parseJSON Cases.envNull) "http://h/empty.yaml" Sample.state0 = Ok Null s' /\
    download (env_fetch Cases.envNull) (env_loadYAML Cases.envNull)
      (env_parseJSON Cases.envNull) "http://h/empty.yaml" s' = Ok Null s'' /\
    logged s'' = lg ++ (LWarn, "fetching: http://h/empty.yaml") :: logged s'.
Proof.
  destruct (download (env_fetch Cases.envNull) (env_loadYAML Cases.envNull)
              (env_parseJSON Cases.envNull) "http://h/empty.yaml" Sample.state0)
    as [doc s'| |] eqn:Hrun; try (vm_compute in Hrun; discriminate).
  assert (Hdoc : doc = Null) by (vm_compute in Hrun; injection Hrun as <- _; reflexivity).
  subst doc.
  destruct (download_falsy_document_refetched (env_fetch Cases.envNull)
              (env_loadYAML Cases.envNull) (env_parseJSON Cases.envNull)
              "http://h/empty.yaml" Sample.state0 Null s' Hrun eq_refl)
    as [s'' [lg [H1 H2]]].
  exists s', s'', lg. split; [reflexivity|]. split; assumption.
Defined.

Lemma download_frame_witness :
  preserves (fun s s' =>
               manager s' = manager s /\
               cacheGet (cache s') "http://h/other.yaml"
               = cacheGet (cache s) "http://h/other.yaml" /\
               exists lg, logged s' = lg ++ logged s)
            (download (env_fetch Sample.envOld) (env_loadYAML Sample.envOld)
               (env_parseJSON Sample.envOld) "http://h/info.yaml").
Proof.
  apply (download_frame (env_fetch Sample.envOld) (env_loadYAML Sample.envOld)
           (env_parseJSON Sample.envOld) "http://h/info.yaml" "http://h/other.yaml").
  discriminate.
Defined.

Lemma handleRef_included_sequence_is_dropped_witness :
  exists s2,
    handleRefBody Cases.envRefTags "/w" (mergeRefs Cases.envRefTags 3 "/w")
      (handleIncludeBody Cases.envRefTags "/w"
         (mergeRefs Cases.envRefTags 2 "/w") (handleInclude Cases.envRefTags 2 "/w"))
      emptyObj "$ref" (Str "./tags.yaml") "/w/root.yaml" "$.tags" Sample.state0
    = Ok (Obj [("$ref", Str "./tags.yaml")]) s2.
Proof.
  eexists.
  refine (handleRef_included_sequence_is_dropped Cases.envRefTags "/w"
            (mergeRefs Cases.envRefTags 2 "/w") (mergeRefs Cases.envRefTags 3 "/w")
            (handleInclude Cases.envRefTags 2 "/w")
            emptyObj "$ref" (Str "./tags.yaml") "/w/root.yaml" "$.tags" Sample.state0
            (mkParsedUrl false false "./tags.yaml" "./tags.yaml" "" "./tags.yaml")
            (mkParsedUrl false false "/w/root.yaml" "/w/root.yaml" "" "/w/root.yaml")
            Sample.tagsDoc "/w/tags.yaml" Sample.tagsDoc Sample.tagsDoc _ _
            eq_refl eq_refl eq_refl eq_refl eq_refl eq_refl eq_refl
            (or_intror eq_refl)).
Defined.

Lemma include_beside_a_key_depends_on_order_witness :
  exists s2,
    mergeRefs Sample.envTags 4 "/w"
      (Obj [("$include", Str "./tags.yaml"); ("x", Num 1)]) "/w/root.yaml" "$.tags"
      Sample.state0
    = Ok (Arr true [Str "a"; Str "b"] [("x", Num 1)]) s2 /\
    exists msg,
      mergeRefs Sample.envTags 4 "/w"
        (Obj [("x", Num 1); ("$include", Str "./tags.yaml")]) "/w/root.yaml" "$.tags"
        Sample.state0
      = Throw (MergeError msg) s2.
Proof.
  eexists.
  refine (include_beside_a_key_depends_on_order Sample.envTags "/w" 2
            "$include" (Str "./tags.yaml") "x" (Num 1) "/w/root.yaml" "$.tags"
            Sample.state0
            (mkParsedUrl false false "./tags.yaml" "./tags.yaml" "" "./tags.yaml")
            (mkParsedUrl false false "/w/root.yaml" "/w/root.yaml" "" "/w/root.yaml")
            Sample.tagsDoc "/w/tags.yaml" Sample.tagsDoc Sample.tagsDoc _ _
            eq_refl eq_refl eq_refl eq_refl eq_refl eq_refl eq_refl eq_refl eq_refl
            eq_refl eq_refl).
Defined.


Lemma include_of_unreadable_file_throws_witness :
  handleInclude Sample.env1 1 "/w" emptyObj "$include" (Str "./missing.yaml")
    "/w/root.yaml" "$" Sample.state0
  = Throw (FsError "/w/missing.yaml")
          (mkState (manager Sample.state0) (cache Sample.state0)
             ((LDebug, "include: $ file=root.yaml") :: logged Sample.state0)).
Proof.
  exact (proj1 (include_of_unreadable_file_throws Sample.env1 "/w" 0 emptyObj
                  "$include" "./missing.yaml" "/w/root.yaml" "$" Sample.state0
                  (mkParsedUrl false false "./missing.yaml" "./missing.yaml" ""
                               "./missing.yaml")
                  (mkParsedUrl false false "/w/root.yaml" "/w/root.yaml" ""
                               "/w/root.yaml")
                  (mkParsedUrl false false "/w/missing.yaml" "/w/missing.yaml" ""
                               "/w/missing.yaml")
                  eq_refl eq_refl eq_refl eq_refl eq_refl eq_refl eq_refl)
           eq_refl).
Defined.

Lemma glob_last_file_of_a_name_wins_witness :
  exists content s' t r t',
    includeFiles Cases.envSameName (handleInclude Cases.envSameName 3 "/w")
      "$include" "/w/root.yaml" "$" ["a/x.yaml"; "b/x.yaml"] (Obj []) Sample.state0
    = Ok content s' /\
    includeOne Cases.envSameName (handleInclude Cases.envSameName 3 "/w")
      "$include" "/w/root.yaml" "$" "b/x.yaml" t = Ok r t' /\
    get_prop content "x" = snd r.
Proof.
  destruct (includeFiles Cases.envSameName (handleInclude Cases.envSameName 3 "/w")
              "$include" "/w/root.yaml" "$" ["a/x.yaml"; "b/x.yaml"] (Obj [])
              Sample.state0)
    as [content s'| |] eqn:Hc; try (vm_compute in Hc; discriminate).
  destruct (glob_last_file_of_a_name_wins Cases.envSameName
              (handleInclude Cases.envSameName 3 "/w")
              "$include" "/w/root.yaml" "$" ["a/x.yaml"] "b/x.yaml" [] []
              Sample.state0 content s' Hc (fun H => H))
    as [t [r [t' [H1 H2]]]].
  exists content, s', t, r, t'. split; [reflexivity|]. split; assumption.
Defined.

Lemma merger_puts_out_one_document_witness :
  exists ops s' doc,
    merger Cases.envPlain Cases.dump Cases.existsSync Cases.mkdirSync
      Cases.writeFileSync 5 (mkParams "/w/plain.yaml" None (Some "/out/api.yaml"))
      Sample.state0
    = Ok ops s' /\
    isObject (get_prop doc "components") = true /\
    ops = [Mkdir "/out"; WriteFile "/out/api.yaml" "merged"].
Proof.
  destruct (merger Cases.envPlain Cases.dump Cases.existsSync Cases.mkdirSync
              Cases.writeFileSync 5
              (mkParams "/w/plain.yaml" None (Some "/out/api.yaml")) Sample.state0)
    as [ops s'| |] eqn:Hrun; try (vm_compute in Hrun; discriminate).
  destruct (merger_puts_out_one_document Cases.envPlain Cases.dump Cases.existsSync
              Cases.mkdirSync Cases.writeFileSync 5
              (mkParams "/w/plain.yaml" None (Some "/out/api.yaml"))
              Sample.state0 ops s' Hrun)
    as [doc [text [Hd [_ [Hc Hops]]]]].
  exists ops, s', doc. split; [reflexivity|]. split; [exact Hc|].
  cbn in Hops. rewrite Hops. unfold Cases.dump in Hd.
  destruct (isObject doc); [| discriminate]. injection Hd as <-. reflexivity.
Defined.



Lemma isInclude_spec_witness : isInclude "$include#paths.get" = true.
Proof.
  apply (proj2 (isInclude_spec "$include#paths.get")).
  exists (Some "#paths"), (Some ".get"). repeat split.
Defined.

Lemma getIncludeClass_spec_witness :
  getIncludeClass "$include#paths.get" = Some "get".
Proof.
  apply (proj2 (getIncludeClass_spec "$include#paths.get" "get")).
  exists (Some "#paths"). repeat split.
Defined.

Lemma isRef_spec_witness :
  isRef "Cat" "$.components.schemas.Pet.discriminator.mapping" = true.
Proof.
  apply (proj2 (isRef_spec "Cat" "$.components.schemas.Pet.discriminator.mapping")).
  right. exists "$.components.schemas.Pet.". reflexivity.
Defined.
